(** * pquv: asynchronous libpq queries on a libuv loop

    A shallow embedding of [pquv.c].  The context ([pg_async_t]) and the
    query nodes ([pg_query_t]) live in an explicit store; every function of
    the C file is a computation in a state-and-failure monad over that store.
    Calls into libpq and libuv, the user's result callback and the calls to
    [free] are logged in a trace, oldest first, so that statements about
    what the library does, and in which order, are statements about traces.

    Both platform variants of the file are embedded: the [#ifdef _WIN32]
    branches are selected by a [platform] argument. *)

From stdpp Require Import gmap strings list fin_maps.

Open Scope Z_scope.

(** ** libpq and libuv as seen from [pquv.c] *)

Inductive platform := Posix | Win32.

Inductive ConnStatusType := CONNECTION_OK | CONNECTION_BAD.

(** A [PGconn *] that is not [NULL]. *)
Record PGconn := { conn_id : nat; PQstatus : ConnStatusType }.

Inductive ExecStatusType :=
| PGRES_EMPTY_QUERY
| PGRES_COMMAND_OK
| PGRES_TUPLES_OK
| PGRES_COPY_OUT
| PGRES_COPY_IN
| PGRES_BAD_RESPONSE
| PGRES_NONFATAL_ERROR
| PGRES_FATAL_ERROR.

(** A [PGresult *] that is not [NULL]. *)
Record PGresult := {
  res_id : nat;
  PQresultStatus : ExecStatusType;
  PQresultErrorMessage : string
}.

Inductive uv_handle_type := UV_UNKNOWN_HANDLE | UV_POLL | UV_TIMER.

(** The one context of a run is either designated by a pointer or the
    pointer is [NULL]. *)
Inductive pg_ref := PgNull | PgCtx.

(** What [pquv.c] can observe of its [uv_poll_t] / [uv_timer_t]: the
    [type] field, the [data] field, whether the handle is started, and
    [uv_is_closing]. *)
Record uv_handle := {
  h_type : uv_handle_type;
  h_data : pg_ref;
  h_active : bool;
  h_closing : bool
}.

(** The handle pointer libuv passes to a callback. *)
Inductive uv_ref := UvNull | UvHandle.

(** Addresses of [pg_query_t] nodes, function pointers of type
    [pg_result_cb_t], and [void *] user data. *)
Definition ptr := nat.
Definition cb_id := nat.
Definition user_data := Z.

(** ** The data model of [pquv.h] *)

Record pg_query := {
  sql : string;
  params : option (list (option string));
  param_count : Z;
  result_cb : option cb_id;
  data : user_data;
  next : option ptr
}.

Record pg_async := {
  conn : option PGconn;
  owns_connection : bool;
  is_connected : bool;
  is_executing : bool;
  destroying : bool;
  handle : uv_handle;
  query_queue : option ptr;
  query_queue_tail : option ptr;
  current_query : option ptr;
  error_message : option string;
  pg_data : user_data
}.

Definition set_conn (v : option PGconn) (pg : pg_async) : pg_async :=
  {| conn := v; owns_connection := owns_connection pg;
     is_connected := is_connected pg; is_executing := is_executing pg;
     destroying := destroying pg; handle := handle pg;
     query_queue := query_queue pg; query_queue_tail := query_queue_tail pg;
     current_query := current_query pg; error_message := error_message pg;
     pg_data := pg_data pg |}.

Definition set_is_executing (v : bool) (pg : pg_async) : pg_async :=
  {| conn := conn pg; owns_connection := owns_connection pg;
     is_connected := is_connected pg; is_executing := v;
     destroying := destroying pg; handle := handle pg;
     query_queue := query_queue pg; query_queue_tail := query_queue_tail pg;
     current_query := current_query pg; error_message := error_message pg;
     pg_data := pg_data pg |}.

Definition set_destroying (v : bool) (pg : pg_async) : pg_async :=
  {| conn := conn pg; owns_connection := owns_connection pg;
     is_connected := is_connected pg; is_executing := is_executing pg;
     destroying := v; handle := handle pg;
     query_queue := query_queue pg; query_queue_tail := query_queue_tail pg;
     current_query := current_query pg; error_message := error_message pg;
     pg_data := pg_data pg |}.

Definition set_handle (v : uv_handle) (pg : pg_async) : pg_async :=
  {| conn := conn pg; owns_connection := owns_connection pg;
     is_connected := is_connected pg; is_executing := is_executing pg;
     destroying := destroying pg; handle := v;
     query_queue := query_queue pg; query_queue_tail := query_queue_tail pg;
     current_query := current_query pg; error_message := error_message pg;
     pg_data := pg_data pg |}.

Definition set_query_queue (v : option ptr) (pg : pg_async) : pg_async :=
  {| conn := conn pg; owns_connection := owns_connection pg;
     is_connected := is_connected pg; is_executing := is_executing pg;
     destroying := destroying pg; handle := handle pg;
     query_queue := v; query_queue_tail := query_queue_tail pg;
     current_query := current_query pg; error_message := error_message pg;
     pg_data := pg_data pg |}.

Definition set_query_queue_tail (v : option ptr) (pg : pg_async) : pg_async :=
  {| conn := conn pg; owns_connection := owns_connection pg;
     is_connected := is_connected pg; is_executing := is_executing pg;
     destroying := destroying pg; handle := handle pg;
     query_queue := query_queue pg; query_queue_tail := v;
     current_query := current_query pg; error_message := error_message pg;
     pg_data := pg_data pg |}.

Definition set_current_query (v : option ptr) (pg : pg_async) : pg_async :=
  {| conn := conn pg; owns_connection := owns_connection pg;
     is_connected := is_connected pg; is_executing := is_executing pg;
     destroying := destroying pg; handle := handle pg;
     query_queue := query_queue pg; query_queue_tail := query_queue_tail pg;
     current_query := v; error_message := error_message pg;
     pg_data := pg_data pg |}.

Definition set_error_message (v : option string) (pg : pg_async) : pg_async :=
  {| conn := conn pg; owns_connection := owns_connection pg;
     is_connected := is_connected pg; is_executing := is_executing pg;
     destroying := destroying pg; handle := handle pg;
     query_queue := query_queue pg; query_queue_tail := query_queue_tail pg;
     current_query := current_query pg; error_message := v;
     pg_data := pg_data pg |}.

Definition set_next (v : option ptr) (q : pg_query) : pg_query :=
  {| sql := sql q; params := params q; param_count := param_count q;
     result_cb := result_cb q; data := data q; next := v |}.

(** ** Traces *)

(** One constructor per external call the file makes.  [EvResultCb] is the
    call of the user's [result_cb]; it also records the node the callback
    was read from.  [EvCloseCb] marks libuv entering [on_handle_closed]. *)
Inductive event :=
| EvPQsendQuery (s : string)
| EvPQsendQueryParams (s : string) (nParams : Z)
                      (paramValues : option (list (option string)))
| EvPQconsumeInput
| EvPQgetResult
| EvResultCb (q : ptr) (cb : cb_id) (res : PGresult) (d : user_data)
| EvPQclear (res : PGresult)
| EvPQcancel
| EvPQfinish
| Ev_uv_poll_init (fd : Z)
| Ev_uv_poll_start
| Ev_uv_poll_stop
| Ev_uv_timer_init
| Ev_uv_timer_start
| Ev_uv_timer_stop
| Ev_uv_close
| EvCloseCb
| EvFreeQuery (q : ptr)
| EvFreeCtx.

#[global] Instance ExecStatusType_eq_dec : EqDecision ExecStatusType.
Proof. solve_decision. Defined.

#[global] Instance PGresult_eq_dec : EqDecision PGresult.
Proof. solve_decision. Defined.

#[global] Instance event_eq_dec : EqDecision event.
Proof. solve_decision. Defined.

(** ** The store and the monad *)

(** [ctx] is [None] once [free(pg)] has run; [heap] holds exactly the
    [pg_query_t] nodes that [pquv_queue] has built and that are not yet
    freed. *)
Record world := {
  ctx : option pg_async;
  heap : gmap ptr pg_query;
  trace : list event
}.

(** A computation either yields a value and a new store, or is undefined
    behaviour of the C program (a dereference of [NULL] or of freed memory,
    a double [free], [uv_poll_stop] or [uv_timer_stop] on a handle that was
    never initialized): [None]. *)
Definition M (A : Type) : Type := world → option (A * world).

Definition ret {A} (a : A) : M A := λ w, Some (a, w).

Definition bind {A B} (m : M A) (k : A → M B) : M B :=
  λ w, match m w with
       | Some (a, w') => k a w'
       | None => None
       end.

Definition undefined {A} : M A := λ _, None.

Declare Scope pquv_scope.
Delimit Scope pquv_scope with pquv.
Notation "'let*' x ':=' m 'in' k" := (bind m (λ x, k))
  (at level 10, x name, m at level 100, k at level 200) : pquv_scope.
Notation "m ';;' k" := (bind m (λ _, k))
  (at level 100, k at level 200, right associativity) : pquv_scope.
Open Scope pquv_scope.

(** [*pg]: reading through the context pointer. *)
Definition get_pg (pg : pg_ref) : M pg_async :=
  λ w, match pg, ctx w with
       | PgCtx, Some c => Some (c, w)
       | _, _ => None
       end.

(** [pg->field = v]: writing through the context pointer. *)
Definition modify_pg (pg : pg_ref) (f : pg_async → pg_async) : M unit :=
  λ w, match pg, ctx w with
       | PgCtx, Some c =>
           Some ((), {| ctx := Some (f c); heap := heap w; trace := trace w |})
       | _, _ => None
       end.

(** [free(pg)]. *)
Definition free_pg (pg : pg_ref) : M unit :=
  λ w, match pg, ctx w with
       | PgCtx, Some _ =>
           Some ((), {| ctx := None; heap := heap w;
                        trace := trace w ++ [EvFreeCtx] |})
       | _, _ => None
       end.

Definition emit (e : event) : M unit :=
  λ w, Some ((), {| ctx := ctx w; heap := heap w; trace := trace w ++ [e] |}).

(** [*q]: reading a query node. *)
Definition load (q : ptr) : M pg_query :=
  λ w, match heap w !! q with
       | Some n => Some (n, w)
       | None => None
       end.

(** [q->field = v]: writing a query node. *)
Definition store (q : ptr) (f : pg_query → pg_query) : M unit :=
  λ w, match heap w !! q with
       | Some n =>
           Some ((), {| ctx := ctx w; heap := <[q := f n]> (heap w);
                        trace := trace w |})
       | None => None
       end.

(** The address a successful [calloc] returns is not in use. *)
Definition fresh (q : ptr) : M unit :=
  λ w, match heap w !! q with
       | Some _ => None
       | None => Some ((), w)
       end.

(** The node at the address [calloc] returned, once its fields are set. *)
Definition alloc_query (q : ptr) (n : pg_query) : M unit :=
  λ w, match heap w !! q with
       | Some _ => None
       | None =>
           Some ((), {| ctx := ctx w; heap := <[q := n]> (heap w);
                        trace := trace w |})
       end.

(** [free(query)], together with the [free] of the strings it owns. *)
Definition free_query (q : ptr) : M unit :=
  λ w, match heap w !! q with
       | Some _ =>
           Some ((), {| ctx := ctx w; heap := delete q (heap w);
                        trace := trace w ++ [EvFreeQuery q] |})
       | None => None
       end.

(** The same on the node [pquv_queue] is still building: the node is not
    linked into the queue yet, so the store of the linked nodes is as
    before. *)
Definition discard_query (q : ptr) : M unit := emit (EvFreeQuery q).

Definition heap_size : M nat := λ w, Some (size (heap w), w).

(** ** What the environment answers

    The answers of libpq, libuv and the allocator during one entry into the
    library.  [results] is the sequence of non-[NULL] values that successive
    calls of [PQgetResult] return before it returns [NULL]. *)
Record driver_env := {
  send_result : Z;
  PQsocket : Z;
  init_result : Z;
  start_result : Z;
  consume_input : Z;
  PQisBusy : Z;
  results : list PGresult;
  PQgetCancel : bool;
  PQerrorMessage : string;
  uv_strerror : Z → string;
  strdup_ok : bool
}.

(** The allocator's answers inside [pquv_queue]: the address [calloc]
    returns for the node ([None] for [NULL]), and whether each later
    allocation succeeds. *)
Record alloc_env := {
  calloc_query : option ptr;
  strdup_sql_ok : bool;
  malloc_params_ok : bool;
  strdup_param_ok : nat → bool
}.

(** [strdup(s)] under a given outcome of the allocation. *)
Definition strdup (ok : bool) (s : string) : option string :=
  if ok then Some s else None.

(** ** libuv calls on the context's handle *)

(** [uv_poll_stop] / [uv_timer_stop].  libuv takes the loop from the
    handle: on a handle that [pquv_create] zero-filled and that no
    [uv_poll_init] / [uv_timer_init] has initialized since, the call
    dereferences [NULL]. *)
Definition uv_stop (plat : platform) (pg : pg_ref) : M unit :=
  let* c := get_pg pg in
  match h_type (handle c) with
  | UV_UNKNOWN_HANDLE => undefined
  | _ =>
      emit (match plat with
            | Posix => Ev_uv_poll_stop
            | Win32 => Ev_uv_timer_stop
            end);;
      modify_pg pg (λ c, set_handle
        {| h_type := h_type (handle c); h_data := h_data (handle c);
           h_active := false; h_closing := h_closing (handle c) |} c)
  end.

(** [uv_poll_init] / [uv_timer_init]: on success the handle is a fresh
    handle of its type; on failure it is left as it was. *)
Definition uv_init (plat : platform) (pg : pg_ref) (fd : Z) (r : Z) : M Z :=
  emit (match plat with Posix => Ev_uv_poll_init fd | Win32 => Ev_uv_timer_init end);;
  (if r =? 0 then
     modify_pg pg (λ c, set_handle
       {| h_type := match plat with Posix => UV_POLL | Win32 => UV_TIMER end;
          h_data := h_data (handle c);
          h_active := false; h_closing := false |} c)
   else ret ());;
  ret r.

Definition uv_start (plat : platform) (pg : pg_ref) (r : Z) : M Z :=
  emit (match plat with Posix => Ev_uv_poll_start | Win32 => Ev_uv_timer_start end);;
  (if r =? 0 then
     modify_pg pg (λ c, set_handle
       {| h_type := h_type (handle c); h_data := h_data (handle c);
          h_active := true; h_closing := h_closing (handle c) |} c)
   else ret ());;
  ret r.

(** [uv_close(handle, on_handle_closed)]: the handle stops and is closing;
    libuv will call [on_handle_closed] later. *)
Definition uv_close (pg : pg_ref) : M unit :=
  emit Ev_uv_close;;
  modify_pg pg (λ c, set_handle
    {| h_type := h_type (handle c); h_data := h_data (handle c);
       h_active := false; h_closing := true |} c).

Definition set_handle_data (pg : pg_ref) (d : pg_ref) : M unit :=
  modify_pg pg (λ c, set_handle
    {| h_type := h_type (handle c); h_data := d;
       h_active := h_active (handle c); h_closing := h_closing (handle c) |} c).

(** ** The functions of [pquv.c] *)

Definition on_handle_closed (h : uv_ref) : M unit :=
  match h with
  | UvNull => undefined
  | UvHandle =>
      emit EvCloseCb;;
      let* c := get_pg PgCtx in
      match h_data (handle c) with
      | PgNull => ret ()
      | pg => free_pg pg
      end
  end.

Definition pquv_create (calloc_ok : bool) (existing_conn : option PGconn)
    (d : user_data) : option pg_async :=
  match existing_conn with
  | None => None
  | Some cn =>
      match PQstatus cn with
      | CONNECTION_OK =>
          if calloc_ok then
            Some {| conn := Some cn; owns_connection := false;
                    is_connected := true; is_executing := false;
                    destroying := false;
                    handle := {| h_type := UV_UNKNOWN_HANDLE; h_data := PgCtx;
                                 h_active := false; h_closing := false |};
                    query_queue := None; query_queue_tail := None;
                    current_query := None; error_message := None;
                    pg_data := d |}
          else None
      | _ => None
      end
  end.

(** The store right after [pquv_create] returned [pg]. *)
Definition world_of (pg : pg_async) : world :=
  {| ctx := Some pg; heap := ∅; trace := [] |}.

(** The loop [for (i = 0; i < param_count; i++)] of [pquv_queue], on an
    array [ps] that has the [n] entries the loop reads. *)
Definition copy_params (a : alloc_env) (n : nat) (ps : list (option string))
    : list (option string) :=
  map (λ i, match nth i ps None with
            | Some s => strdup (strdup_param_ok a i) s
            | None => None
            end) (seq 0 n).

(** [params] is the caller's array with its extent: reading [params[i]]
    past its end is undefined. *)
Definition pquv_queue (a : alloc_env) (pg : pg_ref) (s : option string)
    (n : Z) (ps : option (list (option string)))
    (cb : option cb_id) (query_data : user_data) : M Z :=
  match pg, s with
  | PgCtx, Some s =>
      match calloc_query a with
      | None => ret (-1)
      | Some query =>
          fresh query;;
          match strdup (strdup_sql_ok a) s with
          | None => discard_query query;; ret (-1)
          | Some s' =>
              let* copy :=
                if 0 <? n then
                  match ps with
                  | Some l =>
                      if malloc_params_ok a then
                        if (Z.to_nat n <=? length l)%nat
                        then ret (Some (Some (copy_params a (Z.to_nat n) l)))
                        else undefined
                      else ret None
                  | None => ret (Some None)
                  end
                else ret (Some None) in
              match copy with
              | None => discard_query query;; ret (-1)
              | Some ps' =>
                  alloc_query query
                    {| sql := s'; params := ps'; param_count := n;
                       result_cb := cb; data := query_data; next := None |};;
                  let* c := get_pg pg in
                  match query_queue c with
                  | None =>
                      modify_pg pg (set_query_queue_tail (Some query));;
                      modify_pg pg (set_query_queue (Some query));;
                      ret 0
                  | Some _ =>
                      match query_queue_tail c with
                      | None => undefined
                      | Some t =>
                          store t (set_next (Some query));;
                          modify_pg pg (set_query_queue_tail (Some query));;
                          ret 0
                      end
                  end
              end
          end
      end
  | _, _ => ret (-1)
  end.

Definition cleanup_query (query : option ptr) : M unit :=
  match query with
  | None => ret ()
  | Some q => free_query q
  end.

(** The loop [while (query)] of [pg_async_cancel].  Every iteration frees a
    node, so the number of nodes in the store bounds the iterations. *)
Fixpoint clear_queue (fuel : nat) (query : option ptr) : M unit :=
  match query with
  | None => ret ()
  | Some q =>
      match fuel with
      | O => undefined
      | S fuel' =>
          let* n := load q in
          cleanup_query (Some q);;
          clear_queue fuel' (next n)
      end
  end.

Definition pg_async_cancel (plat : platform) (e : driver_env) (pg : pg_ref)
    : M unit :=
  match pg with
  | PgNull => ret ()
  | PgCtx =>
      let* c := get_pg pg in
      (if is_executing c then
         uv_stop plat pg;;
         (if PQgetCancel e then emit EvPQcancel else ret ());;
         modify_pg pg (set_is_executing false)
       else ret ());;
      let* c := get_pg pg in
      let* sz := heap_size in
      clear_queue sz (query_queue c);;
      modify_pg pg (set_query_queue_tail None);;
      modify_pg pg (set_query_queue None)
  end.

Definition handle_initialized (c : pg_async) : bool :=
  match h_type (handle c) with
  | UV_UNKNOWN_HANDLE => false
  | _ => true
  end.

Definition pg_async_destroy (plat : platform) (e : driver_env) (pg : pg_ref)
    : M unit :=
  match pg with
  | PgNull => ret ()
  | PgCtx =>
      let* c := get_pg pg in
      if destroying c then ret ()
      else
        modify_pg pg (set_destroying true);;
        pg_async_cancel plat e pg;;
        let* c := get_pg pg in
        (match conn c with
         | Some _ =>
             if owns_connection c
             then emit EvPQfinish;; modify_pg pg (set_conn None)
             else ret ()
         | None => ret ()
         end);;
        let* c := get_pg pg in
        let initialized := handle_initialized c in
        (if initialized && negb (h_closing (handle c))
         then uv_close pg else ret ());;
        if initialized then ret () else free_pg pg
  end.

Definition handle_error (plat : platform) (e : driver_env) (pg : pg_ref)
    (error : option string) : M unit :=
  let* c := get_pg pg in
  (if is_executing c then
     uv_stop plat pg;;
     modify_pg pg (set_is_executing false)
   else ret ());;
  modify_pg pg (set_error_message
    (match error with
     | Some s => strdup (strdup_ok e) s
     | None => None
     end));;
  pg_async_cancel plat e pg;;
  pg_async_destroy plat e pg.

Definition execute_next_query (plat : platform) (e : driver_env) (pg : pg_ref)
    : M unit :=
  let* c := get_pg pg in
  match query_queue c with
  | None =>
      modify_pg pg (set_is_executing false);;
      pg_async_destroy plat e pg
  | Some head =>
      modify_pg pg (set_current_query (Some head));;
      let* n := load head in
      modify_pg pg (set_query_queue (next n));;
      let* c := get_pg pg in
      (match query_queue c with
       | None => modify_pg pg (set_query_queue_tail None)
       | Some _ => ret ()
       end);;
      let* c := get_pg pg in
      let* cur := match current_query c with
                  | Some q => load q
                  | None => undefined
                  end in
      (if 0 <? param_count cur
       then emit (EvPQsendQueryParams (sql cur) (param_count cur) (params cur))
       else emit (EvPQsendQuery (sql cur)));;
      if send_result e =? 0 then
        handle_error plat e pg (Some (PQerrorMessage e))
      else
        match plat with
        | Win32 =>
            let* init := uv_init plat pg 0 (init_result e) in
            if negb (init =? 0) then
              handle_error plat e pg (Some (uv_strerror e init))
            else
              set_handle_data pg pg;;
              let* start := uv_start plat pg (start_result e) in
              if negb (start =? 0) then
                handle_error plat e pg (Some (uv_strerror e start))
              else ret ()
        | Posix =>
            let sock := PQsocket e in
            if sock <? 0 then
              handle_error plat e pg (Some "Invalid PostgreSQL socket"%string)
            else
              let* init := uv_init plat pg sock (init_result e) in
              if negb (init =? 0) then
                handle_error plat e pg (Some (uv_strerror e init))
              else
                let* start := uv_start plat pg (start_result e) in
                if negb (start =? 0) then
                  handle_error plat e pg (Some (uv_strerror e start))
                else ret ()
        end
  end.

Definition status_ok (st : ExecStatusType) : bool :=
  match st with
  | PGRES_TUPLES_OK | PGRES_COMMAND_OK => true
  | _ => false
  end.

(** The loop [while ((result = PQgetResult(pg->conn)) != NULL)], shared by
    [on_timer] and [on_poll].  It yields [false] when its body executed the
    [return] statement and [true] when the loop condition ended it. *)
Fixpoint drain_results (plat : platform) (e : driver_env) (pg : pg_ref)
    (rs : list PGresult) : M bool :=
  emit EvPQgetResult;;
  match rs with
  | [] => ret true
  | result :: rs' =>
      let* c := get_pg pg in
      (match current_query c with
       | Some q =>
           let* n := load q in
           match result_cb n with
           | Some cb => emit (EvResultCb q cb result (data n))
           | None => ret ()
           end
       | None => ret ()
       end);;
      if negb (status_ok (PQresultStatus result)) then
        let error_msg := strdup (strdup_ok e) (PQresultErrorMessage result) in
        emit (EvPQclear result);;
        let* c := get_pg pg in
        cleanup_query (current_query c);;
        modify_pg pg (set_current_query None);;
        handle_error plat e pg error_msg;;
        ret false
      else
        emit (EvPQclear result);;
        drain_results plat e pg rs'
  end.

Definition on_timer (e : driver_env) (h : uv_ref) : M unit :=
  match h with
  | UvNull => ret ()
  | UvHandle =>
      let* c := get_pg PgCtx in
      match h_data (handle c) with
      | PgNull => ret ()
      | pg =>
          let* c := get_pg pg in
          if destroying c then ret ()
          else
            emit EvPQconsumeInput;;
            if consume_input e =? 0 then
              uv_stop Win32 pg;;
              handle_error Win32 e pg (Some (PQerrorMessage e))
            else if negb (PQisBusy e =? 0) then ret ()
            else
              uv_stop Win32 pg;;
              let* finished := drain_results Win32 e pg (results e) in
              if finished then
                let* c := get_pg pg in
                cleanup_query (current_query c);;
                modify_pg pg (set_current_query None);;
                execute_next_query Win32 e pg
              else ret ()
      end
  end.

Definition on_poll (e : driver_env) (h : uv_ref) (status : Z) : M unit :=
  match h with
  | UvNull => ret ()
  | UvHandle =>
      let* c := get_pg PgCtx in
      match h_data (handle c) with
      | PgNull => ret ()
      | pg =>
          let* c := get_pg pg in
          if destroying c then ret ()
          else if status <? 0 then
            handle_error Posix e pg (Some (uv_strerror e status))
          else
            emit EvPQconsumeInput;;
            if consume_input e =? 0 then
              handle_error Posix e pg (Some (PQerrorMessage e))
            else if negb (PQisBusy e =? 0) then ret ()
            else
              let* finished := drain_results Posix e pg (results e) in
              if finished then
                uv_stop Posix pg;;
                let* c := get_pg pg in
                cleanup_query (current_query c);;
                modify_pg pg (set_current_query None);;
                execute_next_query Posix e pg
              else ret ()
      end
  end.

Definition pquv_execute (plat : platform) (e : driver_env) (pg : pg_ref)
    : M Z :=
  match pg with
  | PgNull => ret (-1)
  | PgCtx =>
      let* c := get_pg pg in
      if negb (is_connected c) then ret (-1)
      else if is_executing c then ret (-1)
      else
        match query_queue c with
        | None => pg_async_destroy plat e pg;; ret 0
        | Some _ =>
            modify_pg pg (set_is_executing true);;
            execute_next_query plat e pg;;
            ret 0
        end
  end.

(** The callback libuv calls on the platform at hand: [on_poll] with the
    poll status, or [on_timer]. *)
Definition on_ready (plat : platform) (e : driver_env) (h : uv_ref)
    (status : Z) : M unit :=
  match plat with
  | Posix => on_poll e h status
  | Win32 => on_timer e h
  end.

(** ** Runs

    What can happen to a context after [pquv_create]: the user calls
    [pquv_queue] or [pquv_execute], or the libuv loop calls back.  libuv
    calls the readiness (or timer) callback only while the handle is
    started, and [on_handle_closed] only for a handle being closed.  The
    user's result callbacks are opaque: they are logged and do not call back
    into the library. *)
Inductive call :=
| Queue (a : alloc_env) (s : option string) (n : Z)
        (ps : option (list (option string)))
        (cb : option cb_id) (d : user_data)
| Execute (e : driver_env)
| Fire (e : driver_env) (status : Z)
| Closed.

Definition step (plat : platform) (c : call) : M unit :=
  match c with
  | Queue a s n ps cb d => pquv_queue a PgCtx s n ps cb d;; ret ()
  | Execute e => pquv_execute plat e PgCtx;; ret ()
  | Fire e status =>
      let* c := get_pg PgCtx in
      if h_active (handle c) then on_ready plat e UvHandle status
      else undefined
  | Closed =>
      let* c := get_pg PgCtx in
      if h_closing (handle c) then on_handle_closed UvHandle else undefined
  end.

Fixpoint run (plat : platform) (cs : list call) : M unit :=
  match cs with
  | [] => ret ()
  | c :: cs' => step plat c;; run plat cs'
  end.

(** ** Vocabulary of the statements *)

(** The nodes reached from [p] through [next], in order, up to [NULL]. *)
Fixpoint chain (h : gmap ptr pg_query) (p : option ptr) (l : list ptr) : Prop :=
  match l with
  | [] => p = None
  | q :: l' => p = Some q ∧ ∃ n, h !! q = Some n ∧ chain h (next n) l'
  end.

(** The store after the nodes of [l] were freed, first to last. *)
Fixpoint drop_all (l : list ptr) (h : gmap ptr pg_query) : gmap ptr pg_query :=
  match l with
  | [] => h
  | q :: l' => drop_all l' (delete q h)
  end.

(** The queue of context [c] holds the nodes [l], oldest first: the head
    pointer starts the chain, the tail pointer is its last node, and the
    in-flight node, when there is one, is allocated and not in the queue. *)
Definition queue_is (h : gmap ptr pg_query) (c : pg_async) (l : list ptr) : Prop :=
  chain h (query_queue c) l ∧ query_queue_tail c = last l ∧
  (∀ p, current_query c = Some p → (p ∉ l) ∧ is_Some (h !! p)).

(** The call that disarms the handle. *)
Definition stop_event (plat : platform) : event :=
  match plat with Posix => Ev_uv_poll_stop | Win32 => Ev_uv_timer_stop end.

Definition init_event (plat : platform) (fd : Z) : event :=
  match plat with Posix => Ev_uv_poll_init fd | Win32 => Ev_uv_timer_init end.

Definition start_event (plat : platform) : event :=
  match plat with Posix => Ev_uv_poll_start | Win32 => Ev_uv_timer_start end.

Definition stopped (c : pg_async) : pg_async :=
  set_handle {| h_type := h_type (handle c); h_data := h_data (handle c);
                h_active := false; h_closing := h_closing (handle c) |} c.

Definition closing (c : pg_async) : pg_async :=
  set_handle {| h_type := h_type (handle c); h_data := h_data (handle c);
                h_active := false; h_closing := true |} c.

(** The context and the calls made by [pg_async_cancel]. *)
Definition cancelled (c : pg_async) : pg_async :=
  set_query_queue None (set_query_queue_tail None
    (if is_executing c then set_is_executing false (stopped c) else c)).

Definition cancel_events (plat : platform) (e : driver_env) (c : pg_async)
    : list event :=
  if is_executing c
  then stop_event plat :: (if PQgetCancel e then [EvPQcancel] else [])
  else [].

(** The context and the calls made by the [PQfinish] step of
    [pg_async_destroy]. *)
Definition finished (c : pg_async) : pg_async :=
  match conn c with
  | Some _ => if owns_connection c then set_conn None c else c
  | None => c
  end.

Definition finish_events (c : pg_async) : list event :=
  match conn c with
  | Some _ => if owns_connection c then [EvPQfinish] else []
  | None => []
  end.

(** The store [pg_async_destroy] leaves when it is entered with the flag
    [destroying] clear, on a context whose queue holds the nodes [l]. *)
Definition destroyed (plat : platform) (e : driver_env) (c : pg_async)
    (h : gmap ptr pg_query) (t : list event) (l : list ptr) : world :=
  let c1 := finished (cancelled (set_destroying true c)) in
  let t1 := t ++ cancel_events plat e c ++ map EvFreeQuery l ++ finish_events c in
  if handle_initialized c then
    if h_closing (handle c)
    then {| ctx := Some c1; heap := drop_all l h; trace := t1 |}
    else {| ctx := Some (closing c1); heap := drop_all l h;
            trace := t1 ++ [Ev_uv_close] |}
  else {| ctx := None; heap := drop_all l h; trace := t1 ++ [EvFreeCtx] |}.

(** The context [handle_error] hands to [pg_async_destroy]. *)
Definition errored (e : driver_env) (c : pg_async) (error : option string)
    : pg_async :=
  cancelled (set_error_message
    (match error with
     | Some s => strdup (strdup_ok e) s
     | None => None
     end)
    (if is_executing c then set_is_executing false (stopped c) else c)).

Definition failed (plat : platform) (e : driver_env) (c : pg_async)
    (error : option string) (h : gmap ptr pg_query) (t : list event)
    (l : list ptr) : world :=
  let t1 := t ++ (if is_executing c then [stop_event plat] else []) ++
            map EvFreeQuery l in
  if destroying c
  then {| ctx := Some (errored e c error); heap := drop_all l h; trace := t1 |}
  else destroyed plat e (errored e c error) (drop_all l h) t1 [].

(** ** Invariants of a run *)

(** What holds of a live context [c] after any run that started with
    [pquv_create] on connection [cn]: the context does not own the
    connection and still points to it, nothing freed the context or called
    [PQfinish], and the handle is closing only if destruction began and
    [uv_close] was called, which happens only on an initialized handle, as
    does starting the handle.  With [d] set, the flag [destroying] is known
    to be set. *)
Definition ctx_side (cn : PGconn) (d : bool) (c : pg_async) (t : list event)
    : Prop :=
  owns_connection c = false ∧ conn c = Some cn ∧ h_data (handle c) = PgCtx ∧
  (d = true → destroying c = true) ∧
  (EvFreeCtx ∉ t) ∧ (EvPQfinish ∉ t) ∧
  (h_closing (handle c) = true → destroying c = true ∧ Ev_uv_close ∈ t) ∧
  (Ev_uv_close ∈ t → handle_initialized c = true) ∧
  (h_active (handle c) = true → handle_initialized c = true).

(** The calls of [free] on query nodes, in the order in which they happened. *)
Definition is_free (x : event) : bool :=
  match x with EvFreeQuery _ => true | _ => false end.

Definition frees (t : list event) : list event := List.filter is_free t.

(** What holds of the trace once the context is freed: [free(pg)] occurs
    once; if [uv_close] was ever called, the free is the one
    [on_handle_closed] performs; and the only calls after it are those of
    [free] on a node that a failing [pquv_queue] was building. *)
Definition freed_inv (t : list event) : Prop :=
  (EvPQfinish ∉ t) ∧
  ∃ t0 t1, t = t0 ++ EvFreeCtx :: t1 ∧ (EvFreeCtx ∉ t0) ∧
           Forall (λ x, is_free x = true) t1 ∧
           (Ev_uv_close ∈ t0 → ∃ t2, t0 = t2 ++ [EvCloseCb]).

Definition Inv (cn : PGconn) (d : bool) (w : world) : Prop :=
  match ctx w with
  | Some c => (∃ l, queue_is (heap w) c l) ∧ ctx_side cn d c (trace w)
  | None => freed_inv (trace w)
  end.

(** Calls that neither free the context, nor finish the connection, nor
    close the handle. *)
Definition quiet (x : event) : Prop :=
  x ≠ EvFreeCtx ∧ x ≠ EvPQfinish ∧ x ≠ Ev_uv_close.

(** Two contexts that agree on the fields the invariant reads, the second
    with a handle that is started only if the handle of the first is. *)
Definition same_side (c c' : pg_async) : Prop :=
  owns_connection c' = owns_connection c ∧ conn c' = conn c ∧
  h_data (handle c') = h_data (handle c) ∧ destroying c' = destroying c ∧
  h_closing (handle c') = h_closing (handle c) ∧
  h_type (handle c') = h_type (handle c) ∧
  (h_active (handle c') = true → h_active (handle c) = true).

(** A computation is safe in a store when it is defined there and
    re-establishes the invariant. *)
Definition safe {A} (cn : PGconn) (d : bool) (m : M A) (w : world) : Prop :=
  ∃ a w', m w = Some (a, w') ∧ Inv cn d w'.

(** The context after [execute_next_query] popped the head [p], whose node
    is [n]. *)
Definition popped (p : ptr) (n : pg_query) (c : pg_async) : pg_async :=
  let c1 := set_query_queue (next n) (set_current_query (Some p) c) in
  match next n with
  | None => set_query_queue_tail None c1
  | Some _ => c1
  end.

(** The dispatch is refused before the handle is initialized: the driver
    refuses the query, the socket is invalid, or [uv_poll_init] /
    [uv_timer_init] fails. *)
Definition refused_early (plat : platform) (e : driver_env) : bool :=
  (send_result e =? 0) ||
  match plat with
  | Posix => (PQsocket e <? 0) || negb (init_result e =? 0)
  | Win32 => negb (init_result e =? 0)
  end.

(** [pquv_execute] is called for the first dispatch of the context, on a
    handle that was never initialized, and the dispatch is refused
    early. *)
Definition first_refused (plat : platform) (e : driver_env) (c : pg_async)
    : Prop :=
  is_connected c = true ∧ is_executing c = false ∧ is_Some (query_queue c) ∧
  handle_initialized c = false ∧ refused_early plat e = true.

(** The call that hands node [n] to the driver. *)
Definition send_event (n : pg_query) : event :=
  if 0 <? param_count n
  then EvPQsendQueryParams (sql n) (param_count n) (params n)
  else EvPQsendQuery (sql n).

Definition inited (plat : platform) (c : pg_async) : pg_async :=
  set_handle {| h_type := match plat with Posix => UV_POLL | Win32 => UV_TIMER end;
                h_data := h_data (handle c);
                h_active := false; h_closing := false |} c.

Definition started (c : pg_async) : pg_async :=
  set_handle {| h_type := h_type (handle c); h_data := h_data (handle c);
                h_active := true; h_closing := h_closing (handle c) |} c.

Definition with_data (c : pg_async) : pg_async :=
  set_handle {| h_type := h_type (handle c); h_data := PgCtx;
                h_active := h_active (handle c);
                h_closing := h_closing (handle c) |} c.

(** The store [execute_next_query] leaves once it popped node [n]: [c] is
    the context after the pop, and [l] the nodes still queued. *)
Definition dispatched (plat : platform) (e : driver_env) (c : pg_async)
    (n : pg_query) (h : gmap ptr pg_query) (t : list event) (l : list ptr)
    : world :=
  let t1 := t ++ [send_event n] in
  if send_result e =? 0 then
    failed plat e c (Some (PQerrorMessage e)) h t1 l
  else
    match plat with
    | Win32 =>
        let t2 := t1 ++ [Ev_uv_timer_init] in
        if negb (init_result e =? 0) then
          failed plat e c (Some (uv_strerror e (init_result e))) h t2 l
        else
          let c2 := with_data (inited plat c) in
          let t3 := t2 ++ [Ev_uv_timer_start] in
          if negb (start_result e =? 0) then
            failed plat e c2 (Some (uv_strerror e (start_result e))) h t3 l
          else {| ctx := Some (started c2); heap := h; trace := t3 |}
    | Posix =>
        if PQsocket e <? 0 then
          failed plat e c (Some "Invalid PostgreSQL socket"%string) h t1 l
        else
          let t2 := t1 ++ [Ev_uv_poll_init (PQsocket e)] in
          if negb (init_result e =? 0) then
            failed plat e c (Some (uv_strerror e (init_result e))) h t2 l
          else
            let c2 := inited plat c in
            let t3 := t2 ++ [Ev_uv_poll_start] in
            if negb (start_result e =? 0) then
              failed plat e c2 (Some (uv_strerror e (start_result e))) h t3 l
            else {| ctx := Some (started c2); heap := h; trace := t3 |}
    end.

(** The call of the user's callback for result [r], if the in-flight node
    has one. *)
Definition cb_events (c : pg_async) (h : gmap ptr pg_query) (r : PGresult)
    : list event :=
  match current_query c with
  | Some q =>
      match h !! q with
      | Some n =>
          match result_cb n with
          | Some cb => [EvResultCb q cb r (data n)]
          | None => []
          end
      | None => []
      end
  | None => []
  end.

(** The calls of the drain loop for the results [rs], all of them with a
    success status. *)
Definition delivered (c : pg_async) (h : gmap ptr pg_query)
    (rs : list PGresult) : list event :=
  flat_map (λ r, EvPQgetResult :: cb_events c h r ++ [EvPQclear r]) rs.

Definition all_ok (rs : list PGresult) : bool :=
  forallb (λ r, status_ok (PQresultStatus r)) rs.

(** [cleanup_query(pg->current_query)]: the store and the calls. *)
Definition released (c : pg_async) (h : gmap ptr pg_query) : gmap ptr pg_query :=
  match current_query c with
  | Some p => delete p h
  | None => h
  end.

Definition release_events (c : pg_async) : list event :=
  match current_query c with
  | Some p => [EvFreeQuery p]
  | None => []
  end.

(** The store the drain loop leaves when, after the results [good], the
    result [bad] has a failure status. *)
Definition drain_failed (plat : platform) (e : driver_env) (c : pg_async)
    (h : gmap ptr pg_query) (t : list event) (l : list ptr)
    (good : list PGresult) (bad : PGresult) : world :=
  failed plat e (set_current_query None c)
    (strdup (strdup_ok e) (PQresultErrorMessage bad))
    (released c h)
    (t ++ delivered c h good ++
       EvPQgetResult :: cb_events c h bad ++ [EvPQclear bad] ++
       release_events c)
    l.

(** The store in which the readiness (or timer) callback calls
    [execute_next_query], after it drained the results [rs], all with a
    success status, and freed the in-flight node. *)
Definition drained_trace (plat : platform) (c : pg_async)
    (h : gmap ptr pg_query) (t : list event) (rs : list PGresult)
    : list event :=
  match plat with
  | Posix =>
      t ++ [EvPQconsumeInput] ++ delivered c h rs ++
        [EvPQgetResult; Ev_uv_poll_stop] ++ release_events c
  | Win32 =>
      t ++ [EvPQconsumeInput; Ev_uv_timer_stop] ++ delivered c h rs ++
        [EvPQgetResult] ++ release_events c
  end.

Definition drained (plat : platform) (c : pg_async) (h : gmap ptr pg_query)
    (t : list event) (rs : list PGresult) : world :=
  {| ctx := Some (set_current_query None (stopped c));
     heap := released c h;
     trace := drained_trace plat c h t rs |}.

(** The node [pquv_queue] builds, and the context and the store it leaves
    when it returns 0 with the node at address [q]. *)
Definition new_node (a : alloc_env) (s : string) (n : Z)
    (ps : option (list (option string))) (cb : option cb_id)
    (d : user_data) : pg_query :=
  {| sql := s;
     params := if 0 <? n
               then match ps with
                    | Some l => Some (copy_params a (Z.to_nat n) l)
                    | None => None
                    end
               else None;
     param_count := n; result_cb := cb; data := d; next := None |}.

Definition enqueued_ctx (q : ptr) (c : pg_async) : pg_async :=
  match query_queue c with
  | None => set_query_queue (Some q) (set_query_queue_tail (Some q) c)
  | Some _ => set_query_queue_tail (Some q) c
  end.

Definition enqueued_heap (q : ptr) (node : pg_query) (c : pg_async)
    (h : gmap ptr pg_query) : gmap ptr pg_query :=
  match query_queue c, query_queue_tail c with
  | Some _, Some tl =>
      match h !! tl with
      | Some ntl => <[tl := set_next (Some q) ntl]> (<[q := node]> h)
      | None => <[q := node]> h
      end
  | _, _ => <[q := node]> h
  end.

(** ** Projections of a trace *)

Definition is_callback (x : event) : bool :=
  match x with EvResultCb _ _ _ _ => true | _ => false end.

Definition is_send (x : event) : bool :=
  match x with
  | EvPQsendQuery _ | EvPQsendQueryParams _ _ _ => true
  | _ => false
  end.

Definition is_init (x : event) : bool :=
  match x with Ev_uv_poll_init _ | Ev_uv_timer_init => true | _ => false end.

(** The calls of user callbacks, and the queries handed to the driver, in
    the order in which they happened. *)
Definition callbacks (t : list event) : list event := List.filter is_callback t.
Definition sends (t : list event) : list event := List.filter is_send t.
Definition inits (t : list event) : list event := List.filter is_init t.

(** ** Batches

    One operation of a batch: what the user passes to [pquv_queue], what the
    allocator answers there, and what libuv and the driver do while the
    operation is in flight: wake-ups on which the driver is still busy, then
    the wake-up on which its results are there. *)
Record operation := {
  op_addr : ptr;
  op_strdup : nat → bool;
  op_sql : string;
  op_params : list (option string);
  op_cb : option cb_id;
  op_data : user_data;
  op_busy : list (driver_env * Z);
  op_done : driver_env * Z
}.

Definition op_alloc (o : operation) : alloc_env :=
  {| calloc_query := Some (op_addr o); strdup_sql_ok := true;
     malloc_params_ok := true; strdup_param_ok := op_strdup o |}.

Definition op_count (o : operation) : Z := Z.of_nat (length (op_params o)).

Definition queue_call (o : operation) : call :=
  Queue (op_alloc o) (Some (op_sql o)) (op_count o) (Some (op_params o))
    (op_cb o) (op_data o).

Definition fire (x : driver_env * Z) : call := Fire (fst x) (snd x).

Definition wake_calls (o : operation) : list call :=
  map fire (op_busy o) ++ [fire (op_done o)].

(** All operations are queued, [pquv_execute] is called, and the loop runs
    until the last operation is answered. *)
Definition batch (e0 : driver_env) (ops : list operation) : list call :=
  map queue_call ops ++ Execute e0 :: flat_map wake_calls ops.

Definition op_results (o : operation) : list PGresult :=
  results (fst (op_done o)).

(** The driver and libuv accept a dispatch. *)
Definition sends_ok (e : driver_env) : Prop :=
  send_result e ≠ 0 ∧ 0 ≤ PQsocket e ∧ init_result e = 0 ∧ start_result e = 0.

Definition still_busy (x : driver_env * Z) : Prop :=
  0 ≤ snd x ∧ consume_input (fst x) ≠ 0 ∧ PQisBusy (fst x) ≠ 0.

Definition ready (x : driver_env * Z) : Prop :=
  0 ≤ snd x ∧ consume_input (fst x) ≠ 0 ∧ PQisBusy (fst x) = 0.

(** Every answer of the driver for the operation is a success. *)
Definition op_succeeds (o : operation) : Prop :=
  Forall still_busy (op_busy o) ∧ ready (op_done o) ∧
  all_ok (op_results o) = true ∧ sends_ok (fst (op_done o)).

(** The callback calls the operation is due: one per result, in order. *)
Definition op_callbacks (o : operation) (rs : list PGresult) : list event :=
  match op_cb o with
  | Some cb => map (λ r, EvResultCb (op_addr o) cb r (op_data o)) rs
  | None => []
  end.

(** The node [pquv_queue] builds for the operation, and the call that
    hands it to the driver. *)
Definition op_node (o : operation) : pg_query :=
  new_node (op_alloc o) (op_sql o) (op_count o) (Some (op_params o))
    (op_cb o) (op_data o).

Definition op_send (o : operation) : event := send_event (op_node o).

(** The parameter values stored for the operation. *)
Definition op_handed (o : operation) : list (option string) :=
  copy_params (op_alloc o) (length (op_params o)) (op_params o).

(** [n] is the node of the operation, up to its [next] field. *)
Definition node_of (o : operation) (n : pg_query) : Prop :=
  set_next None n = op_node o.

(** The calls of the drain loop for the operation's results [rs], all with
    a success status, and of the whole wake-up that completes it. *)
Definition op_delivered (o : operation) (rs : list PGresult) : list event :=
  flat_map (λ r, EvPQgetResult :: op_callbacks o [r] ++ [EvPQclear r]) rs.

Definition op_drain (plat : platform) (o : operation) (rs : list PGresult)
    : list event :=
  match plat with
  | Posix =>
      [EvPQconsumeInput] ++ op_delivered o rs ++
        [EvPQgetResult; Ev_uv_poll_stop; EvFreeQuery (op_addr o)]
  | Win32 =>
      [EvPQconsumeInput; Ev_uv_timer_stop] ++ op_delivered o rs ++
        [EvPQgetResult; EvFreeQuery (op_addr o)]
  end.

(** The calls of a dispatch that succeeds. *)
Definition op_dispatch (plat : platform) (e : driver_env) (o : operation)
    : list event :=
  [op_send o; init_event plat (PQsocket e); start_event plat].

(** The calls of the wake-up on which the operation's result [bad], after
    the results [good], has a failure status, with [rest] still queued. *)
Definition op_abort (plat : platform) (o : operation) (good : list PGresult)
    (bad : PGresult) (rest : list ptr) : list event :=
  match plat with
  | Posix =>
      [EvPQconsumeInput] ++ op_delivered o good ++
        EvPQgetResult :: op_callbacks o [bad] ++
        [EvPQclear bad; EvFreeQuery (op_addr o); Ev_uv_poll_stop] ++
        map EvFreeQuery rest ++ [Ev_uv_close]
  | Win32 =>
      [EvPQconsumeInput; Ev_uv_timer_stop] ++ op_delivered o good ++
        EvPQgetResult :: op_callbacks o [bad] ++
        [EvPQclear bad; EvFreeQuery (op_addr o); Ev_uv_timer_stop] ++
        map EvFreeQuery rest ++ [Ev_uv_close]
  end.

Definition holds (h : gmap ptr pg_query) (ops : list operation) : Prop :=
  Forall (λ o, ∃ n, h !! op_addr o = Some n ∧ node_of o n) ops.

(** The context while an operation is in flight. *)
Definition running_ctx (plat : platform) (cn : PGconn) (ud : user_data)
    (p : ptr) (qq tl : option ptr) : pg_async :=
  {| conn := Some cn; owns_connection := false; is_connected := true;
     is_executing := true; destroying := false;
     handle := {| h_type := match plat with
                            | Posix => UV_POLL
                            | Win32 => UV_TIMER
                            end;
                  h_data := PgCtx; h_active := true; h_closing := false |};
     query_queue := qq; query_queue_tail := tl; current_query := Some p;
     error_message := None; pg_data := ud |}.

(** Operation [o] is in flight and the operations [rest] are queued behind
    it, in this order. *)
Definition Running (plat : platform) (cn : PGconn) (ud : user_data)
    (o : operation) (rest : list operation) (w : world) : Prop :=
  ∃ qq,
    ctx w = Some (running_ctx plat cn ud (op_addr o) qq
                    (last (map op_addr rest))) ∧
    chain (heap w) qq (map op_addr rest) ∧
    (op_addr o ∉ map op_addr rest) ∧
    holds (heap w) (o :: rest).

(** The context before [pquv_execute], with operations queued. *)
Definition idle_ctx (cn : PGconn) (ud : user_data) (qq tl : option ptr)
    : pg_async :=
  {| conn := Some cn; owns_connection := false; is_connected := true;
     is_executing := false; destroying := false;
     handle := {| h_type := UV_UNKNOWN_HANDLE; h_data := PgCtx;
                  h_active := false; h_closing := false |};
     query_queue := qq; query_queue_tail := tl; current_query := None;
     error_message := None; pg_data := ud |}.

Definition Idle (cn : PGconn) (ud : user_data) (ops : list operation)
    (w : world) : Prop :=
  ∃ qq,
    ctx w = Some (idle_ctx cn ud qq (last (map op_addr ops))) ∧
    chain (heap w) qq (map op_addr ops) ∧
    holds (heap w) ops ∧
    (∀ q, is_Some (heap w !! q) → q ∈ map op_addr ops).

(** A context on which [execute_next_query] is called during a batch in
    which nothing failed so far. *)
Definition dispatchable (cn : PGconn) (ud : user_data) (c : pg_async) : Prop :=
  conn c = Some cn ∧ owns_connection c = false ∧ is_connected c = true ∧
  is_executing c = true ∧ destroying c = false ∧
  h_data (handle c) = PgCtx ∧ error_message c = None ∧ pg_data c = ud.

(** The calls while operation [o] is in flight and nothing fails, up to the
    dispatch of the operation behind it, or to [uv_close] if there is none;
    then the same for the operations [rest] queued behind it. *)
Fixpoint run_trace (plat : platform) (o : operation) (rest : list operation)
    : list event :=
  map (λ _, EvPQconsumeInput) (op_busy o) ++
  op_drain plat o (op_results o) ++
  match rest with
  | [] => [Ev_uv_close]
  | o' :: rest' =>
      op_dispatch plat (fst (op_done o)) o' ++ run_trace plat o' rest'
  end.

(** The same for the operations [o :: pre], which all succeed, up to the
    dispatch of operation [k]. *)
Fixpoint prefix_trace (plat : platform) (o : operation)
    (pre : list operation) (k : operation) : list event :=
  map (λ _, EvPQconsumeInput) (op_busy o) ++
  op_drain plat o (op_results o) ++
  match pre with
  | [] => op_dispatch plat (fst (op_done o)) k
  | o' :: pre' =>
      op_dispatch plat (fst (op_done o)) o' ++ prefix_trace plat o' pre' k
  end.

(** The trace of a whole batch in which nothing fails. *)
Definition batch_trace (plat : platform) (e0 : driver_env)
    (ops : list operation) : list event :=
  match ops with
  | [] => [EvFreeCtx]
  | o :: rest => op_dispatch plat e0 o ++ run_trace plat o rest
  end.

(** ** A sample batch, for the examples *)

Definition sample_conn : PGconn := {| conn_id := 1; PQstatus := CONNECTION_OK |}.

Definition sample_result (i : nat) (st : ExecStatusType) : PGresult :=
  {| res_id := i; PQresultStatus := st; PQresultErrorMessage := "boom" |}.

(** Answers of a driver and a loop that accept everything. *)
Definition sample_env (busy : Z) (rs : list PGresult) : driver_env :=
  {| send_result := 1; PQsocket := 5; init_result := 0; start_result := 0;
     consume_input := 1; PQisBusy := busy; results := rs;
     PQgetCancel := true; PQerrorMessage := "driver error";
     uv_strerror := λ _, "loop error"%string; strdup_ok := true |}.

(** The same driver refusing the query. *)
Definition sample_env_send_fails : driver_env :=
  {| send_result := 0; PQsocket := 5; init_result := 0; start_result := 0;
     consume_input := 1; PQisBusy := 0; results := [];
     PQgetCancel := true; PQerrorMessage := "driver error";
     uv_strerror := λ _, "loop error"%string; strdup_ok := true |}.

Definition sample_op1 : operation :=
  {| op_addr := 10%nat; op_strdup := λ _, true; op_sql := "SELECT 1";
     op_params := []; op_cb := Some 1%nat; op_data := 100;
     op_busy := [(sample_env 1 [], 0)];
     op_done := (sample_env 0 [sample_result 1 PGRES_TUPLES_OK], 0) |}.

Definition sample_op2 : operation :=
  {| op_addr := 11%nat; op_strdup := λ _, true; op_sql := "SELECT $1, $2";
     op_params := [Some "a"%string; None]; op_cb := Some 2%nat; op_data := 200;
     op_busy := [];
     op_done := (sample_env 0 [sample_result 2 PGRES_TUPLES_OK;
                               sample_result 3 PGRES_COMMAND_OK], 0) |}.

(** [sample_op1] answered with a failure status, followed by one more
    result. *)
Definition sample_op1_failing : operation :=
  {| op_addr := 10%nat; op_strdup := λ _, true; op_sql := "SELECT 1";
     op_params := []; op_cb := Some 1%nat; op_data := 100;
     op_busy := [(sample_env 1 [], 0)];
     op_done := (sample_env 0 [sample_result 1 PGRES_FATAL_ERROR;
                               sample_result 4 PGRES_TUPLES_OK], 0) |}.

Definition sample_ops : list operation := [sample_op1; sample_op2].

(** The context [pquv_create] returns for [sample_conn]. *)
Definition sample_pg : pg_async := idle_ctx sample_conn 7 None None.

(** The whole sample batch followed by the completion of [uv_close], and
    the store it ends in. *)
Definition sample_calls : list call :=
  batch (sample_env 0 []) sample_ops ++ [Closed].

Definition final_world (plat : platform) (cs : list call) : world :=
  match run plat cs (world_of sample_pg) with
  | Some (_, w) => w
  | None => world_of sample_pg
  end.

(** The sample batch alone, the store it ends in and the context there:
    destruction has begun and the completion of [uv_close] is pending. *)
Definition sample_batch : list call := batch (sample_env 0 []) sample_ops.

Definition context_of (w : world) : pg_async :=
  match ctx w with
  | Some c => c
  | None => sample_pg
  end.

(** One operation queued and dispatched: the context is executing. *)
Definition sample_started : list call :=
  [queue_call sample_op1; Execute (sample_env 0 [])].

(** Two operations queued, and a driver that refuses the first query. *)
Definition sample_refused : list call :=
  [queue_call sample_op1; queue_call sample_op2;
   Execute sample_env_send_fails].

(** One operation queued, dispatched and answered with one result. *)
Definition sample_answered : list call :=
  sample_started ++ [fire (op_done sample_op1)].

(** A context that is executing, and the store with one queued node. *)
Definition sample_busy_ctx : pg_async :=
  running_ctx Posix sample_conn 7 10%nat None None.

Definition sample_queued_ctx : pg_async :=
  idle_ctx sample_conn 7 (Some 10%nat) (Some 10%nat).

Definition sample_heap : gmap ptr pg_query :=
  {[ 10%nat := op_node sample_op1 ]}.

(** A batch in which the operations [passed] were answered and operation
    [k] is being answered: all of [ops] are queued, but libuv wakes the
    library up only for [passed] and [k]. *)
Definition batch_to (e0 : driver_env) (ops passed : list operation)
    (k : operation) : list call :=
  map queue_call ops ++ Execute e0 :: flat_map wake_calls passed ++
    wake_calls k.

(** The calls of libuv, as opposed to those of the user. *)
Definition is_reactor (c : call) : Prop :=
  match c with
  | Fire _ _ | Closed => True
  | _ => False
  end.

(** The context once the error funnel ran on a context whose handle was
    initialized: destruction began, nothing is queued or in flight, and the
    handle is disarmed and closing. *)
Definition shut_down (c : pg_async) : Prop :=
  destroying c = true ∧ is_executing c = false ∧ query_queue c = None ∧
  query_queue_tail c = None ∧ current_query c = None ∧
  h_active (handle c) = false ∧ h_closing (handle c) = true ∧
  h_data (handle c) = PgCtx.

(** An operation queued ahead of the others. *)
Definition sample_op0 : operation :=
  {| op_addr := 9%nat; op_strdup := λ _, true; op_sql := "BEGIN";
     op_params := []; op_cb := None; op_data := 0;
     op_busy := [];
     op_done := (sample_env 0 [sample_result 0 PGRES_COMMAND_OK], 0) |}.

(** ** Vocabulary of the further properties *)

(** A call that can happen in a store: the context is still allocated;
    [calloc] hands out an address that is not in use and the caller's array
    has the entries [pquv_queue] reads; libuv calls the readiness (or timer)
    callback of a started handle only, and the close callback of a closing
    handle only. *)
Definition enabled (c : call) (w : world) : Prop :=
  match ctx w with
  | None => False
  | Some cx =>
      match c with
      | Queue a s n ps cb d =>
          (∀ q, calloc_query a = Some q → heap w !! q = None) ∧
          (0 < n → ∀ l, ps = Some l → (Z.to_nat n ≤ length l)%nat)
      | Execute e => True
      | Fire e status => h_active (handle cx) = true
      | Closed => h_closing (handle cx) = true
      end
  end.

(** Two more samples: two operations queued and the first one
    dispatched. *)
Definition sample_two_started : list call :=
  [queue_call sample_op1; queue_call sample_op2; Execute (sample_env 0 [])].

(** A driver whose [PQconsumeInput] fails. *)
Definition sample_env_consume_fails : driver_env :=
  {| send_result := 1; PQsocket := 5; init_result := 0; start_result := 0;
     consume_input := 0; PQisBusy := 0; results := [];
     PQgetCancel := true; PQerrorMessage := "driver error";
     uv_strerror := λ _, "loop error"%string; strdup_ok := true |}.

(** A relation between the store a computation starts from and the store
    it leaves, kept by the computation whenever it is defined. *)
Definition keeps {A} (R : world → world → Prop) (m : M A) : Prop :=
  ∀ w a w', m w = Some (a, w') → R w w'.

(** Accounting of the query nodes: the calls [t] were added; [free] was
    called on allocated nodes only, and on none of them twice; and the nodes
    allocated afterwards are those allocated before, with what they carried,
    without those that [free] was called on. *)
Definition accounted (w w' : world) : Prop :=
  ∃ t, trace w' = trace w ++ t ∧
       NoDup (frees t) ∧
       (∀ q, EvFreeQuery q ∈ t → is_Some (heap w !! q)) ∧
       ∀ q, heap w' !! q =
            if decide (EvFreeQuery q ∈ t) then None else heap w !! q.

(** The context, if it is still there, was there before, connected as it is
    now and with the same user data. *)
Definition same_owner (w w' : world) : Prop :=
  ∀ c', ctx w' = Some c' →
        ∃ c, ctx w = Some c ∧ is_connected c' = is_connected c ∧
             pg_data c' = pg_data c.

(** The calls of [pquv_queue]. *)
Definition is_queue (c : call) : Prop :=
  match c with
  | Queue _ _ _ _ _ _ => True
  | _ => False
  end.

(** The calls added do not include [PQcancel]. *)
Definition cancel_free (w w' : world) : Prop :=
  ∃ t, trace w' = trace w ++ t ∧ (EvPQcancel ∉ t).

(** The context, if there is one, is not executing. *)
Definition idle_now (w : world) : Prop :=
  ∀ c, ctx w = Some c → is_executing c = false.

(** No [PQcancel] is added, and a context that was not executing is not
    executing afterwards. *)
Definition stays_idle (w w' : world) : Prop :=
  cancel_free w w' ∧ (idle_now w → idle_now w').

(** The handle is armed exactly while the context is executing, and an
    executing context has an operation in flight. *)
Definition armed_ok (c : pg_async) : Prop :=
  h_active (handle c) = is_executing c ∧
  (is_executing c = true → is_Some (current_query c)).

Definition armed (w : world) : Prop := ∀ c, ctx w = Some c → armed_ok c.

(** ** More samples *)

(** Two operations queued, and nothing executed yet. *)
Definition sample_two_queued : list call :=
  [queue_call sample_op1; queue_call sample_op2].

(** The store in which [execute_next_query] calls [handle_error] during
    [sample_refused]: the first operation is popped off the queue and was
    handed to the driver, the context is executing, and the handle is as
    [pquv_create] left it. *)
Definition sample_refused_store : world :=
  {| ctx := Some (popped 10%nat (set_next (Some 11%nat) (op_node sample_op1))
                    (set_is_executing true
                       (idle_ctx sample_conn 7 (Some 10%nat) (Some 11%nat))));
     heap := {[ 10%nat := set_next (Some 11%nat) (op_node sample_op1);
                11%nat := op_node sample_op2 ]};
     trace := [EvPQsendQuery "SELECT 1"] |}.

(** A driver that answers the operation in flight with one result and
    refuses the next query. *)
Definition sample_env_late_refusal : driver_env :=
  {| send_result := 0; PQsocket := 5; init_result := 0; start_result := 0;
     consume_input := 1; PQisBusy := 0;
     results := [sample_result 1 PGRES_TUPLES_OK];
     PQgetCancel := true; PQerrorMessage := "driver error";
     uv_strerror := λ _, "loop error"%string; strdup_ok := true |}.

(** Two operations queued and the first dispatched; the wake-up that
    answers the first operation dispatches the second, which the driver
    refuses; then libuv completes the close of the handle. *)
Definition sample_late_refusal : list call :=
  [queue_call sample_op1; queue_call sample_op2; Execute (sample_env 0 []);
   Fire sample_env_late_refusal 0; Closed].

(** A driver and a loop that accept the query and the handle, and refuse to
    start the handle. *)
Definition sample_env_start_fails : driver_env :=
  {| send_result := 1; PQsocket := 5; init_result := 0; start_result := -22;
     consume_input := 1; PQisBusy := 0; results := [];
     PQgetCancel := true; PQerrorMessage := "driver error";
     uv_strerror := λ _, "loop error"%string; strdup_ok := true |}.

(** An operation with two parameters, queued while [strdup] fails for the
    parameter values. *)
Definition sample_op_lossy : operation :=
  {| op_addr := 10%nat; op_strdup := λ _, false; op_sql := "SELECT $1, $2";
     op_params := [Some "a"%string; None]; op_cb := Some 2%nat; op_data := 200;
     op_busy := [];
     op_done := (sample_env 0 [sample_result 2 PGRES_TUPLES_OK], 0) |}.

Definition sample_lossy : list call :=
  [queue_call sample_op_lossy; Execute (sample_env 0 [])].

(** Every call of the sequence can happen when it is made, and
    [pquv_execute] is called only on a context whose destruction has not
    begun, and not for a first dispatch that is refused early. *)
Fixpoint admissible (plat : platform) (cs : list call) (w : world) : Prop :=
  match cs with
  | [] => True
  | c :: cs' =>
      enabled c w ∧
      (∀ e cx, c = Execute e → ctx w = Some cx →
               destroying cx = false ∧ ¬ first_refused plat e cx) ∧
      ∀ w', step plat c w = Some ((), w') → admissible plat cs' w'
  end.

(** * Proofs *)

(** ** The monad *)

Lemma bind_inv {A B} (m : M A) (k : A → M B) w b w' :
  bind m k w = Some (b, w') →
  ∃ a w1, m w = Some (a, w1) ∧ k a w1 = Some (b, w').
Proof.
  unfold bind. destruct (m w) as [[a w1]|]; [|discriminate]. eauto.
Qed.

Lemma ret_inv {A} (a b : A) w w' : ret a w = Some (b, w') → b = a ∧ w' = w.
Proof. unfold ret. intros [= -> ->]. auto. Qed.

Lemma get_pg_inv pg w c w' :
  get_pg pg w = Some (c, w') → pg = PgCtx ∧ ctx w = Some c ∧ w' = w.
Proof.
  unfold get_pg. destruct pg; [discriminate|].
  destruct (ctx w); [|discriminate]. intros [= -> ->]. auto.
Qed.

Lemma modify_pg_inv pg f w u w' :
  modify_pg pg f w = Some (u, w') →
  ∃ c, pg = PgCtx ∧ ctx w = Some c ∧
       w' = {| ctx := Some (f c); heap := heap w; trace := trace w |}.
Proof.
  unfold modify_pg. destruct pg; [discriminate|].
  destruct (ctx w) as [c|]; [|discriminate]. intros [= <- <-]. eauto.
Qed.

Lemma free_pg_inv pg w u w' :
  free_pg pg w = Some (u, w') →
  ∃ c, pg = PgCtx ∧ ctx w = Some c ∧
       w' = {| ctx := None; heap := heap w; trace := trace w ++ [EvFreeCtx] |}.
Proof.
  unfold free_pg. destruct pg; [discriminate|].
  destruct (ctx w) as [c|]; [|discriminate]. intros [= <- <-]. eauto.
Qed.

Lemma emit_inv e w u w' :
  emit e w = Some (u, w') →
  w' = {| ctx := ctx w; heap := heap w; trace := trace w ++ [e] |}.
Proof. unfold emit. intros [= <- <-]. reflexivity. Qed.

Lemma load_inv q w n w' :
  load q w = Some (n, w') → heap w !! q = Some n ∧ w' = w.
Proof.
  unfold load. destruct (heap w !! q); [|discriminate]. intros [= -> ->]. auto.
Qed.

Lemma store_inv q f w u w' :
  store q f w = Some (u, w') →
  ∃ n, heap w !! q = Some n ∧
       w' = {| ctx := ctx w; heap := <[q := f n]> (heap w); trace := trace w |}.
Proof.
  unfold store. destruct (heap w !! q) as [n|]; [|discriminate].
  intros [= <- <-]. eauto.
Qed.

Lemma alloc_query_inv q n w u w' :
  alloc_query q n w = Some (u, w') →
  heap w !! q = None ∧
  w' = {| ctx := ctx w; heap := <[q := n]> (heap w); trace := trace w |}.
Proof.
  unfold alloc_query. destruct (heap w !! q); [discriminate|].
  intros [= <- <-]. auto.
Qed.

Lemma fresh_inv q w u w' :
  fresh q w = Some (u, w') → heap w !! q = None ∧ w' = w.
Proof.
  unfold fresh. destruct (heap w !! q); [discriminate|]. intros [= <- <-]. auto.
Qed.

Lemma free_query_inv q w u w' :
  free_query q w = Some (u, w') →
  is_Some (heap w !! q) ∧
  w' = {| ctx := ctx w; heap := delete q (heap w);
          trace := trace w ++ [EvFreeQuery q] |}.
Proof.
  unfold free_query. destruct (heap w !! q); [|discriminate].
  intros [= <- <-]. eauto.
Qed.

Lemma heap_size_inv w n w' :
  heap_size w = Some (n, w') → n = size (heap w) ∧ w' = w.
Proof. unfold heap_size. intros [= <- <-]. auto. Qed.

(** Inversion of a defined computation, one construct at a time. *)
Ltac minv1 :=
  match goal with
  | H : bind _ _ _ = Some _ |- _ =>
      let a := fresh "a" in let w := fresh "w" in let H1 := fresh "H" in
      apply bind_inv in H; destruct H as (a & w & H1 & H)
  | H : ret _ _ = Some _ |- _ => apply ret_inv in H; destruct H; subst
  | H : undefined _ = Some _ |- _ => discriminate H
  | H : get_pg _ _ = Some _ |- _ =>
      apply get_pg_inv in H; destruct H as (? & ? & ?); subst
  | H : modify_pg _ _ _ = Some _ |- _ =>
      apply modify_pg_inv in H; destruct H as (? & ? & ? & ?); subst
  | H : free_pg _ _ = Some _ |- _ =>
      apply free_pg_inv in H; destruct H as (? & ? & ? & ?); subst
  | H : emit _ _ = Some _ |- _ => apply emit_inv in H; subst
  | H : load _ _ = Some _ |- _ => apply load_inv in H; destruct H; subst
  | H : store _ _ _ = Some _ |- _ =>
      apply store_inv in H; destruct H as (? & ? & ?); subst
  | H : alloc_query _ _ _ = Some _ |- _ =>
      apply alloc_query_inv in H; destruct H; subst
  | H : fresh _ _ = Some _ |- _ =>
      apply fresh_inv in H; destruct H; subst
  | H : free_query _ _ = Some _ |- _ =>
      apply free_query_inv in H; destruct H; subst
  | H : heap_size _ = Some _ |- _ =>
      apply heap_size_inv in H; destruct H; subst
  | H : (if ?b then _ else _) _ = Some _ |- _ => destruct b eqn:?
  | H : (match ?x with _ => _ end) _ = Some _ |- _ => destruct x eqn:?
  end.

Ltac minv := repeat (minv1; simpl in *).

(** Forward execution on an explicit store, one construct at a time. *)
Lemma bind_call {A B} (m : M A) (k : A → M B) w a w1 :
  m w = Some (a, w1) → bind m k w = k a w1.
Proof. unfold bind. intros ->. reflexivity. Qed.

Lemma bind_assoc {A B C} (m : M A) (k1 : A → M B) (k2 : B → M C) w :
  bind (bind m k1) k2 w = bind m (λ x, bind (k1 x) k2) w.
Proof. unfold bind. by destruct (m w) as [[a w1]|]. Qed.

Lemma bind_ret {A B} (a : A) (k : A → M B) w : bind (ret a) k w = k a w.
Proof. reflexivity. Qed.

Lemma bind_get_pg {B} (k : pg_async → M B) c h t :
  bind (get_pg PgCtx) k {| ctx := Some c; heap := h; trace := t |} =
  k c {| ctx := Some c; heap := h; trace := t |}.
Proof. reflexivity. Qed.

Lemma bind_modify_pg {B} f (k : unit → M B) c h t :
  bind (modify_pg PgCtx f) k {| ctx := Some c; heap := h; trace := t |} =
  k () {| ctx := Some (f c); heap := h; trace := t |}.
Proof. reflexivity. Qed.

Lemma bind_emit {B} ev (k : unit → M B) c h t :
  bind (emit ev) k {| ctx := c; heap := h; trace := t |} =
  k () {| ctx := c; heap := h; trace := t ++ [ev] |}.
Proof. reflexivity. Qed.

Lemma bind_free_pg {B} (k : unit → M B) c h t :
  bind (free_pg PgCtx) k {| ctx := Some c; heap := h; trace := t |} =
  k () {| ctx := None; heap := h; trace := t ++ [EvFreeCtx] |}.
Proof. reflexivity. Qed.

Lemma bind_load {B} q n (k : pg_query → M B) c h t :
  h !! q = Some n →
  bind (load q) k {| ctx := c; heap := h; trace := t |} =
  k n {| ctx := c; heap := h; trace := t |}.
Proof. intros Hn. unfold bind, load. simpl. by rewrite Hn. Qed.

Lemma bind_free_query {B} q n (k : unit → M B) c h t :
  h !! q = Some n →
  bind (free_query q) k {| ctx := c; heap := h; trace := t |} =
  k () {| ctx := c; heap := delete q h; trace := t ++ [EvFreeQuery q] |}.
Proof. intros Hn. unfold bind, free_query. simpl. by rewrite Hn. Qed.

Lemma bind_uv_stop {B} plat (k : unit → M B) c h t :
  handle_initialized c = true →
  bind (uv_stop plat PgCtx) k {| ctx := Some c; heap := h; trace := t |} =
  k () {| ctx := Some (stopped c); heap := h; trace := t ++ [stop_event plat] |}.
Proof.
  unfold handle_initialized, uv_stop. intros Hi. rewrite bind_assoc, bind_get_pg.
  destruct (h_type (handle c)); [done|by destruct plat..].
Qed.

(** On a handle that was never initialized the call is undefined. *)
Lemma uv_stop_uninitialized plat c h t :
  handle_initialized c = false →
  uv_stop plat PgCtx {| ctx := Some c; heap := h; trace := t |} = None.
Proof.
  unfold handle_initialized, uv_stop. intros Hi.
  rewrite bind_get_pg. by destruct (h_type (handle c)).
Qed.

Lemma bind_uv_close {B} (k : unit → M B) c h t :
  bind (uv_close PgCtx) k {| ctx := Some c; heap := h; trace := t |} =
  k () {| ctx := Some (closing c); heap := h; trace := t ++ [Ev_uv_close] |}.
Proof. reflexivity. Qed.

(** Exposes the fields of a context, so that reads compute. *)
Ltac destruct_ctx c :=
  let ex := fresh "ex" in
  destruct c as [? ? ? ex ? [? ? ? ?] ? ? ? ? ?]; simpl in *.

(** Brings traces to right-nested form. *)
Ltac tnorm := repeat (progress (rewrite <- ?app_assoc; simpl)).

Ltac mstep :=
  repeat first
    [ rewrite bind_assoc
    | rewrite bind_ret
    | rewrite bind_get_pg
    | rewrite bind_modify_pg
    | rewrite bind_emit
    | rewrite bind_free_pg
    | rewrite bind_uv_stop by (first [done | simpl; done])
    | rewrite bind_uv_close ].

(** ** Chains *)

Lemma chain_functional h p l1 l2 : chain h p l1 → chain h p l2 → l1 = l2.
Proof.
  revert p l2. induction l1 as [|q l1 IH]; intros p [|q2 l2]; simpl.
  - done.
  - intros -> [? _]. done.
  - intros [-> _] ?. done.
  - intros [-> (n & Hn & Hc)] [[= <-] (n2 & Hn2 & Hc2)].
    rewrite Hn in Hn2. injection Hn2 as <-. f_equal. eauto.
Qed.

Lemma chain_allocated h p l q : chain h p l → q ∈ l → is_Some (h !! q).
Proof.
  revert p. induction l as [|x l IH]; intros p; simpl.
  - intros _ Hq. by apply elem_of_nil in Hq.
  - intros [-> (n & Hn & Hc)] Hq. apply elem_of_cons in Hq as [->|Hq]; eauto.
Qed.

(** A chain does not depend on nodes outside of it. *)
Lemma chain_agree h h' p l :
  (∀ q, q ∈ l → h' !! q = h !! q) → chain h p l → chain h' p l.
Proof.
  revert p. induction l as [|x l IH]; intros p Hag; simpl; [done|].
  intros [-> (n & Hn & Hc)]. split; [done|]. exists n. split.
  - rewrite Hag; [done|]. apply elem_of_cons; auto.
  - apply IH; [|done]. intros q Hq. apply Hag. apply elem_of_cons; auto.
Qed.

Lemma chain_delete h p l q : q ∉ l → chain h p l → chain (delete q h) p l.
Proof.
  intros Hq. apply chain_agree. intros x Hx.
  apply lookup_delete_ne. intros ->. done.
Qed.

Lemma drop_all_lookup l h q :
  drop_all l h !! q = if decide (q ∈ l) then None else h !! q.
Proof.
  revert h. induction l as [|x l IH]; intros h; simpl.
  - destruct (decide (q ∈ [])) as [Hin|]; [|done]. by apply elem_of_nil in Hin.
  - rewrite IH.
    destruct (decide (q ∈ l)) as [Hin|Hin], (decide (q ∈ x :: l)) as [Hin'|Hin'];
      try done.
    + exfalso. apply Hin'. by apply elem_of_cons; right.
    + destruct (decide (x = q)) as [->|Hne].
      * by rewrite lookup_delete_eq.
      * apply elem_of_cons in Hin' as [->|Hin']; done.
    + rewrite lookup_delete_ne; [done|]. intros ->. apply Hin'.
      by apply elem_of_cons; left.
Qed.

Lemma chain_suffix h p l1 l2 : chain h p (l1 ++ l2) → ∃ p', chain h p' l2.
Proof.
  revert p. induction l1 as [|x l1 IH]; intros p; simpl; [eauto|].
  intros [-> (n & Hn & Hc)]. eauto.
Qed.

(** A chain ends in [NULL], so it visits no node twice. *)
Lemma chain_NoDup h p l : chain h p l → NoDup l.
Proof.
  revert p. induction l as [|x l IH]; intros p Hc; [constructor|].
  pose proof Hc as [-> (n & Hn & Hc')]. apply NoDup_cons. split; [|eauto].
  intros (l1 & l2 & ->)%list_elem_of_split.
  destruct (chain_suffix _ _ _ _ Hc') as (p' & Hs).
  pose proof Hs as [-> _].
  pose proof (chain_functional _ _ _ _ Hc Hs) as Heq.
  apply (f_equal length) in Heq. rewrite !length_cons, length_app in Heq.
  simpl in Heq. lia.
Qed.

Lemma chain_length_size h p l : chain h p l → (length l ≤ size h)%nat.
Proof.
  intros Hc. pose proof (chain_NoDup _ _ _ Hc) as Hnd.
  revert h p Hc Hnd. induction l as [|x l IH]; intros h p; simpl; [lia|].
  intros [-> (n & Hn & Hc)] [Hx Hnd]%NoDup_cons.
  apply (chain_delete _ _ _ x Hx) in Hc. specialize (IH _ _ Hc Hnd).
  rewrite map_size_delete_Some in IH by eauto.
  assert (size h ≠ 0%nat); [|lia].
  intros Hz. apply map_size_empty_inv in Hz. subst. by rewrite lookup_empty in Hn.
Qed.

(** ** Cancellation *)

Lemma clear_queue_chain fuel p l c h t :
  chain h p l → (length l ≤ fuel)%nat →
  clear_queue fuel p {| ctx := c; heap := h; trace := t |} =
  Some ((), {| ctx := c; heap := drop_all l h;
               trace := t ++ map EvFreeQuery l |}).
Proof.
  intros Hc. pose proof (chain_NoDup _ _ _ Hc) as Hnd.
  revert p l h t Hc Hnd. induction fuel as [|fuel IH]; intros p [|q l] h t; simpl.
  - intros -> _ _. by rewrite app_nil_r.
  - lia.
  - intros -> _ _. by rewrite app_nil_r.
  - intros [-> (n & Hn & Hc)] [Hq Hnd]%NoDup_cons Hlen.
    unfold bind, load, free_query. simpl. rewrite Hn. simpl. rewrite Hn.
    rewrite (IH (next n) l); [|by apply chain_delete|done|lia].
    by rewrite <- app_assoc.
Qed.

Lemma pg_async_cancel_spec plat e c h t l :
  (is_executing c = true → handle_initialized c = true) →
  chain h (query_queue c) l →
  pg_async_cancel plat e PgCtx {| ctx := Some c; heap := h; trace := t |} =
  Some ((), {| ctx := Some (cancelled c); heap := drop_all l h;
               trace := t ++ cancel_events plat e c ++ map EvFreeQuery l |}).
Proof.
  intros Hi Hc.
  pose proof (chain_length_size _ _ _ Hc) as Hlen.
  unfold pg_async_cancel, cancelled, cancel_events. mstep.
  destruct (is_executing c) eqn:Hex.
  - specialize (Hi eq_refl). mstep.
    assert (∀ k : unit → M unit,
      bind (if PQgetCancel e then emit EvPQcancel else ret ()) k
        {| ctx := Some (stopped c); heap := h;
           trace := t ++ [stop_event plat] |} =
      k () {| ctx := Some (stopped c); heap := h;
              trace := t ++ stop_event plat ::
                         (if PQgetCancel e then [EvPQcancel] else []) |})
      as ->.
    { intros k. destruct (PQgetCancel e); mstep; by rewrite <- ?app_assoc. }
    mstep. unfold bind at 1, heap_size. simpl.
    unfold bind. rewrite (clear_queue_chain _ _ l) by done. simpl.
    by rewrite <- app_assoc.
  - mstep. unfold bind at 1, heap_size. simpl.
    unfold bind. by rewrite (clear_queue_chain _ _ l) by done.
Qed.

Lemma queue_is_cancelled h c l :
  queue_is h c l → queue_is (drop_all l h) (cancelled c) [].
Proof.
  intros (Hc & Ht & Hcur). unfold cancelled.
  assert (∀ p, current_query c = Some p →
               (p ∉ []) ∧ is_Some (drop_all l h !! p)) as Hcur'.
  { intros p Hp. destruct (Hcur _ Hp) as [Hnin Hal]. split.
    - apply not_elem_of_nil.
    - rewrite drop_all_lookup. by destruct (decide (p ∈ l)). }
  clear Hc Ht Hcur. destruct_ctx c. by destruct ex.
Qed.

(** ** Destruction *)

Lemma pg_async_destroy_spec plat e c h t l :
  (is_executing c = true → handle_initialized c = true) →
  destroying c = false → chain h (query_queue c) l →
  pg_async_destroy plat e PgCtx {| ctx := Some c; heap := h; trace := t |} =
  Some ((), destroyed plat e c h t l).
Proof.
  intros Hi Hd Hq. unfold pg_async_destroy. mstep. rewrite Hd. mstep.
  assert (chain h (query_queue (set_destroying true c)) l) as Hq' by done.
  rewrite (bind_call _ _ _ _ _
    (pg_async_cancel_spec plat e (set_destroying true c) h t l Hi Hq')).
  clear Hq' Hi. destruct c as [cn own con ex des [ty da ac cl] qq ta cu er ud].
  simpl in *. subst des.
  unfold destroyed, finished, finish_events, cancelled, cancel_events,
    handle_initialized, closing, stopped.
  destruct ex, cn as [cn|], own, ty, cl;
    repeat (progress (simpl; mstep));
    rewrite <- ?app_assoc; simpl; rewrite ?app_nil_r; try reflexivity;
    destruct (PQgetCancel e); simpl; rewrite <- ?app_assoc; reflexivity.
Qed.

Lemma pg_async_destroy_again plat e c h t :
  destroying c = true →
  pg_async_destroy plat e PgCtx {| ctx := Some c; heap := h; trace := t |} =
  Some ((), {| ctx := Some c; heap := h; trace := t |}).
Proof. intros Hd. unfold pg_async_destroy. mstep. by rewrite Hd. Qed.

Lemma handle_error_spec plat e c error h t l :
  (is_executing c = true → handle_initialized c = true) →
  chain h (query_queue c) l →
  handle_error plat e PgCtx error {| ctx := Some c; heap := h; trace := t |} =
  Some ((), failed plat e c error h t l).
Proof.
  intros Hi Hq. unfold handle_error, failed.
  set (c1 := set_error_message
    (match error with
     | Some s => strdup (strdup_ok e) s
     | None => None
     end)
    (if is_executing c then set_is_executing false (stopped c) else c)).
  assert (chain h (query_queue c1) l) as Hq1.
  { unfold c1. simpl. by destruct (is_executing c). }
  assert (is_executing c1 = false) as Hex1.
  { unfold c1. simpl. by destruct (is_executing c) eqn:?. }
  assert (destroying (cancelled c1) = destroying c) as Hd1.
  { unfold c1, cancelled. simpl.
    destruct (is_executing c) eqn:Hex; simpl; by rewrite ?Hex. }
  assert (is_executing c1 = true → handle_initialized c1 = true) as Hi1.
  { by rewrite Hex1. }
  pose proof (pg_async_cancel_spec plat e c1 h
    (t ++ if is_executing c then [stop_event plat] else []) l Hi1 Hq1) as Hcan.
  unfold cancel_events in Hcan. rewrite Hex1 in Hcan. simpl in Hcan.
  mstep.
  assert (∀ k : M unit,
    bind (if is_executing c
          then uv_stop plat PgCtx;; modify_pg PgCtx (set_is_executing false)
          else ret ())
      (λ _, modify_pg PgCtx (set_error_message
         (match error with
          | Some s => strdup (strdup_ok e) s
          | None => None
          end));; k) {| ctx := Some c; heap := h; trace := t |} =
    k {| ctx := Some c1; heap := h;
         trace := t ++ if is_executing c then [stop_event plat] else [] |})
    as ->.
  { intros k. unfold c1. destruct (is_executing c);
      [specialize (Hi eq_refl)|]; mstep; simpl;
      rewrite ?app_nil_r; reflexivity. }
  rewrite (bind_call _ _ _ _ _ Hcan).
  unfold errored. fold c1. rewrite <- app_assoc.
  destruct (destroying c) eqn:Hd.
  - apply pg_async_destroy_again. by rewrite Hd1.
  - apply pg_async_destroy_spec; [|by rewrite Hd1|].
    + unfold cancelled. rewrite Hex1.
      change (is_executing (set_query_queue None
                (set_query_queue_tail None c1))) with (is_executing c1).
      by rewrite Hex1.
    + unfold cancelled. simpl. done.
Qed.

(** The error funnel on an executing context whose handle was never
    initialized is undefined: it stops the handle first. *)
Lemma handle_error_uninitialized plat e c error h t :
  is_executing c = true → handle_initialized c = false →
  handle_error plat e PgCtx error {| ctx := Some c; heap := h; trace := t |} =
  None.
Proof.
  intros Hex Hi. unfold handle_error. rewrite bind_get_pg, Hex.
  rewrite !bind_assoc. unfold bind at 1.
  by rewrite uv_stop_uninitialized.
Qed.

(** ** Membership in traces *)

Lemma elem_of_frees x l : x ∈ map EvFreeQuery l → ∃ q, x = EvFreeQuery q.
Proof.
  intros Hx. apply list_elem_of_In, in_map_iff in Hx as (q & <- & _). eauto.
Qed.

Lemma elem_of_cancel_events x plat e c :
  x ∈ cancel_events plat e c → x = stop_event plat ∨ x = EvPQcancel.
Proof.
  unfold cancel_events. destruct (is_executing c), (PQgetCancel e);
    rewrite ?elem_of_cons, ?elem_of_nil; tauto.
Qed.

Lemma elem_of_finish_events x c :
  owns_connection c = false → x ∉ finish_events c.
Proof.
  unfold finish_events. intros ->. destruct (conn c); apply not_elem_of_nil.
Qed.

(** Splits a membership hypothesis over the shape of the trace and closes
    the cases where the event is a different call. *)
Ltac trace_cases H :=
  repeat first
    [ apply elem_of_app in H as [H|H]
    | apply elem_of_cons in H as [H|H]
    | apply elem_of_nil in H; destruct H
    | apply elem_of_frees in H as [? H]
    | apply elem_of_cancel_events in H as [H|H]
    | apply elem_of_finish_events in H; [destruct H|done]
    | discriminate H
    | (match type of H with _ = stop_event ?p => destruct p; discriminate H end)
    | (match type of H with _ = init_event ?p _ => destruct p; discriminate H end)
    | (match type of H with _ = start_event ?p => destruct p; discriminate H end)
    | (match type of H with _ ∈ (if ?b then _ else _) => destruct b end) ].

Lemma finished_id c : owns_connection c = false → finished c = c.
Proof. unfold finished. intros ->. by destruct (conn c). Qed.

Lemma Inv_weaken cn d w : Inv cn true w → Inv cn d w.
Proof.
  unfold Inv, ctx_side. destruct (ctx w); [|done].
  intros (? & ? & ? & ? & Hd & ?). repeat split; tauto.
Qed.

Lemma queue_is_handle h c v l :
  queue_is h c l → queue_is h (set_handle v c) l.
Proof. done. Qed.

Lemma destroyed_Inv cn d plat e c h t l :
  destroying c = false → queue_is h c l → ctx_side cn d c t →
  Inv cn true (destroyed plat e c h t l).
Proof.
  intros Hd Hq (Hown & Hconn & Hdata & _ & Hfree & Hfin & Hcl & Hinit & Hlive).
  unfold destroyed.
  assert (finished (cancelled (set_destroying true c)) =
          cancelled (set_destroying true c)) as ->.
  { apply finished_id. unfold cancelled. simpl.
    by destruct (is_executing c). }
  assert (∀ x, x = EvFreeCtx ∨ x = EvPQfinish ∨ x = Ev_uv_close →
    x ∈ t ++ cancel_events plat e c ++ map EvFreeQuery l ++ finish_events c →
    x ∈ t) as Hold.
  { intros x Hx Hin. trace_cases Hin; try done;
      destruct Hx as [-> | [-> | ->]]; try discriminate;
      destruct plat; discriminate. }
  apply (queue_is_cancelled h (set_destroying true c) l) in Hq as Hq'.
  destruct (handle_initialized c) eqn:Hi.
  - destruct (h_closing (handle c)) eqn:Hc.
    { destruct (Hcl eq_refl) as [? _]. congruence. }
    unfold Inv. simpl. split.
    + exists []. by apply queue_is_handle.
    + clear Hq Hq'. unfold ctx_side, handle_initialized in *.
      destruct c as [co own con ex des [ty da ac cl] qq ta cu er ud].
      simpl in *. subst.
      assert (∀ x, x = EvFreeCtx ∨ x = EvPQfinish →
        x ∉ (t ++ cancel_events plat e
               {| conn := Some cn; owns_connection := false;
                  is_connected := con; is_executing := ex;
                  destroying := false;
                  handle := {| h_type := ty; h_data := PgCtx;
                               h_active := ac; h_closing := false |};
                  query_queue := qq; query_queue_tail := ta;
                  current_query := cu; error_message := er;
                  pg_data := ud |} ++ map EvFreeQuery l ++ []) ++
              [Ev_uv_close]) as Hnew.
      { intros x Hx [Hin|Hin]%elem_of_app.
        - apply Hold in Hin; [|tauto]. by destruct Hx as [-> | ->].
        - apply list_elem_of_singleton in Hin. subst.
          by destruct Hx. }
      destruct ex; simpl; repeat split; try done;
        try (apply Hnew; by auto);
        try (apply elem_of_app; right; by apply list_elem_of_singleton).
  - unfold Inv, freed_inv. simpl. split.
    + intros Hin. apply elem_of_app in Hin as [Hin|Hin].
      * apply Hfin, Hold; auto.
      * by apply list_elem_of_singleton in Hin.
    + eexists _, []. split; [reflexivity|]. split; [|split; [done|]].
      * intros Hin. apply Hfree, Hold; auto.
      * intros Hin. apply Hold, Hinit in Hin; [congruence|auto].
Qed.

Lemma ctx_side_same cn d c c' t :
  same_side c c' → ctx_side cn d c t → ctx_side cn d c' t.
Proof.
  unfold same_side, ctx_side, handle_initialized.
  intros (-> & -> & -> & -> & -> & -> & Hac).
  intros (? & ? & ? & ? & ? & ? & ? & ? & Hlive).
  repeat split; tauto.
Qed.

Lemma ctx_side_ext cn d c t ext :
  Forall quiet ext → ctx_side cn d c t → ctx_side cn d c (t ++ ext).
Proof.
  intros Hq (Hown & Hconn & Hdata & Hd & Hfree & Hfin & Hcl & Hinit & Hlive).
  rewrite Forall_forall in Hq.
  assert (∀ x, ¬ quiet x → x ∈ t ++ ext → x ∈ t) as Hold.
  { intros x Hx [Hin|Hin]%elem_of_app; [done|]. by apply Hq in Hin. }
  repeat split; try done.
  - intros Hin. apply Hfree, Hold; [|done]. unfold quiet. tauto.
  - intros Hin. apply Hfin, Hold; [|done]. unfold quiet. tauto.
  - by apply Hcl.
  - apply elem_of_app. left. by apply Hcl.
  - intros Hin. apply Hinit, Hold; [|done]. unfold quiet. tauto.
Qed.

Lemma quiet_frees l : Forall quiet (map EvFreeQuery l).
Proof.
  apply Forall_forall. intros x [q ->]%elem_of_frees. by repeat split.
Qed.

Lemma quiet_stop plat : quiet (stop_event plat).
Proof. by destruct plat. Qed.

Lemma failed_Inv cn d plat e c error h t l :
  queue_is h c l → ctx_side cn d c t →
  Inv cn d (failed plat e c error h t l).
Proof.
  intros Hq Hs. unfold failed.
  set (t1 := t ++ (if is_executing c then [stop_event plat] else []) ++
             map EvFreeQuery l).
  assert (same_side c (errored e c error)) as Hsame.
  { unfold same_side, errored, cancelled, stopped.
    destruct_ctx c. by destruct ex. }
  assert (ctx_side cn d (errored e c error) t1) as Hs1.
  { apply (ctx_side_same _ _ c); [done|]. apply ctx_side_ext; [|done].
    apply Forall_app. split; [|apply quiet_frees].
    destruct (is_executing c); [|constructor].
    constructor; [apply quiet_stop|constructor]. }
  assert (queue_is (drop_all l h) (errored e c error) []) as Hq1.
  { unfold errored. apply queue_is_cancelled.
    clear Hs Hs1 Hsame. destruct_ctx c. by destruct ex. }
  destruct (destroying c) eqn:Hd.
  - unfold Inv. simpl. eauto.
  - apply Inv_weaken. apply (destroyed_Inv cn d); try done.
    destruct Hsame as (_ & _ & _ & -> & _). done.
Qed.

(** ** Every function keeps the invariant and is defined *)

Lemma handle_error_safe cn d plat e c error h t :
  Inv cn d {| ctx := Some c; heap := h; trace := t |} →
  (is_executing c = true → handle_initialized c = true) →
  safe cn d (handle_error plat e PgCtx error)
    {| ctx := Some c; heap := h; trace := t |}.
Proof.
  intros [[l Hq] Hs] Hi. simpl in *. eexists _, _. split.
  - apply (handle_error_spec _ _ _ _ _ _ l); [done|]. by destruct Hq.
  - by apply failed_Inv.
Qed.

Lemma pg_async_destroy_safe cn d plat e c h t :
  Inv cn d {| ctx := Some c; heap := h; trace := t |} →
  (is_executing c = true → handle_initialized c = true) →
  safe cn d (pg_async_destroy plat e PgCtx)
    {| ctx := Some c; heap := h; trace := t |}.
Proof.
  intros [[l Hq] Hs] Hi. simpl in *. destruct (destroying c) eqn:Hd.
  - eexists _, _. split; [by apply pg_async_destroy_again|].
    unfold Inv. simpl. eauto.
  - eexists _, _. split.
    + apply (pg_async_destroy_spec _ _ _ _ _ l); [done..|]. by destruct Hq.
    + apply Inv_weaken. by apply (destroyed_Inv cn d).
Qed.

Lemma bind_uv_init {B} plat fd r (k : Z → M B) c h t :
  bind (uv_init plat PgCtx fd r) k {| ctx := Some c; heap := h; trace := t |} =
  k r {| ctx := Some (if r =? 0 then inited plat c else c); heap := h;
         trace := t ++ [init_event plat fd] |}.
Proof. unfold uv_init. mstep. by destruct (r =? 0), plat. Qed.

Lemma bind_uv_start {B} plat r (k : Z → M B) c h t :
  bind (uv_start plat PgCtx r) k {| ctx := Some c; heap := h; trace := t |} =
  k r {| ctx := Some (if r =? 0 then started c else c); heap := h;
         trace := t ++ [start_event plat] |}.
Proof. unfold uv_start. mstep. by destruct (r =? 0), plat. Qed.

Lemma queue_is_popped h c p n l :
  queue_is h c (p :: l) → h !! p = Some n →
  queue_is h (popped p n c) l.
Proof.
  intros (Hc & Ht & _) Hn.
  pose proof (chain_NoDup _ _ _ Hc) as [Hp _]%NoDup_cons.
  destruct Hc as [_ (n' & Hn' & Hc)]. rewrite Hn in Hn'. injection Hn' as <-.
  unfold popped. destruct (next n) eqn:Hnext; simpl.
  - split; [|split]; simpl.
    + by rewrite ?Hnext.
    + rewrite Ht. destruct l; [|done]. simpl in Hc. congruence.
    + intros ? [= <-]. eauto.
  - destruct l as [|x l]; [|by destruct Hc].
    split; [|split]; simpl.
    + by rewrite ?Hnext.
    + done.
    + intros ? [= <-]. eauto.
Qed.

Lemma same_side_popped p n c : same_side c (popped p n c).
Proof. unfold same_side, popped. by destruct (next n). Qed.

Lemma execute_next_query_empty plat e c h t :
  query_queue c = None →
  execute_next_query plat e PgCtx {| ctx := Some c; heap := h; trace := t |} =
  pg_async_destroy plat e PgCtx
    {| ctx := Some (set_is_executing false c); heap := h; trace := t |}.
Proof. intros Hq. unfold execute_next_query. mstep. rewrite Hq. by mstep. Qed.

Lemma execute_next_query_nonempty plat e c p n h t l :
  (is_executing c = true →
   handle_initialized c = true ∨ refused_early plat e = false) →
  query_queue c = Some p → h !! p = Some n → chain h (next n) l →
  execute_next_query plat e PgCtx {| ctx := Some c; heap := h; trace := t |} =
  Some ((), dispatched plat e (popped p n c) n h t l).
Proof.
  intros Hi Hq Hn Hc. unfold execute_next_query. mstep. rewrite Hq. mstep.
  rewrite (bind_load _ _ _ _ _ _ Hn). mstep. simpl.
  assert (∀ k : unit → M unit,
    bind (match next n with
          | Some _ => ret ()
          | None => modify_pg PgCtx (set_query_queue_tail None)
          end) k
      {| ctx := Some (set_query_queue (next n)
                        (set_current_query (Some p) c));
         heap := h; trace := t |} =
    k () {| ctx := Some (popped p n c); heap := h; trace := t |}) as ->.
  { intros k. unfold popped. destruct (next n); by mstep. }
  assert (chain h (query_queue (popped p n c)) l) as Hc'.
  { unfold popped. by destruct (next n). }
  assert (current_query (popped p n c) = Some p) as Hcur.
  { unfold popped. by destruct (next n). }
  assert (is_executing (popped p n c) = true →
          handle_initialized (popped p n c) = true ∨
          refused_early plat e = false) as Hi1.
  { unfold popped. by destruct (next n). }
  clear Hi. generalize dependent (popped p n c). intros c1 Hc1 Hcur Hi.
  mstep. rewrite Hcur. rewrite (bind_load _ _ _ _ _ _ Hn).
  unfold dispatched, send_event.
  assert (∀ k : unit → M unit,
    bind (if 0 <? param_count n
          then emit (EvPQsendQueryParams (sql n) (param_count n) (params n))
          else emit (EvPQsendQuery (sql n))) k
      {| ctx := Some c1; heap := h; trace := t |} =
    k () {| ctx := Some c1; heap := h;
            trace := t ++ [if 0 <? param_count n
                           then EvPQsendQueryParams (sql n) (param_count n)
                                  (params n)
                           else EvPQsendQuery (sql n)] |}) as ->.
  { intros k. by destruct (0 <? param_count n). }
  unfold refused_early in Hi.
  destruct (send_result e =? 0).
  { apply handle_error_spec; [|done]. intros Hex.
    by destruct (Hi Hex). }
  destruct plat.
  - destruct (PQsocket e <? 0).
    { apply handle_error_spec; [|done]. intros Hex. by destruct (Hi Hex). }
    rewrite bind_uv_init. destruct (init_result e =? 0) eqn:Hir; simpl.
    + rewrite bind_uv_start. destruct (start_result e =? 0); simpl; [done|].
      by apply handle_error_spec.
    + apply handle_error_spec; [|done]. intros Hex. by destruct (Hi Hex).
  - rewrite bind_uv_init. destruct (init_result e =? 0) eqn:Hir; simpl.
    + unfold set_handle_data. mstep. rewrite bind_uv_start.
      destruct (start_result e =? 0); simpl; [done|].
      by apply handle_error_spec.
    + apply handle_error_spec; [|done]. intros Hex. by destruct (Hi Hex).
Qed.

(** A dispatch that is refused before the handle is initialized, on an
    executing context whose handle was never initialized, is undefined: the
    error funnel stops the handle. *)
Lemma execute_next_query_refused plat e c p n h t :
  is_executing c = true → handle_initialized c = false →
  refused_early plat e = true →
  query_queue c = Some p → h !! p = Some n →
  execute_next_query plat e PgCtx {| ctx := Some c; heap := h; trace := t |} =
  None.
Proof.
  intros Hex Hi Href Hq Hn. unfold execute_next_query. mstep. rewrite Hq. mstep.
  rewrite (bind_load _ _ _ _ _ _ Hn). mstep. simpl.
  assert (∀ k : unit → M unit,
    bind (match next n with
          | Some _ => ret ()
          | None => modify_pg PgCtx (set_query_queue_tail None)
          end) k
      {| ctx := Some (set_query_queue (next n)
                        (set_current_query (Some p) c));
         heap := h; trace := t |} =
    k () {| ctx := Some (popped p n c); heap := h; trace := t |}) as ->.
  { intros k. unfold popped. destruct (next n); by mstep. }
  assert (current_query (popped p n c) = Some p ∧
          is_executing (popped p n c) = true ∧
          handle_initialized (popped p n c) = false) as (Hcur & Hex1 & Hi1).
  { unfold popped. by destruct (next n). }
  generalize dependent (popped p n c). intros c1 Hcur Hex1 Hi1.
  mstep. rewrite Hcur. rewrite (bind_load _ _ _ _ _ _ Hn).
  assert (∀ k : unit → M unit,
    bind (if 0 <? param_count n
          then emit (EvPQsendQueryParams (sql n) (param_count n) (params n))
          else emit (EvPQsendQuery (sql n))) k
      {| ctx := Some c1; heap := h; trace := t |} =
    k () {| ctx := Some c1; heap := h; trace := t ++ [send_event n] |}) as ->.
  { intros k. unfold send_event. by destruct (0 <? param_count n). }
  unfold refused_early in Href.
  destruct (send_result e =? 0); [by apply handle_error_uninitialized|].
  destruct plat.
  - destruct (PQsocket e <? 0); [by apply handle_error_uninitialized|].
    rewrite bind_uv_init. destruct (init_result e =? 0); [done|]. simpl.
    by apply handle_error_uninitialized.
  - rewrite bind_uv_init. destruct (init_result e =? 0); [done|]. simpl.
    by apply handle_error_uninitialized.
Qed.

Lemma quiet_send n : quiet (send_event n).
Proof. unfold send_event. by destruct (0 <? param_count n). Qed.

Lemma ctx_side_inited cn d plat c t :
  ctx_side cn d c t → ctx_side cn d (inited plat c) t.
Proof.
  intros (Hown & Hconn & Hdata & Hd & Hfree & Hfin & Hcl & Hinit & Hlive).
  unfold ctx_side, inited, handle_initialized. simpl.
  repeat split; try done. intros _. by destruct plat.
Qed.

Lemma ctx_side_with_data cn d c t :
  ctx_side cn d c t → ctx_side cn d (with_data c) t.
Proof.
  intros (Hown & Hconn & Hdata & Hd & Hfree & Hfin & Hcl & Hinit & Hlive).
  unfold ctx_side, with_data, handle_initialized. simpl.
  repeat split; try done; by apply Hcl.
Qed.

Lemma ctx_side_started cn d c t :
  handle_initialized c = true →
  ctx_side cn d c t → ctx_side cn d (started c) t.
Proof.
  intros Hi (Hown & Hconn & Hdata & Hd & Hfree & Hfin & Hcl & Hinit & Hlive).
  unfold ctx_side, started, handle_initialized in *. simpl.
  repeat split; try done; by apply Hcl.
Qed.

Lemma ctx_side_stopped cn d c t :
  ctx_side cn d c t → ctx_side cn d (stopped c) t.
Proof. by apply ctx_side_same. Qed.

Lemma dispatched_Inv cn d plat e c n h t l :
  queue_is h c l → ctx_side cn d c t →
  Inv cn d (dispatched plat e c n h t l).
Proof.
  intros Hq Hs. unfold dispatched.
  assert (ctx_side cn d c (t ++ [send_event n])) as Hs1.
  { apply ctx_side_ext; [|done]. constructor; [apply quiet_send|constructor]. }
  destruct (send_result e =? 0); [by apply failed_Inv|].
  destruct plat.
  - destruct (PQsocket e <? 0); [by apply failed_Inv|].
    assert (ctx_side cn d c
      ((t ++ [send_event n]) ++ [Ev_uv_poll_init (PQsocket e)])) as Hs2.
    { apply ctx_side_ext; [|done]. by repeat constructor. }
    destruct (init_result e =? 0); simpl; [|by apply failed_Inv].
    assert (ctx_side cn d (inited Posix c)
      (((t ++ [send_event n]) ++ [Ev_uv_poll_init (PQsocket e)]) ++
       [Ev_uv_poll_start])) as Hs3.
    { apply ctx_side_ext; [by repeat constructor|]. by apply ctx_side_inited. }
    destruct (start_result e =? 0); simpl; [|by apply failed_Inv].
    unfold Inv. simpl. split; [by exists l|]. by apply ctx_side_started.
  - assert (ctx_side cn d c
      ((t ++ [send_event n]) ++ [Ev_uv_timer_init])) as Hs2.
    { apply ctx_side_ext; [|done]. by repeat constructor. }
    destruct (init_result e =? 0); simpl; [|by apply failed_Inv].
    assert (ctx_side cn d (with_data (inited Win32 c))
      (((t ++ [send_event n]) ++ [Ev_uv_timer_init]) ++
       [Ev_uv_timer_start])) as Hs3.
    { apply ctx_side_ext; [by repeat constructor|].
      by apply ctx_side_with_data, ctx_side_inited. }
    destruct (start_result e =? 0); simpl; [|by apply failed_Inv].
    unfold Inv. simpl. split; [by exists l|]. by apply ctx_side_started.
Qed.

Lemma execute_next_query_safe cn d plat e c h t :
  Inv cn d {| ctx := Some c; heap := h; trace := t |} →
  (is_executing c = true →
   handle_initialized c = true ∨ refused_early plat e = false) →
  safe cn d (execute_next_query plat e PgCtx)
    {| ctx := Some c; heap := h; trace := t |}.
Proof.
  intros [[l Hq] Hs] Hi. simpl in *.
  destruct (query_queue c) as [p|] eqn:Hqq.
  - pose proof Hq as (Hc & _). rewrite Hqq in Hc.
    destruct l as [|p' l]; [done|]. destruct Hc as [[= <-] (n & Hn & Hc)].
    eexists _, _. split.
    + by apply (execute_next_query_nonempty _ _ _ p n _ _ l).
    + apply dispatched_Inv.
      * by apply queue_is_popped.
      * apply (ctx_side_same _ _ c); [apply same_side_popped|done].
  - unfold safe. rewrite execute_next_query_empty by done.
    apply pg_async_destroy_safe; [|done]. unfold Inv. simpl. split; [eauto|].
    by apply (ctx_side_same _ _ c).
Qed.

(** ** The drain loop *)

Lemma callback_step {B} (k : unit → M B) c h t r :
  (∀ p, current_query c = Some p → is_Some (h !! p)) →
  bind (match current_query c with
        | Some q =>
            let* n := load q in
            match result_cb n with
            | Some cb => emit (EvResultCb q cb r (data n))
            | None => ret ()
            end
        | None => ret ()
        end) k {| ctx := Some c; heap := h; trace := t |} =
  k () {| ctx := Some c; heap := h; trace := t ++ cb_events c h r |}.
Proof.
  intros Hlive. unfold cb_events. destruct (current_query c) as [q|].
  - destruct (Hlive q eq_refl) as [n Hn]. rewrite Hn.
    rewrite bind_assoc, (bind_load _ _ _ _ _ _ Hn).
    destruct (result_cb n); mstep; by rewrite ?app_nil_r.
  - mstep. by rewrite app_nil_r.
Qed.

Lemma release_step {B} (k : unit → M B) c h t :
  (∀ p, current_query c = Some p → is_Some (h !! p)) →
  bind (cleanup_query (current_query c)) k
    {| ctx := Some c; heap := h; trace := t |} =
  k () {| ctx := Some c; heap := released c h;
          trace := t ++ release_events c |}.
Proof.
  intros Hlive. unfold released, release_events, cleanup_query.
  destruct (current_query c) as [q|].
  - destruct (Hlive q eq_refl) as [n Hn]. by rewrite (bind_free_query _ _ _ _ _ _ Hn).
  - mstep. by rewrite app_nil_r.
Qed.

Lemma drain_results_ok plat e rs c h t :
  (∀ p, current_query c = Some p → is_Some (h !! p)) →
  all_ok rs = true →
  drain_results plat e PgCtx rs {| ctx := Some c; heap := h; trace := t |} =
  Some (true, {| ctx := Some c; heap := h;
                 trace := t ++ delivered c h rs ++ [EvPQgetResult] |}).
Proof.
  intros Hlive. revert t. induction rs as [|r rs IH]; intros t; simpl.
  - intros _. by mstep.
  - intros [Hr Hrs]%andb_prop. mstep. rewrite callback_step by done.
    rewrite Hr. simpl. mstep. rewrite IH by done.
    unfold delivered. by tnorm.
Qed.

Lemma drain_results_fail plat e good bad rest c h t l :
  (is_executing c = true → handle_initialized c = true) →
  (∀ p, current_query c = Some p → (p ∉ l) ∧ is_Some (h !! p)) →
  chain h (query_queue c) l →
  all_ok good = true → status_ok (PQresultStatus bad) = false →
  drain_results plat e PgCtx (good ++ bad :: rest)
    {| ctx := Some c; heap := h; trace := t |} =
  Some (false, drain_failed plat e c h t l good bad).
Proof.
  intros Hi Hcur Hc. revert t. induction good as [|r rs IH]; intros t; simpl.
  - intros _ Hbad. mstep. rewrite callback_step by (intros; by apply Hcur).
    rewrite Hbad. simpl. mstep.
    rewrite release_step by (intros; by apply Hcur). mstep.
    unfold drain_failed.
    erewrite bind_call; [reflexivity|].
    unfold delivered. tnorm.
    apply handle_error_spec; [done|]. simpl. unfold released.
    destruct (current_query c) as [p|] eqn:Hp; [|done].
    apply chain_delete; [|done]. by apply Hcur.
  - intros [Hr Hrs]%andb_prop Hbad. mstep.
    rewrite callback_step by (intros; by apply Hcur).
    rewrite Hr. simpl. mstep. rewrite IH by done.
    unfold drain_failed, delivered. by tnorm.
Qed.

(** Either every result has a success status, or there is a first one that
    has not. *)
Lemma results_split rs :
  all_ok rs = true ∨
  ∃ good bad rest, rs = good ++ bad :: rest ∧ all_ok good = true ∧
                   status_ok (PQresultStatus bad) = false.
Proof.
  induction rs as [|r rs IH]; [by left|].
  destruct (status_ok (PQresultStatus r)) eqn:Hr.
  - destruct IH as [IH|(good & bad & rest & -> & Hg & Hb)].
    + left. simpl. by rewrite Hr.
    + right. exists (r :: good), bad, rest. simpl. by rewrite Hr.
  - right. by exists [], r, rs.
Qed.

(** ** The readiness and timer callbacks *)

Lemma on_ready_destroying plat e status c h t :
  h_data (handle c) = PgCtx → destroying c = true →
  on_ready plat e UvHandle status {| ctx := Some c; heap := h; trace := t |} =
  Some ((), {| ctx := Some c; heap := h; trace := t |}).
Proof.
  intros Hdata Hd. destruct plat; simpl; unfold on_poll, on_timer;
    mstep; rewrite Hdata; mstep; by rewrite Hd.
Qed.

Lemma on_poll_error e status c h t l :
  handle_initialized c = true →
  h_data (handle c) = PgCtx → destroying c = false → status < 0 →
  chain h (query_queue c) l →
  on_poll e UvHandle status {| ctx := Some c; heap := h; trace := t |} =
  Some ((), failed Posix e c (Some (uv_strerror e status)) h t l).
Proof.
  intros Hi Hdata Hd Hst Hc. unfold on_poll. mstep. rewrite Hdata. mstep.
  rewrite Hd. apply Z.ltb_lt in Hst. rewrite Hst. by apply handle_error_spec.
Qed.

Lemma on_ready_consume_failed plat e status c h t l :
  handle_initialized c = true →
  h_data (handle c) = PgCtx → destroying c = false → 0 ≤ status →
  consume_input e = 0 → chain h (query_queue c) l →
  on_ready plat e UvHandle status {| ctx := Some c; heap := h; trace := t |} =
  Some ((), match plat with
            | Posix => failed Posix e c (Some (PQerrorMessage e)) h
                         (t ++ [EvPQconsumeInput]) l
            | Win32 => failed Win32 e (stopped c) (Some (PQerrorMessage e)) h
                         (t ++ [EvPQconsumeInput; Ev_uv_timer_stop]) l
            end).
Proof.
  intros Hi Hdata Hd Hst Hco Hc. destruct plat; simpl; unfold on_poll, on_timer;
    mstep; rewrite Hdata; mstep; rewrite Hd.
  - apply Z.ltb_ge in Hst. rewrite Hst. mstep. rewrite Hco. simpl.
    by apply handle_error_spec.
  - mstep. rewrite Hco. simpl. mstep. rewrite <- app_assoc.
    by apply handle_error_spec.
Qed.

Lemma on_ready_busy plat e status c h t :
  h_data (handle c) = PgCtx → destroying c = false → 0 ≤ status →
  consume_input e ≠ 0 → PQisBusy e ≠ 0 →
  on_ready plat e UvHandle status {| ctx := Some c; heap := h; trace := t |} =
  Some ((), {| ctx := Some c; heap := h; trace := t ++ [EvPQconsumeInput] |}).
Proof.
  intros Hdata Hd Hst Hco Hb. apply Z.eqb_neq in Hco, Hb.
  destruct plat; simpl; unfold on_poll, on_timer;
    mstep; rewrite Hdata; mstep; rewrite Hd.
  - apply Z.ltb_ge in Hst. rewrite Hst. mstep. rewrite Hco, Hb. done.
  - mstep. rewrite Hco, Hb. done.
Qed.

Lemma on_ready_drained plat e status c h t :
  handle_initialized c = true →
  h_data (handle c) = PgCtx → destroying c = false → 0 ≤ status →
  consume_input e ≠ 0 → PQisBusy e = 0 →
  (∀ p, current_query c = Some p → is_Some (h !! p)) →
  all_ok (results e) = true →
  on_ready plat e UvHandle status {| ctx := Some c; heap := h; trace := t |} =
  execute_next_query plat e PgCtx (drained plat c h t (results e)).
Proof.
  intros Hi Hdata Hd Hst Hco Hb Hlive Hok. apply Z.eqb_neq in Hco.
  destruct plat; simpl; unfold on_poll, on_timer;
    mstep; rewrite Hdata; mstep; rewrite Hd.
  - apply Z.ltb_ge in Hst. rewrite Hst. mstep. rewrite Hco, Hb. simpl.
    rewrite (bind_call _ _ _ _ _ (drain_results_ok _ _ _ _ _ _ Hlive Hok)).
    mstep. simpl.
    rewrite (release_step _ (stopped c)) by done. mstep.
    unfold drained, drained_trace. simpl. by rewrite <- !app_assoc.
  - mstep. rewrite Hco, Hb. simpl. mstep.
    rewrite (bind_call _ _ _ _ _
      (drain_results_ok _ _ _ (stopped c) _ _ Hlive Hok)).
    mstep. simpl.
    rewrite (release_step _ (stopped c)) by done. mstep.
    unfold drained, drained_trace. simpl. by rewrite <- !app_assoc.
Qed.

Lemma on_ready_failed plat e status c h t l good bad rest :
  handle_initialized c = true →
  h_data (handle c) = PgCtx → destroying c = false → 0 ≤ status →
  consume_input e ≠ 0 → PQisBusy e = 0 →
  (∀ p, current_query c = Some p → (p ∉ l) ∧ is_Some (h !! p)) →
  chain h (query_queue c) l →
  results e = good ++ bad :: rest →
  all_ok good = true → status_ok (PQresultStatus bad) = false →
  on_ready plat e UvHandle status {| ctx := Some c; heap := h; trace := t |} =
  Some ((), match plat with
            | Posix => drain_failed Posix e c h (t ++ [EvPQconsumeInput]) l
                         good bad
            | Win32 => drain_failed Win32 e (stopped c) h
                         (t ++ [EvPQconsumeInput; Ev_uv_timer_stop]) l good bad
            end).
Proof.
  intros Hi Hdata Hd Hst Hco Hb Hcur Hc Hrs Hok Hbad. apply Z.eqb_neq in Hco.
  assert (∀ c0, handle_initialized c0 = true →
                is_executing c0 = true → handle_initialized c0 = true)
    as Himp by done.
  destruct plat; simpl; unfold on_poll, on_timer;
    mstep; rewrite Hdata; mstep; rewrite Hd.
  - apply Z.ltb_ge in Hst. rewrite Hst. mstep. rewrite Hco, Hb. simpl.
    rewrite Hrs.
    by rewrite (bind_call _ _ _ _ _
      (drain_results_fail _ _ _ _ rest _ _ _ _ (Himp c Hi) Hcur Hc Hok Hbad)).
  - mstep. rewrite Hco, Hb. simpl. mstep. rewrite Hrs. rewrite <- app_assoc.
    by rewrite (bind_call _ _ _ _ _
      (drain_results_fail _ _ _ _ rest (stopped c) _ _ _
         (Himp (stopped c) Hi) Hcur Hc Hok Hbad)).
Qed.

Lemma quiet_delivered c h rs : Forall quiet (delivered c h rs).
Proof.
  unfold delivered. induction rs as [|r rs IH]; simpl; [constructor|].
  constructor; [done|]. rewrite <- app_assoc. apply Forall_app. split.
  - unfold cb_events. destruct (current_query c); [|constructor].
    destruct (h !! p); [|constructor].
    destruct (result_cb p0); by repeat constructor.
  - by constructor.
Qed.

Lemma quiet_cb_events c h r : Forall quiet (cb_events c h r).
Proof.
  unfold cb_events. destruct (current_query c); [|constructor].
  destruct (h !! p); [|constructor].
  destruct (result_cb p0); by repeat constructor.
Qed.

Lemma quiet_release_events c : Forall quiet (release_events c).
Proof.
  unfold release_events. destruct (current_query c); by repeat constructor.
Qed.

Lemma queue_is_released h c l :
  queue_is h c l → queue_is (released c h) (set_current_query None c) l.
Proof.
  intros (Hc & Ht & Hcur). unfold released. repeat split; simpl; try done.
  destruct (current_query c) as [p|] eqn:Hp; [|done].
  apply chain_delete; [|done]. by apply Hcur.
Qed.

Lemma drained_Inv cn d plat c h t rs :
  Inv cn d {| ctx := Some c; heap := h; trace := t |} →
  Inv cn d (drained plat c h t rs).
Proof.
  intros [[l Hq] Hs]. simpl in *. unfold Inv, drained. simpl. split.
  - exists l. by apply (queue_is_released h (stopped c)).
  - apply (ctx_side_same _ _ c); [done|]. unfold drained_trace.
    destruct plat; apply ctx_side_ext; try done.
    + repeat (apply Forall_app; split); try apply quiet_delivered;
        try apply quiet_release_events; by repeat constructor.
    + apply (Forall_app _ [_; _]); split; [by repeat constructor|].
      repeat (apply Forall_app; split); try apply quiet_delivered;
        try apply quiet_release_events; by repeat constructor.
Qed.

Lemma drain_failed_Inv cn d plat e c h t l good bad :
  queue_is h c l → ctx_side cn d c t →
  Inv cn d (drain_failed plat e c h t l good bad).
Proof.
  intros Hq Hs. unfold drain_failed. apply failed_Inv.
  - by apply queue_is_released.
  - apply (ctx_side_same _ _ c); [done|]. apply ctx_side_ext; [|done].
    apply Forall_app; split; [apply quiet_delivered|].
    constructor; [done|].
    apply Forall_app; split; [apply quiet_cb_events|].
    constructor; [done|]. apply quiet_release_events.
Qed.

Lemma on_ready_safe cn d plat e status c h t :
  Inv cn d {| ctx := Some c; heap := h; trace := t |} →
  handle_initialized c = true →
  safe cn d (on_ready plat e UvHandle status)
    {| ctx := Some c; heap := h; trace := t |}.
Proof.
  intros HI Hi. pose proof HI as [[l Hq] Hs]. simpl in *.
  pose proof Hs as (_ & _ & Hdata & _).
  pose proof Hq as (Hc & _ & Hcur).
  assert (∀ p, current_query c = Some p → is_Some (h !! p)) as Hlive.
  { intros p Hp. by apply Hcur. }
  destruct (destroying c) eqn:Hd.
  { eexists _, _. split; [by apply on_ready_destroying|done]. }
  assert (status < 0 ∧ plat = Posix ∨ (0 ≤ status ∨ plat = Win32)) as [[Hst ->]|Hst].
  { destruct plat; [|by auto]. destruct (decide (status < 0)); [by auto|].
    right. left. lia. }
  { eexists _, _. split; [by apply (on_poll_error _ _ _ _ _ l)|].
    by apply failed_Inv. }
  assert (∃ status', 0 ≤ status' ∧
    on_ready plat e UvHandle status = on_ready plat e UvHandle status')
    as (status' & Hst' & ->).
  { destruct Hst as [?| ->]; [by exists status|]. by exists 0. }
  destruct (decide (consume_input e = 0)) as [Hco|Hco].
  { eexists _, _. split; [by apply (on_ready_consume_failed _ _ _ _ _ _ l)|].
    destruct plat; apply failed_Inv; try done.
    - apply ctx_side_ext; [by repeat constructor|done].
    - apply ctx_side_stopped, ctx_side_ext; [by repeat constructor|done]. }
  destruct (decide (PQisBusy e = 0)) as [Hb|Hb]; cycle 1.
  { eexists _, _. split; [by apply on_ready_busy|].
    unfold Inv. simpl. split; [eauto|].
    apply ctx_side_ext; [by repeat constructor|done]. }
  destruct (results_split (results e))
    as [Hok|(good & bad & rest & Hrs & Hok & Hbad)].
  - unfold safe. rewrite on_ready_drained by done.
    apply execute_next_query_safe; [by apply drained_Inv|].
    intros _. by left.
  - eexists _, _. split.
    + by apply (on_ready_failed _ _ _ _ _ _ l good bad rest).
    + destruct plat; apply drain_failed_Inv; try done.
      * apply ctx_side_ext; [by repeat constructor|done].
      * apply ctx_side_stopped, ctx_side_ext; [by repeat constructor|done].
Qed.

(** ** Enqueueing *)

Lemma chain_snoc h p l tl ntl q node :
  chain h p l → last l = Some tl → h !! tl = Some ntl →
  h !! q = None → next node = None →
  chain (<[tl := set_next (Some q) ntl]> (<[q := node]> h)) p (l ++ [q]).
Proof.
  intros Hc Hlast Htl Hq Hnode.
  assert (q ≠ tl) as Hne by congruence.
  pose proof (chain_NoDup _ _ _ Hc) as Hnd.
  revert p Hc Hlast Hnd. induction l as [|x l IH]; intros p; [done|].
  intros [-> (n & Hn & Hc)] Hlast [Hx Hnd]%NoDup_cons. simpl.
  split; [done|]. destruct l as [|y l].
  - injection Hlast as ->. rewrite Htl in Hn. injection Hn as <-.
    simpl in Hc. exists (set_next (Some q) ntl). rewrite lookup_insert_eq.
    split; [done|]. simpl. split; [done|]. exists node.
    rewrite lookup_insert_ne by done. rewrite lookup_insert_eq. auto.
  - rewrite last_cons_cons in Hlast.
    assert (x ≠ tl).
    { intros ->. apply Hx. by apply last_Some_elem_of. }
    assert (x ≠ q) by congruence.
    exists n. rewrite !lookup_insert_ne by done. split; [done|].
    by apply IH.
Qed.

Lemma pquv_queue_spec a s n ps cb d c h t q :
  calloc_query a = Some q → h !! q = None → strdup_sql_ok a = true →
  (0 < n → is_Some ps → malloc_params_ok a = true) →
  (0 < n → ∀ l, ps = Some l → (Z.to_nat n ≤ length l)%nat) →
  (∀ p, query_queue c = Some p →
        ∃ tl, query_queue_tail c = Some tl ∧ is_Some (h !! tl)) →
  pquv_queue a PgCtx (Some s) n ps cb d
    {| ctx := Some c; heap := h; trace := t |} =
  Some (0, {| ctx := Some (enqueued_ctx q c);
              heap := enqueued_heap q (new_node a s n ps cb d) c h;
              trace := t |}).
Proof.
  intros Hq Hfresh Hsql Hmal Hlen Htail. unfold pquv_queue.
  rewrite Hq, Hsql. simpl.
  assert (∀ (B : Type) (k : unit → M B) w,
    heap w !! q = None → bind (fresh q) k w = k () w) as Hf.
  { intros B k w Hw. unfold bind, fresh. by rewrite Hw. }
  rewrite Hf by done.
  assert (∀ (B : Type) node (k : unit → M B),
    bind (alloc_query q node) k {| ctx := Some c; heap := h; trace := t |} =
    k () {| ctx := Some c; heap := <[q := node]> h; trace := t |}) as Ha.
  { intros B node k. unfold bind, alloc_query. simpl. by rewrite Hfresh. }
  unfold enqueued_ctx, enqueued_heap, new_node.
  destruct (0 <? n) eqn:Hn, ps as [l|]; simpl;
    try (rewrite Hmal by (eauto; by apply Z.ltb_lt));
    try (rewrite (proj2 (Nat.leb_le _ _))
           by (apply Hlen; [by apply Z.ltb_lt|done]));
    rewrite ?bind_ret; rewrite Ha; mstep;
    (destruct (query_queue c) as [p|] eqn:Hqq; [|by mstep]);
    destruct (Htail p eq_refl) as (tl & -> & [ntl Hntl]); rewrite Hntl;
    (assert (q ≠ tl) as Hne by congruence);
    unfold bind, store; simpl; rewrite lookup_insert_ne by done;
    rewrite Hntl; reflexivity.
Qed.

Lemma queue_is_enqueued h c l q node :
  queue_is h c l → h !! q = None → next node = None →
  queue_is (enqueued_heap q node c h) (enqueued_ctx q c) (l ++ [q]).
Proof.
  intros (Hc & Ht & Hcur) Hq Hnode. unfold enqueued_heap, enqueued_ctx.
  assert (∀ p, current_query c = Some p → p ≠ q) as Hpq.
  { intros p Hp ->. destruct (Hcur _ Hp) as [_ [? ?]]. congruence. }
  assert (∀ p, current_query c = Some p → p ∉ l ++ [q]) as Hnin.
  { intros p Hp [?|?%list_elem_of_singleton]%elem_of_app.
    - by apply (Hcur p Hp).
    - by apply (Hpq p). }
  destruct (query_queue c) as [p|] eqn:Hqq.
  - destruct l as [|x l]; [done|].
    destruct (last (x :: l)) as [tl|] eqn:Hlast;
      [|by apply last_None in Hlast].
    rewrite Ht.
    destruct (chain_allocated _ _ _ tl Hc) as [ntl Hntl].
    { by apply last_Some_elem_of. }
    rewrite Hntl. split; [|split].
    + change (query_queue (set_query_queue_tail (Some q) c))
        with (query_queue c).
      rewrite Hqq. by apply chain_snoc.
    + by rewrite last_snoc.
    + intros p' Hp'. simpl in Hp'. split; [by apply Hnin|].
      destruct (Hcur _ Hp') as [_ Hlive].
      assert (p' ≠ q) by (by apply Hpq).
      destruct (decide (p' = tl)) as [->|?].
      * rewrite lookup_insert_eq. eauto.
      * by rewrite !lookup_insert_ne.
  - destruct l as [|x l]; [|by destruct Hc].
    split; [|split]; simpl.
    + split; [done|]. exists node. rewrite lookup_insert_eq. auto.
    + done.
    + intros p' Hp'. split; [by apply (Hnin p')|].
      destruct (Hcur _ Hp') as [_ Hlive]. rewrite lookup_insert_ne; [done|].
      intros <-. by apply (Hpq q).
Qed.

Lemma queue_is_tail h c l p :
  queue_is h c l → query_queue c = Some p →
  ∃ tl, query_queue_tail c = Some tl ∧ is_Some (h !! tl).
Proof.
  intros (Hc & Ht & _) Hp. rewrite Hp in Hc.
  destruct l as [|x l]; [done|].
  destruct (last (x :: l)) as [tl|] eqn:Hlast; [|by apply last_None in Hlast].
  exists tl. split; [done|].
  apply (chain_allocated _ _ _ tl Hc). by apply last_Some_elem_of.
Qed.

Lemma Inv_quiet cn d c h t ext :
  Forall quiet ext →
  Inv cn d {| ctx := Some c; heap := h; trace := t |} →
  Inv cn d {| ctx := Some c; heap := h; trace := t ++ ext |}.
Proof.
  intros Hext [Hq Hs]. split; [done|]. by apply ctx_side_ext.
Qed.

Lemma pquv_queue_safe cn d a s n ps cb qd c h t :
  Inv cn d {| ctx := Some c; heap := h; trace := t |} →
  (∀ q, calloc_query a = Some q → h !! q = None) →
  (0 < n → ∀ l, ps = Some l → (Z.to_nat n ≤ length l)%nat) →
  safe cn d (pquv_queue a PgCtx s n ps cb qd)
    {| ctx := Some c; heap := h; trace := t |}.
Proof.
  intros HI Hfresh Hlen. pose proof HI as [[l Hq] Hs]. simpl in Hq, Hs.
  destruct s as [s|]; [|by eexists _, _].
  destruct (calloc_query a) as [q|] eqn:Hcal; cycle 1.
  { eexists _, _. split; [|done]. unfold pquv_queue. by rewrite ?Hcal. }
  specialize (Hfresh q eq_refl).
  assert (∀ (B : Type) (k : unit → M B) w,
    heap w !! q = None → bind (fresh q) k w = k () w) as Hf.
  { intros B k w Hw. unfold bind, fresh. by rewrite Hw. }
  destruct (strdup_sql_ok a) eqn:Hsql; cycle 1.
  { eexists _, _. split.
    - unfold pquv_queue. rewrite ?Hcal, ?Hsql. simpl. rewrite Hf by done.
      unfold discard_query. by mstep.
    - apply Inv_quiet; [by repeat constructor|done]. }
  destruct (decide (0 < n ∧ is_Some ps ∧ malloc_params_ok a = false))
    as [(Hn & [ps' ->] & Hmal)|Hno].
  { eexists _, _. split.
    - unfold pquv_queue. rewrite ?Hcal, ?Hsql. simpl. rewrite Hf by done.
      apply Z.ltb_lt in Hn. rewrite Hn, Hmal. rewrite bind_ret.
      unfold discard_query. by mstep.
    - apply Inv_quiet; [by repeat constructor|done]. }
  eexists _, _. split.
  - apply (pquv_queue_spec _ _ _ _ _ _ _ _ _ q); try done.
    + intros ? ?. destruct (malloc_params_ok a); [done|]. exfalso. by apply Hno.
    + intros p Hp. by apply (queue_is_tail h c l p).
  - unfold Inv. simpl. split.
    + exists (l ++ [q]). by apply queue_is_enqueued.
    + apply (ctx_side_same _ _ c); [|done].
      unfold same_side, enqueued_ctx. by destruct (query_queue c).
Qed.

(** ** [pquv_execute] and [on_handle_closed] *)

Lemma pquv_execute_unfold plat e c h t :
  pquv_execute plat e PgCtx {| ctx := Some c; heap := h; trace := t |} =
  if negb (is_connected c) then
    Some (-1, {| ctx := Some c; heap := h; trace := t |})
  else if is_executing c then
    Some (-1, {| ctx := Some c; heap := h; trace := t |})
  else
    match query_queue c with
    | None =>
        bind (pg_async_destroy plat e PgCtx) (λ _, ret 0)
          {| ctx := Some c; heap := h; trace := t |}
    | Some _ =>
        bind (execute_next_query plat e PgCtx) (λ _, ret 0)
          {| ctx := Some (set_is_executing true c); heap := h; trace := t |}
    end.
Proof.
  unfold pquv_execute. mstep.
  destruct (is_connected c), (is_executing c); simpl; try done.
  destruct (query_queue c); by mstep.
Qed.

Lemma first_refused_dec plat e c :
  first_refused plat e c ∨ ¬ first_refused plat e c.
Proof.
  unfold first_refused.
  destruct (is_connected c), (is_executing c), (query_queue c),
    (handle_initialized c), (refused_early plat e);
    first [ left; by eauto
          | right; by intros (? & ? & [? ?] & ? & ?) ].
Qed.

Lemma pquv_execute_safe cn d plat e c h t :
  Inv cn d {| ctx := Some c; heap := h; trace := t |} →
  ¬ first_refused plat e c →
  safe cn d (pquv_execute plat e PgCtx)
    {| ctx := Some c; heap := h; trace := t |}.
Proof.
  intros HI Hno. unfold safe. rewrite pquv_execute_unfold.
  destruct (is_connected c) eqn:Hcon; simpl; [|by eexists _, _].
  destruct (is_executing c) eqn:Hex0; simpl; [by eexists _, _|].
  destruct (query_queue c) eqn:Hqq.
  - destruct (execute_next_query_safe cn d plat e
      (set_is_executing true c) h t) as (u & w' & Hex & HI').
    { destruct HI as [[l Hq] Hs]. split; [by exists l|done]. }
    { intros _. change (handle_initialized (set_is_executing true c))
        with (handle_initialized c).
      destruct (handle_initialized c) eqn:Hi; [by left|].
      destruct (refused_early plat e) eqn:Hr; [|by right].
      exfalso. apply Hno. unfold first_refused. rewrite Hqq. by eauto. }
    exists 0, w'. by rewrite (bind_call _ _ _ _ _ Hex).
  - destruct (pg_async_destroy_safe cn d plat e c h t HI)
      as (u & w' & Hex & HI').
    { by rewrite Hex0. }
    exists 0, w'. by rewrite (bind_call _ _ _ _ _ Hex).
Qed.

(** Such a call of [pquv_execute] is undefined when the queue is a proper
    list: the error funnel stops the handle that was never initialized. *)
Lemma pquv_execute_refused plat e c h t l :
  first_refused plat e c → chain h (query_queue c) l →
  pquv_execute plat e PgCtx {| ctx := Some c; heap := h; trace := t |} = None.
Proof.
  intros (Hcon & Hex & [p Hqq] & Hi & Hr) Hc.
  rewrite pquv_execute_unfold, Hcon, Hex, Hqq. cbn [negb].
  rewrite Hqq in Hc. destruct l as [|p' l]; [done|].
  destruct Hc as [[= <-] (n & Hn & _)].
  unfold bind.
  by rewrite (execute_next_query_refused plat e (set_is_executing true c) p n).
Qed.

Lemma on_handle_closed_spec c h t :
  h_data (handle c) = PgCtx →
  on_handle_closed UvHandle {| ctx := Some c; heap := h; trace := t |} =
  Some ((), {| ctx := None; heap := h;
               trace := (t ++ [EvCloseCb]) ++ [EvFreeCtx] |}).
Proof. intros Hdata. unfold on_handle_closed. mstep. by rewrite Hdata. Qed.

Lemma on_handle_closed_safe cn d c h t :
  Inv cn d {| ctx := Some c; heap := h; trace := t |} →
  safe cn d (on_handle_closed UvHandle)
    {| ctx := Some c; heap := h; trace := t |}.
Proof.
  intros [_ (_ & _ & Hdata & _ & Hfree & Hfin & _)]. simpl in *.
  eexists _, _. split; [by apply on_handle_closed_spec|].
  unfold Inv, freed_inv. simpl. split.
  - intros Hin. trace_cases Hin. done.
  - eexists _, []. split; [reflexivity|]. split; [|split; [done|]].
    + intros Hin. trace_cases Hin. done.
    + eauto.
Qed.

Lemma freed_inv_discard t q : freed_inv t → freed_inv (t ++ [EvFreeQuery q]).
Proof.
  intros (Hfin & t0 & t1 & -> & Hfree & Hall & Hcl). split.
  - intros Hin. apply elem_of_app in Hin as [Hin|Hin]; [done|].
    by apply list_elem_of_singleton in Hin.
  - exists t0, (t1 ++ [EvFreeQuery q]). split; [by rewrite <- app_assoc|].
    split; [done|]. split; [|done].
    apply Forall_app. split; [done|]. by repeat constructor.
Qed.

(** ** Runs keep the invariant *)

Lemma created_Inv calloc_ok cn ud pg :
  pquv_create calloc_ok (Some cn) ud = Some pg →
  Inv cn false (world_of pg).
Proof.
  unfold pquv_create. destruct (PQstatus cn); [|done].
  destruct calloc_ok; [|done]. intros [= <-].
  unfold Inv, ctx_side, handle_initialized. simpl. split.
  - exists []. by repeat split.
  - repeat split; try done; try apply not_elem_of_nil.
    intros Hin. by apply elem_of_nil in Hin.
Qed.

Lemma step_Inv cn d plat c w w' :
  Inv cn d w → step plat c w = Some ((), w') → Inv cn d w'.
Proof.
  intros HI Hstep. destruct w as [[cx|] h t]; cycle 1.
  { destruct c; simpl in Hstep; try discriminate.
    unfold pquv_queue, discard_query in Hstep. minv; try done;
      by apply freed_inv_discard. }
  destruct c as [a s n ps cb qd|e|e status|]; unfold step in Hstep.
  - assert ((∀ q, calloc_query a = Some q → h !! q = None) ∨
            ∃ q nq, calloc_query a = Some q ∧ h !! q = Some nq)
      as [Hfresh|(q & nq & Hcal & Hlive)].
    { destruct (calloc_query a) as [q|]; [|by left].
      destruct (h !! q) as [nq|] eqn:Hlive; [right; eauto|].
      left. by intros ? [= <-]. }
    + assert ((0 < n → ∀ l, ps = Some l → (Z.to_nat n ≤ length l)%nat) ∨
              ∃ l, (0 <? n) = true ∧ ps = Some l ∧
                   (Z.to_nat n <=? length l)%nat = false)
        as [Hlen|(l & Hn & -> & Hlen)].
      { destruct (0 <? n) eqn:Hn; [|left; intros Hlt%Z.ltb_lt; congruence].
        destruct ps as [l|]; [|by left].
        destruct (Z.to_nat n <=? length l)%nat eqn:Hlen; [|right; eauto].
        left. intros _ ? [= <-]. by apply Nat.leb_le. }
      * destruct (pquv_queue_safe cn d a s n ps cb qd cx h t HI Hfresh Hlen)
          as (r & w1 & Hq & HI1).
        rewrite (bind_call _ _ _ _ _ Hq) in Hstep. by injection Hstep as <-.
      * unfold pquv_queue in Hstep. destruct s as [s|]; cycle 1.
        { by injection Hstep as <-. }
        destruct (calloc_query a) as [q|] eqn:Hcal; cycle 1.
        { by injection Hstep as <-. }
        unfold bind at 1 2 in Hstep. unfold fresh in Hstep. simpl in Hstep.
        rewrite (Hfresh q eq_refl) in Hstep.
        destruct (strdup (strdup_sql_ok a) s); cycle 1.
        { injection Hstep as <-.
          apply (Inv_quiet cn d cx h t [EvFreeQuery q]); [|done].
          by repeat constructor. }
        rewrite Hn in Hstep. unfold bind at 1 in Hstep.
        destruct (malloc_params_ok a); simpl in Hstep.
        -- by rewrite Hlen in Hstep.
        -- injection Hstep as <-.
           apply (Inv_quiet cn d cx h t [EvFreeQuery q]); [|done].
           by repeat constructor.
    + unfold pquv_queue in Hstep. rewrite Hcal in Hstep.
      destruct s.
      * unfold bind, fresh in Hstep. simpl in Hstep.
        by rewrite Hlive in Hstep.
      * by injection Hstep as <-.
  - destruct (first_refused_dec plat e cx) as [Href|Hno].
    { destruct HI as [[l [Hc _]] _].
      unfold bind in Hstep.
      by rewrite (pquv_execute_refused plat e cx h t l Href Hc) in Hstep. }
    destruct (pquv_execute_safe cn d plat e cx h t HI Hno)
      as (r & w1 & Hq & HI1).
    rewrite (bind_call _ _ _ _ _ Hq) in Hstep. by injection Hstep as <-.
  - rewrite bind_get_pg in Hstep.
    destruct (h_active (handle cx)) eqn:Hac; [|done].
    assert (handle_initialized cx = true) as Hi.
    { destruct HI as [_ (_ & _ & _ & _ & _ & _ & _ & _ & Hlive)].
      by apply Hlive. }
    destruct (on_ready_safe cn d plat e status cx h t HI Hi)
      as (r & w1 & Hq & HI1).
    rewrite Hq in Hstep. by injection Hstep as _ <-.
  - rewrite bind_get_pg in Hstep. destruct (h_closing (handle cx)); [|done].
    destruct (on_handle_closed_safe cn d cx h t HI) as (r & w1 & Hq & HI1).
    rewrite Hq in Hstep. by injection Hstep as _ <-.
Qed.

Lemma run_Inv cn d plat cs w w' :
  Inv cn d w → run plat cs w = Some ((), w') → Inv cn d w'.
Proof.
  revert w. induction cs as [|c cs IH]; intros w HI; simpl.
  - by intros [= <-].
  - intros Hrun. apply bind_inv in Hrun as ([] & w1 & Hstep & Hrun).
    eapply IH; [|done]. by eapply step_Inv.
Qed.

(** ** Batches: queueing *)

#[global] Arguments pquv_queue : simpl never.
#[global] Arguments pquv_execute : simpl never.
#[global] Arguments on_ready : simpl never.
#[global] Arguments on_handle_closed : simpl never.

Lemma holds_agree h h' ops :
  (∀ o, o ∈ ops → ∀ n, h !! op_addr o = Some n →
        ∃ n', h' !! op_addr o = Some n' ∧ set_next None n' = set_next None n) →
  holds h ops → holds h' ops.
Proof.
  unfold holds. rewrite !Forall_forall. intros Hag Hh o Ho.
  destruct (Hh o Ho) as (n & Hn & Hnode).
  destruct (Hag o Ho n Hn) as (n' & Hn' & Heq).
  exists n'. split; [done|]. unfold node_of in *. congruence.
Qed.

Lemma holds_delete h q ops :
  q ∉ map op_addr ops → holds h ops → holds (delete q h) ops.
Proof.
  intros Hq. apply holds_agree. intros o Ho n Hn. exists n. split; [|done].
  rewrite lookup_delete_ne; [done|]. intros ->. apply Hq.
  apply list_elem_of_In, in_map, list_elem_of_In, Ho.
Qed.

Lemma Idle_created calloc_ok cn ud pg :
  pquv_create calloc_ok (Some cn) ud = Some pg →
  Idle cn ud [] (world_of pg) ∧ trace (world_of pg) = [].
Proof.
  unfold pquv_create. destruct (PQstatus cn); [|done].
  destruct calloc_ok; [|done]. intros [= <-]. split; [|done].
  exists None. repeat split; try done.
  - constructor.
  - intros q [n Hn]. simpl in Hn. by rewrite lookup_empty in Hn.
Qed.

Lemma queue_step plat cn ud ops o w :
  Idle cn ud ops w → op_addr o ∉ map op_addr ops →
  ∃ w', step plat (queue_call o) w = Some ((), w') ∧
        Idle cn ud (ops ++ [o]) w' ∧ trace w' = trace w.
Proof.
  intros (qq & Hctx & Hc & Hh & Hdom) Hfresh.
  destruct w as [cx h t]. simpl in *. subst cx.
  assert (h !! op_addr o = None) as Hnone.
  { destruct (h !! op_addr o) eqn:Hl; [|done]. exfalso. apply Hfresh, Hdom. eauto. }
  set (c := idle_ctx cn ud qq (last (map op_addr ops))).
  assert (queue_is h c (map op_addr ops)) as Hq.
  { split; [done|]. split; [done|]. intros p [=]. }
  pose proof (queue_is_enqueued h c _ (op_addr o) (op_node o) Hq Hnone eq_refl)
    as Hq'.
  eexists. split.
  - unfold queue_call, step.
    erewrite bind_call; [reflexivity|].
    apply (pquv_queue_spec _ _ _ _ _ _ _ _ _ (op_addr o)); try done.
    + intros _ l [= <-]. unfold op_count. by rewrite Nat2Z.id.
    + intros p Hp. by apply (queue_is_tail h c (map op_addr ops) p).
  - split; [|done]. fold (op_node o).
    exists (query_queue (enqueued_ctx (op_addr o) c)).
    simpl. rewrite map_app. simpl. rewrite last_snoc.
    destruct Hq' as (Hc' & Ht' & _).
    split; [|split; [done|split]].
    + unfold enqueued_ctx, c. simpl. by destruct qq.
    + unfold holds. rewrite Forall_app. split.
      * apply (holds_agree h); [|done]. intros o' Ho' n Hn.
        assert (op_addr o' ≠ op_addr o) as Hne.
        { intros Heq. rewrite Heq in Hn. congruence. }
        unfold enqueued_heap.
        destruct (query_queue c), (query_queue_tail c) as [tl|];
          try (exists n; by rewrite lookup_insert_ne).
        destruct (h !! tl) as [ntl|] eqn:Htl;
          [|exists n; by rewrite lookup_insert_ne].
        destruct (decide (tl = op_addr o')) as [->|Hne'].
        -- rewrite lookup_insert_eq. rewrite Hn in Htl. injection Htl as <-.
           eauto.
        -- exists n. by rewrite !lookup_insert_ne.
      * constructor; [|constructor]. exists (op_node o). split; [|done].
        unfold enqueued_heap.
        destruct (query_queue c), (query_queue_tail c) as [tl|];
          try (by rewrite lookup_insert_eq).
        destruct (h !! tl) as [ntl|] eqn:Htl; [|by rewrite lookup_insert_eq].
        rewrite lookup_insert_ne by congruence. by rewrite lookup_insert_eq.
    + intros q [n Hn]. apply elem_of_app.
      destruct (decide (q = op_addr o)) as [->|Hne].
      { right. by apply list_elem_of_singleton. }
      left. apply Hdom. unfold enqueued_heap in Hn.
      destruct (query_queue c), (query_queue_tail c) as [tl|];
        try (rewrite lookup_insert_ne in Hn by done; by eauto).
      destruct (h !! tl) as [ntl|] eqn:Htl;
        [|rewrite lookup_insert_ne in Hn by done; by eauto].
      destruct (decide (tl = q)) as [->|Hne']; [eauto|].
      rewrite !lookup_insert_ne in Hn by done. eauto.
Qed.

Lemma queue_steps plat cn ud ops0 ops w :
  Idle cn ud ops0 w → NoDup (map op_addr (ops0 ++ ops)) →
  ∃ w', run plat (map queue_call ops) w = Some ((), w') ∧
        Idle cn ud (ops0 ++ ops) w' ∧ trace w' = trace w.
Proof.
  revert ops0 w. induction ops as [|o ops IH]; intros ops0 w HI Hnd.
  - exists w. rewrite app_nil_r. by repeat split.
  - replace (ops0 ++ o :: ops) with ((ops0 ++ [o]) ++ ops) in *
      by by rewrite <- app_assoc.
    destruct (queue_step plat cn ud ops0 o w HI) as (w1 & Hstep & HI1 & Ht1).
    { rewrite !map_app in Hnd. apply NoDup_app in Hnd as [Hnd _].
      apply NoDup_app in Hnd as (_ & Hnd & _). intros Hin.
      apply (Hnd _ Hin). simpl. by apply list_elem_of_singleton. }
    destruct (IH _ w1 HI1 Hnd) as (w2 & Hrun & HI2 & Ht2).
    exists w2. simpl. rewrite (bind_call _ _ _ _ _ Hstep).
    split; [done|]. split; [done|]. congruence.
Qed.

(** ** Batches: dispatch *)

Lemma dispatched_ok plat e c n h t l :
  sends_ok e →
  dispatched plat e c n h t l =
  {| ctx := Some (started (match plat with
                           | Posix => inited Posix c
                           | Win32 => with_data (inited Win32 c)
                           end));
     heap := h;
     trace := t ++ [send_event n; init_event plat (PQsocket e);
                    start_event plat] |}.
Proof.
  intros (Hs & Hsock & Hi & Hst). unfold dispatched.
  apply Z.eqb_neq in Hs. apply Z.ltb_ge in Hsock.
  rewrite Hs, Hi, Hst. destruct plat; simpl; rewrite ?Hsock; by tnorm.
Qed.

Lemma sends_ok_not_refused plat e : sends_ok e → refused_early plat e = false.
Proof.
  intros (Hs & Hsock & Hi & _). unfold refused_early.
  apply Z.eqb_neq in Hs. apply Z.ltb_ge in Hsock.
  rewrite Hs, Hi. destruct plat; simpl; by rewrite ?Hsock.
Qed.

Lemma send_event_node_of o n : node_of o n → send_event n = op_send o.
Proof.
  unfold node_of, op_send, send_event. intros <-. by destruct n.
Qed.

Lemma holds_head h o rest :
  holds h (o :: rest) → ∃ n, h !! op_addr o = Some n ∧ node_of o n.
Proof. intros Hh. by apply Forall_inv in Hh. Qed.

Lemma dispatch_running plat cn ud e c h t o rest :
  dispatchable cn ud c →
  chain h (query_queue c) (map op_addr (o :: rest)) →
  query_queue_tail c = last (map op_addr (o :: rest)) →
  holds h (o :: rest) → sends_ok e →
  ∃ w', execute_next_query plat e PgCtx
          {| ctx := Some c; heap := h; trace := t |} = Some ((), w') ∧
        Running plat cn ud o rest w' ∧
        trace w' = t ++ op_dispatch plat e o.
Proof.
  intros (Hconn & Hown & Hcon & Hex & Hd & Hdata & Herr & Hud) Hc Htl Hh Hok.
  pose proof (chain_NoDup _ _ _ Hc) as [Hnin _]%NoDup_cons.
  destruct Hc as [Hqq (n & Hn & Hc)].
  destruct (holds_head _ _ _ Hh) as (n' & Hn' & Hnode).
  rewrite Hn in Hn'. injection Hn' as <-.
  eexists. split.
  { apply (execute_next_query_nonempty _ _ _ (op_addr o) n _ _
             (map op_addr rest)); try done.
    intros _. right. by apply sends_ok_not_refused. }
  rewrite dispatched_ok by done. simpl.
  rewrite (send_event_node_of o n Hnode). split; [|done].
  exists (next n). simpl. split; [|by repeat split].
  f_equal. destruct c as [? ? ? ? ? [? ? ? ?] ? ? ? ? ?]. simpl in *. subst.
  unfold popped, started, inited, with_data, running_ctx.
  destruct rest as [|o' rest].
  - simpl in Hc. rewrite Hc. by destruct plat.
  - destruct Hc as [Hnext _]. rewrite Hnext. simpl. by destruct plat.
Qed.

Lemma execute_step plat cn ud e o rest w :
  Idle cn ud (o :: rest) w → sends_ok e →
  ∃ w', step plat (Execute e) w = Some ((), w') ∧
        Running plat cn ud o rest w' ∧
        trace w' = trace w ++ op_dispatch plat e o.
Proof.
  intros (qq & Hctx & Hc & Hh & _) Hok. destruct w as [cx h t].
  simpl in *. subst cx.
  destruct (dispatch_running plat cn ud e
    (set_is_executing true (idle_ctx cn ud qq (last (map op_addr (o :: rest)))))
    h t o rest) as (w' & Hex & HR & Ht); try done.
  exists w'. split; [|done]. unfold step.
  erewrite bind_call; [reflexivity|].
  rewrite pquv_execute_unfold. simpl.
  destruct Hc as [-> _]. by rewrite (bind_call _ _ _ _ _ Hex).
Qed.

Lemma execute_empty plat cn ud e w :
  Idle cn ud [] w →
  ∃ w', step plat (Execute e) w = Some ((), w') ∧
        ctx w' = None ∧ trace w' = trace w ++ [EvFreeCtx].
Proof.
  intros (qq & Hctx & Hc & _). destruct w as [cx h t]. simpl in *. subst.
  eexists. split.
  - unfold step. erewrite bind_call; [reflexivity|].
    rewrite pquv_execute_unfold. simpl.
    erewrite bind_call; [reflexivity|].
    by apply (pg_async_destroy_spec _ _ _ _ _ []).
  - unfold destroyed. simpl. by rewrite app_nil_r.
Qed.

(** ** Batches: wake-ups *)

Lemma cb_events_op c h o n r :
  current_query c = Some (op_addr o) → h !! op_addr o = Some n →
  node_of o n → cb_events c h r = op_callbacks o [r].
Proof.
  unfold cb_events, op_callbacks, node_of. intros -> -> Hnode.
  assert (result_cb n = op_cb o ∧ data n = op_data o) as [-> ->].
  { split.
    - apply (f_equal result_cb) in Hnode. by destruct n.
    - apply (f_equal data) in Hnode. by destruct n. }
  by destruct (op_cb o).
Qed.

Lemma delivered_op c h o n rs :
  current_query c = Some (op_addr o) → h !! op_addr o = Some n →
  node_of o n → delivered c h rs = op_delivered o rs.
Proof.
  intros Hc Hn Hnode. unfold delivered, op_delivered.
  induction rs as [|r rs IH]; [done|]. simpl.
  by rewrite IH, (cb_events_op c h o n r).
Qed.

Lemma busy_step plat cn ud o rest w x :
  Running plat cn ud o rest w → still_busy x →
  ∃ w', step plat (fire x) w = Some ((), w') ∧
        Running plat cn ud o rest w' ∧
        trace w' = trace w ++ [EvPQconsumeInput].
Proof.
  intros (qq & Hctx & Hc & Hnin & Hh) (Hst & Hco & Hb).
  destruct w as [cx h t]. simpl in *. subst cx.
  eexists. split.
  - unfold fire, step. rewrite bind_get_pg. simpl.
    by apply on_ready_busy.
  - split; [|done]. by exists qq.
Qed.

Lemma busy_steps plat cn ud o rest w xs :
  Running plat cn ud o rest w → Forall still_busy xs →
  ∃ w', run plat (map fire xs) w = Some ((), w') ∧
        Running plat cn ud o rest w' ∧
        trace w' = trace w ++ map (λ _, EvPQconsumeInput) xs.
Proof.
  revert w. induction xs as [|x xs IH]; intros w HR Hxs.
  - exists w. rewrite app_nil_r. by repeat split.
  - apply Forall_cons in Hxs as [Hx Hxs].
    destruct (busy_step _ _ _ _ _ _ x HR Hx) as (w1 & Hstep & HR1 & Ht1).
    destruct (IH w1 HR1 Hxs) as (w2 & Hrun & HR2 & Ht2).
    exists w2. simpl. rewrite (bind_call _ _ _ _ _ Hstep).
    split; [done|]. split; [done|]. rewrite Ht2, Ht1. by tnorm.
Qed.

Lemma drained_running plat cn ud o qq tl h t n rs :
  h !! op_addr o = Some n → node_of o n →
  drained plat (running_ctx plat cn ud (op_addr o) qq tl) h t rs =
  {| ctx := Some (set_current_query None (stopped
              (running_ctx plat cn ud (op_addr o) qq tl)));
     heap := delete (op_addr o) h;
     trace := t ++ op_drain plat o rs |}.
Proof.
  intros Hn Hnode. unfold drained, drained_trace, op_drain, released,
    release_events.
  rewrite (delivered_op _ h o n rs) by done. simpl.
  destruct plat; by tnorm.
Qed.

Lemma done_step_next plat cn ud o o' rest w x :
  Running plat cn ud o (o' :: rest) w → ready x →
  all_ok (results (fst x)) = true → sends_ok (fst x) →
  ∃ w', step plat (fire x) w = Some ((), w') ∧
        Running plat cn ud o' rest w' ∧
        trace w' = trace w ++ op_drain plat o (results (fst x)) ++
                     op_dispatch plat (fst x) o'.
Proof.
  intros (qq & Hctx & Hc & Hnin & Hh) (Hst & Hco & Hb) Hok Hsend.
  destruct w as [cx h t]. simpl in *. subst cx.
  destruct (holds_head _ _ _ Hh) as (n & Hn & Hnode).
  apply Forall_cons in Hh as [_ Hh].
  destruct (dispatch_running plat cn ud (fst x)
    (set_current_query None (stopped
       (running_ctx plat cn ud (op_addr o) qq
          (last (map op_addr (o' :: rest))))))
    (delete (op_addr o) h)
    (t ++ op_drain plat o (results (fst x))) o' rest)
    as (w' & Hex & HR & Ht); try done.
  { by apply chain_delete. }
  { by apply holds_delete. }
  exists w'. split; [|split; [done|]].
  - unfold fire, step. rewrite bind_get_pg. simpl.
    rewrite on_ready_drained; try done; try (by destruct plat).
    + by rewrite (drained_running _ _ _ _ _ _ _ _ n).
    + intros p [= <-]. eauto.
  - rewrite Ht. by tnorm.
Qed.

Lemma done_step_last plat cn ud o w x :
  Running plat cn ud o [] w → ready x →
  all_ok (results (fst x)) = true →
  ∃ w' c', step plat (fire x) w = Some ((), w') ∧
           ctx w' = Some c' ∧ destroying c' = true ∧
           h_closing (handle c') = true ∧ h_active (handle c') = false ∧
           trace w' = trace w ++ op_drain plat o (results (fst x)) ++
                        [Ev_uv_close].
Proof.
  intros (qq & Hctx & Hc & Hnin & Hh) (Hst & Hco & Hb) Hok.
  destruct w as [cx h t]. simpl in *. subst cx qq.
  destruct (holds_head _ _ _ Hh) as (n & Hn & Hnode).
  eexists _, _. split.
  - unfold fire, step. rewrite bind_get_pg. simpl.
    rewrite on_ready_drained; try done; try (by destruct plat).
    + rewrite (drained_running _ _ _ _ _ _ _ _ n) by done.
      rewrite execute_next_query_empty by done.
      by apply (pg_async_destroy_spec _ _ _ _ _ []).
    + intros p [= <-]. eauto.
  - unfold destroyed. destruct plat; simpl; repeat split; by tnorm.
Qed.

(** ** Batches: whole runs *)

Lemma run_app plat cs1 cs2 w w1 :
  run plat cs1 w = Some ((), w1) →
  run plat (cs1 ++ cs2) w = run plat cs2 w1.
Proof.
  revert w. induction cs1 as [|c cs1 IH]; intros w; simpl.
  - by intros [= ->].
  - intros Hrun. apply bind_inv in Hrun as ([] & w' & Hstep & Hrun).
    rewrite (bind_call _ _ _ _ _ Hstep). by apply IH.
Qed.

Lemma run_single plat c w : run plat [c] w = step plat c w.
Proof.
  simpl. unfold bind. destruct (step plat c w) as [[[] w']|]; done.
Qed.

Lemma op_run_last plat cn ud o w :
  Running plat cn ud o [] w → op_succeeds o →
  ∃ w' c', run plat (wake_calls o) w = Some ((), w') ∧
           ctx w' = Some c' ∧ destroying c' = true ∧
           h_closing (handle c') = true ∧ h_active (handle c') = false ∧
           trace w' = trace w ++ run_trace plat o [].
Proof.
  intros HR (Hbusy & Hready & Hok & _).
  destruct (busy_steps _ _ _ _ _ _ _ HR Hbusy) as (w1 & Hrun1 & HR1 & Ht1).
  destruct (done_step_last _ _ _ _ _ _ HR1 Hready Hok)
    as (w2 & c2 & Hstep & Hctx & Hd & Hcl & Hac & Ht2).
  exists w2, c2. unfold wake_calls.
  rewrite (run_app _ _ _ _ _ Hrun1), run_single.
  repeat split; try done.
  rewrite Ht2, Ht1. unfold op_results. simpl. by tnorm.
Qed.

Lemma op_run_next plat cn ud o o' rest w :
  Running plat cn ud o (o' :: rest) w → op_succeeds o →
  ∃ w', run plat (wake_calls o) w = Some ((), w') ∧
        Running plat cn ud o' rest w' ∧
        trace w' = trace w ++
          map (λ _, EvPQconsumeInput) (op_busy o) ++
          op_drain plat o (op_results o) ++
          op_dispatch plat (fst (op_done o)) o'.
Proof.
  intros HR (Hbusy & Hready & Hok & Hsend).
  destruct (busy_steps _ _ _ _ _ _ _ HR Hbusy) as (w1 & Hrun1 & HR1 & Ht1).
  destruct (done_step_next _ _ _ _ _ _ _ _ HR1 Hready Hok Hsend)
    as (w2 & Hstep & HR2 & Ht2).
  exists w2. unfold wake_calls.
  rewrite (run_app _ _ _ _ _ Hrun1), run_single.
  repeat split; try done.
  rewrite Ht2, Ht1. unfold op_results. by tnorm.
Qed.

Lemma ops_run plat cn ud o rest w :
  Running plat cn ud o rest w → Forall op_succeeds (o :: rest) →
  ∃ w' c', run plat (flat_map wake_calls (o :: rest)) w = Some ((), w') ∧
           ctx w' = Some c' ∧ destroying c' = true ∧
           h_closing (handle c') = true ∧ h_active (handle c') = false ∧
           trace w' = trace w ++ run_trace plat o rest.
Proof.
  revert o w. induction rest as [|o' rest IH]; intros o w HR Hok.
  - apply Forall_cons in Hok as [Ho _]. simpl. rewrite app_nil_r.
    by apply (op_run_last _ cn ud).
  - apply Forall_cons in Hok as [Ho Hok].
    destruct (op_run_next _ _ _ _ _ _ _ HR Ho) as (w1 & Hrun1 & HR1 & Ht1).
    destruct (IH _ _ HR1 Hok) as (w2 & c2 & Hrun2 & Hctx & Hd & Hcl & Hac & Ht2).
    exists w2, c2.
    change (flat_map wake_calls (o :: o' :: rest))
      with (wake_calls o ++ flat_map wake_calls (o' :: rest)).
    rewrite (run_app _ _ _ _ _ Hrun1).
    repeat split; try done. rewrite Ht2, Ht1. simpl. by tnorm.
Qed.

Lemma prefix_run plat cn ud o pre k post w :
  Running plat cn ud o (pre ++ k :: post) w → Forall op_succeeds (o :: pre) →
  ∃ w', run plat (flat_map wake_calls (o :: pre)) w = Some ((), w') ∧
        Running plat cn ud k post w' ∧
        trace w' = trace w ++ prefix_trace plat o pre k.
Proof.
  revert o w. induction pre as [|o' pre IH]; intros o w HR Hok.
  - apply Forall_cons in Hok as [Ho _]. simpl. rewrite app_nil_r.
    by apply (op_run_next _ cn ud).
  - apply Forall_cons in Hok as [Ho Hok].
    destruct (op_run_next _ _ _ _ _ _ _ HR Ho) as (w1 & Hrun1 & HR1 & Ht1).
    destruct (IH _ _ HR1 Hok) as (w2 & Hrun2 & HR2 & Ht2).
    exists w2.
    change (flat_map wake_calls (o :: o' :: pre))
      with (wake_calls o ++ flat_map wake_calls (o' :: pre)).
    rewrite (run_app _ _ _ _ _ Hrun1).
    repeat split; try done. rewrite Ht2, Ht1. simpl. by tnorm.
Qed.

Lemma batch_run plat calloc_ok cn ud pg e0 ops :
  pquv_create calloc_ok (Some cn) ud = Some pg →
  NoDup (map op_addr ops) → sends_ok e0 → Forall op_succeeds ops →
  ∃ w, run plat (batch e0 ops) (world_of pg) = Some ((), w) ∧
       trace w = batch_trace plat e0 ops ∧
       match ops with
       | [] => ctx w = None
       | _ => ∃ c, ctx w = Some c ∧ destroying c = true ∧
                   h_closing (handle c) = true ∧ h_active (handle c) = false
       end.
Proof.
  intros Hpg Hnd Hsend Hok.
  destruct (Idle_created _ _ _ _ Hpg) as [HI Ht0].
  destruct (queue_steps plat cn ud [] ops _ HI Hnd) as (w1 & Hrun1 & HI1 & Ht1).
  simpl in HI1. unfold batch. rewrite (run_app _ _ _ _ _ Hrun1).
  destruct ops as [|o rest].
  - destruct (execute_empty plat cn ud e0 w1 HI1) as (w2 & Hstep & Hctx & Ht2).
    exists w2. simpl. rewrite (bind_call _ _ _ _ _ Hstep).
    repeat split; try done. rewrite Ht2, Ht1, Ht0. done.
  - destruct (execute_step plat cn ud e0 o rest w1 HI1 Hsend)
      as (w2 & Hstep & HR & Ht2).
    destruct (ops_run _ _ _ _ _ _ HR Hok)
      as (w3 & c3 & Hrun3 & Hctx & Hd & Hcl & Hac & Ht3).
    exists w3.
    change (Execute e0 :: flat_map wake_calls (o :: rest))
      with ([Execute e0] ++ flat_map wake_calls (o :: rest)).
    assert (run plat [Execute e0] w1 = Some ((), w2)) as Hrun2.
    { by rewrite run_single. }
    rewrite (run_app _ _ _ _ _ Hrun2).
    split; [done|]. split; [|by exists c3].
    rewrite Ht3, Ht2, Ht1, Ht0. done.
Qed.

(** ** Projections of batch traces *)

Lemma callbacks_app t1 t2 : callbacks (t1 ++ t2) = callbacks t1 ++ callbacks t2.
Proof. apply List.filter_app. Qed.

Lemma sends_app t1 t2 : sends (t1 ++ t2) = sends t1 ++ sends t2.
Proof. apply List.filter_app. Qed.

Lemma callbacks_busy {A} (xs : list A) :
  callbacks (map (λ _, EvPQconsumeInput) xs) = [].
Proof. by induction xs. Qed.

Lemma sends_busy {A} (xs : list A) :
  sends (map (λ _, EvPQconsumeInput) xs) = [].
Proof. by induction xs. Qed.

Lemma callbacks_op_callbacks o rs :
  callbacks (op_callbacks o rs) = op_callbacks o rs.
Proof. unfold op_callbacks. destruct (op_cb o); [|done]. by induction rs; simpl; f_equal. Qed.

Lemma sends_op_callbacks o rs : sends (op_callbacks o rs) = [].
Proof. unfold op_callbacks. destruct (op_cb o); [|done]. by induction rs. Qed.

Lemma op_callbacks_cons o r rs :
  op_callbacks o (r :: rs) = op_callbacks o [r] ++ op_callbacks o rs.
Proof. unfold op_callbacks. by destruct (op_cb o). Qed.

Lemma callbacks_delivered o rs :
  callbacks (op_delivered o rs) = op_callbacks o rs.
Proof.
  unfold op_delivered. induction rs as [|r rs IH].
  - unfold op_callbacks. by destruct (op_cb o).
  - rewrite (op_callbacks_cons o r rs).
    change (callbacks (([EvPQgetResult] ++ op_callbacks o [r] ++ [EvPQclear r])
              ++ op_delivered o rs) =
            op_callbacks o [r] ++ op_callbacks o rs).
    rewrite !callbacks_app, callbacks_op_callbacks. unfold op_delivered.
    rewrite IH. simpl. by rewrite app_nil_r.
Qed.

Lemma sends_delivered o rs : sends (op_delivered o rs) = [].
Proof.
  unfold op_delivered. induction rs as [|r rs IH]; [done|].
  change (sends (([EvPQgetResult] ++ op_callbacks o [r] ++ [EvPQclear r])
            ++ op_delivered o rs) = []).
  rewrite !sends_app, sends_op_callbacks. unfold op_delivered.
  by rewrite IH.
Qed.

Lemma callbacks_drain plat o rs :
  callbacks (op_drain plat o rs) = op_callbacks o rs.
Proof.
  unfold op_drain.
  destruct plat; rewrite !callbacks_app, callbacks_delivered; simpl;
    by rewrite app_nil_r.
Qed.

Lemma sends_drain plat o rs : sends (op_drain plat o rs) = [].
Proof.
  unfold op_drain. destruct plat; by rewrite !sends_app, sends_delivered.
Qed.

Lemma is_callback_send n : is_callback (send_event n) = false.
Proof. unfold send_event. by destruct (0 <? param_count n). Qed.

Lemma is_send_send n : is_send (send_event n) = true.
Proof. unfold send_event. by destruct (0 <? param_count n). Qed.

Lemma callbacks_dispatch plat e o : callbacks (op_dispatch plat e o) = [].
Proof.
  unfold op_dispatch, callbacks, op_send. simpl.
  rewrite is_callback_send. by destruct plat.
Qed.

Lemma sends_dispatch plat e o : sends (op_dispatch plat e o) = [op_send o].
Proof.
  unfold op_dispatch, sends, op_send. simpl.
  rewrite is_send_send. by destruct plat.
Qed.

Lemma run_trace_nil plat o :
  run_trace plat o [] =
  map (λ _, EvPQconsumeInput) (op_busy o) ++
  op_drain plat o (op_results o) ++ [Ev_uv_close].
Proof. reflexivity. Qed.

Lemma run_trace_cons plat o o' rest :
  run_trace plat o (o' :: rest) =
  map (λ _, EvPQconsumeInput) (op_busy o) ++
  op_drain plat o (op_results o) ++
  op_dispatch plat (fst (op_done o)) o' ++ run_trace plat o' rest.
Proof. reflexivity. Qed.

Lemma callbacks_run_trace plat o rest :
  callbacks (run_trace plat o rest) =
  flat_map (λ o, op_callbacks o (op_results o)) (o :: rest).
Proof.
  revert o. induction rest as [|o' rest IH]; intros o.
  - rewrite run_trace_nil, !callbacks_app, callbacks_busy, callbacks_drain.
    simpl. by rewrite app_nil_r.
  - rewrite run_trace_cons, !callbacks_app, callbacks_busy, callbacks_drain,
      callbacks_dispatch, IH. done.
Qed.

Lemma sends_run_trace plat o rest :
  sends (run_trace plat o rest) = map op_send rest.
Proof.
  revert o. induction rest as [|o' rest IH]; intros o.
  - by rewrite run_trace_nil, !sends_app, sends_busy, sends_drain.
  - rewrite run_trace_cons, !sends_app, sends_busy, sends_drain,
      sends_dispatch, IH. done.
Qed.

Lemma quiet_op_callbacks o rs : Forall quiet (op_callbacks o rs).
Proof.
  unfold op_callbacks. destruct (op_cb o); [|constructor].
  induction rs; by repeat constructor.
Qed.

Lemma quiet_op_delivered o rs : Forall quiet (op_delivered o rs).
Proof.
  unfold op_delivered. induction rs as [|r rs IH]; simpl; [constructor|].
  constructor; [done|]. rewrite <- app_assoc.
  apply Forall_app; split; [apply quiet_op_callbacks|].
  by constructor.
Qed.

Lemma quiet_op_drain plat o rs : Forall quiet (op_drain plat o rs).
Proof.
  unfold op_drain. destruct plat.
  - apply Forall_app; split; [by repeat constructor|].
    apply Forall_app; split; [apply quiet_op_delivered|by repeat constructor].
  - apply (Forall_app _ [_; _]); split; [by repeat constructor|].
    apply Forall_app; split; [apply quiet_op_delivered|by repeat constructor].
Qed.

Lemma quiet_op_dispatch plat e o : Forall quiet (op_dispatch plat e o).
Proof.
  unfold op_dispatch, op_send.
  repeat constructor; try apply quiet_send; by destruct plat.
Qed.

Lemma quiet_busy {A} (xs : list A) :
  Forall quiet (map (λ _, EvPQconsumeInput) xs).
Proof. induction xs; by repeat constructor. Qed.

(** In a batch without failure the destruction of the context starts with
    the very last call. *)
Lemma run_trace_ends plat o rest :
  ∃ t, run_trace plat o rest = t ++ [Ev_uv_close] ∧ Forall quiet t.
Proof.
  revert o. induction rest as [|o' rest IH]; intros o.
  - rewrite run_trace_nil. eexists. rewrite !app_assoc. split; [reflexivity|].
    apply Forall_app; split; [apply quiet_busy|apply quiet_op_drain].
  - rewrite run_trace_cons. destruct (IH o') as (t & -> & Hq). eexists.
    rewrite !app_assoc. split; [reflexivity|].
    rewrite <- !app_assoc.
    repeat (apply Forall_app; split);
      auto using quiet_busy, quiet_op_drain, quiet_op_dispatch.
Qed.

(** ** Parameters *)

Lemma copy_params_length a n ps : length (copy_params a n ps) = n.
Proof. unfold copy_params. by rewrite length_map, length_seq. Qed.

Lemma copy_params_nth a n ps i :
  (i < n)%nat →
  nth i (copy_params a n ps) None =
  match nth i ps None with
  | Some s => strdup (strdup_param_ok a i) s
  | None => None
  end.
Proof.
  intros Hi. unfold copy_params.
  rewrite (nth_indep _ None
    (match nth 0 ps None with
     | Some s => strdup (strdup_param_ok a 0) s
     | None => None
     end)) by (by rewrite length_map, length_seq).
  rewrite (map_nth (λ i, match nth i ps None with
                         | Some s => strdup (strdup_param_ok a i) s
                         | None => None
                         end) (seq 0 n) 0%nat i).
  by rewrite seq_nth.
Qed.

Lemma copy_params_id a ps :
  (∀ i, strdup_param_ok a i = true) → copy_params a (length ps) ps = ps.
Proof.
  intros Hok. apply (nth_ext _ _ None None).
  - apply copy_params_length.
  - intros i Hi. rewrite copy_params_length in Hi.
    rewrite copy_params_nth by done. rewrite Hok.
    by destruct (nth i ps None).
Qed.

Lemma op_send_unfold o :
  op_send o =
  if 0 <? op_count o
  then EvPQsendQueryParams (op_sql o) (op_count o) (Some (op_handed o))
  else EvPQsendQuery (op_sql o).
Proof.
  unfold op_send, send_event, op_node, new_node, op_handed, op_count. simpl.
  destruct (0 <? Z.of_nat (length (op_params o))); [|done].
  by rewrite Nat2Z.id.
Qed.

(** ** Once destruction began *)

Lemma on_poll_destroying e status c h t :
  destroying c = true →
  on_poll e UvHandle status {| ctx := Some c; heap := h; trace := t |} =
  Some ((), {| ctx := Some c; heap := h; trace := t |}).
Proof.
  intros Hd. unfold on_poll. mstep.
  destruct (h_data (handle c)); [done|]. mstep. by rewrite Hd.
Qed.

Lemma on_timer_destroying e c h t :
  destroying c = true →
  on_timer e UvHandle {| ctx := Some c; heap := h; trace := t |} =
  Some ((), {| ctx := Some c; heap := h; trace := t |}).
Proof.
  intros Hd. unfold on_timer. mstep.
  destruct (h_data (handle c)); [done|]. mstep. by rewrite Hd.
Qed.

Lemma Inv_destroying cn w c :
  Inv cn false w → ctx w = Some c → destroying c = true → Inv cn true w.
Proof.
  unfold Inv. intros HI Hctx Hd. rewrite Hctx in *.
  destruct HI as [Hq Hs]. split; [done|].
  destruct Hs as (? & ? & ? & _ & ?). unfold ctx_side. tauto.
Qed.

Lemma closing_destroyed c :
  h_closing (handle (finished (cancelled (set_destroying true c)))) =
  h_closing (handle c).
Proof.
  unfold finished, cancelled. destruct_ctx c.
  repeat (match goal with
          | |- context [if ?b then _ else _] => destruct b
          | |- context [match ?o with Some _ => _ | None => _ end] =>
              destruct o
          end; simpl); done.
Qed.

Lemma destroying_destroyed c :
  destroying (finished (cancelled (set_destroying true c))) = true.
Proof.
  unfold finished, cancelled. destruct_ctx c.
  repeat (match goal with
          | |- context [if ?b then _ else _] => destruct b
          | |- context [match ?o with Some _ => _ | None => _ end] =>
              destruct o
          end; simpl); done.
Qed.

(** ** A refused dispatch *)

Lemma failed_keeps_current plat e c error h t l p :
  queue_is h c l → current_query c = Some p →
  heap (failed plat e c error h t l) !! p = h !! p ∧
  (EvFreeQuery p ∈ trace (failed plat e c error h t l) → EvFreeQuery p ∈ t).
Proof.
  intros (_ & _ & Hcur) Hp. destruct (Hcur p Hp) as [Hnin _].
  unfold failed, destroyed. split.
  - destruct (destroying c), (handle_initialized (errored e c error)),
      (h_closing (handle (errored e c error))); simpl;
      rewrite drop_all_lookup; by destruct (decide (p ∈ l)).
  - assert (EvFreeQuery p ∉ map EvFreeQuery l) as Hnot.
    { intros Hin. apply list_elem_of_In, in_map_iff in Hin as (q & [= ->] & Hq).
      by apply Hnin, list_elem_of_In. }
    assert (∀ x, x ∈ finish_events (errored e c error) → x = EvPQfinish)
      as Hfin.
    { intros x. unfold finish_events.
      destruct (conn _); [destruct (owns_connection _)|];
        rewrite ?list_elem_of_singleton, ?elem_of_nil; tauto. }
    destruct (destroying c), (handle_initialized (errored e c error)),
      (h_closing (handle (errored e c error))); simpl;
      intros Hin;
      repeat first
        [ done
        | apply elem_of_app in Hin as [Hin|Hin]
        | apply elem_of_cons in Hin as [Hin|Hin]
        | apply elem_of_nil in Hin; destruct Hin
        | apply elem_of_cancel_events in Hin as [Hin|Hin]
        | apply Hfin in Hin
        | discriminate Hin
        | (match type of Hin with
           | _ = stop_event ?p => destruct p; discriminate Hin
           | _ ∈ (if ?b then _ else _) => destruct b
           end) ].
Qed.

(** ** Batches: a failing result *)

Lemma fail_step plat cn ud k post w x good bad more :
  Running plat cn ud k post w → ready x →
  results (fst x) = good ++ bad :: more →
  all_ok good = true → status_ok (PQresultStatus bad) = false →
  ∃ w' c', step plat (fire x) w = Some ((), w') ∧
           ctx w' = Some c' ∧ shut_down c' ∧
           trace w' = trace w ++ op_abort plat k good bad (map op_addr post).
Proof.
  intros (qq & Hctx & Hc & Hnin & Hh) (Hst & Hco & Hb) Hrs Hok Hbad.
  destruct w as [cx h t]. simpl in *. subst cx.
  destruct (holds_head _ _ _ Hh) as (n & Hn & Hnode).
  eexists _, _. split.
  - unfold fire, step. rewrite bind_get_pg. simpl.
    apply (on_ready_failed _ _ _ _ _ _ (map op_addr post) good bad more);
      try done; try (by destruct plat).
    intros p [= <-]. eauto.
  - unfold drain_failed, failed, destroyed, op_abort, released, release_events.
    destruct plat; simpl;
      rewrite (delivered_op _ h k n good), (cb_events_op _ h k n bad) by done;
      (split; [reflexivity|]); (split; [by repeat split|]); by tnorm.
Qed.

Lemma op_run_fail plat cn ud k post w good bad more :
  Running plat cn ud k post w →
  Forall still_busy (op_busy k) → ready (op_done k) →
  op_results k = good ++ bad :: more →
  all_ok good = true → status_ok (PQresultStatus bad) = false →
  ∃ w' c', run plat (wake_calls k) w = Some ((), w') ∧
           ctx w' = Some c' ∧ shut_down c' ∧
           trace w' = trace w ++
             map (λ _, EvPQconsumeInput) (op_busy k) ++
             op_abort plat k good bad (map op_addr post).
Proof.
  intros HR Hbusy Hready Hrs Hok Hbad.
  destruct (busy_steps _ _ _ _ _ _ _ HR Hbusy) as (w1 & Hrun1 & HR1 & Ht1).
  destruct (fail_step _ _ _ _ _ _ _ _ _ _ HR1 Hready Hrs Hok Hbad)
    as (w2 & c2 & Hstep & Hctx & Hshut & Ht2).
  exists w2, c2. unfold wake_calls.
  rewrite (run_app _ _ _ _ _ Hrun1), run_single.
  repeat split; try done; try apply Hshut.
  rewrite Ht2, Ht1. by tnorm.
Qed.

(** After the error funnel, libuv has nothing left to call but the
    completion of the close. *)
Lemma shut_down_quiet plat w c cs w' :
  ctx w = Some c → shut_down c → Forall is_reactor cs →
  run plat cs w = Some ((), w') →
  callbacks (trace w') = callbacks (trace w) ∧
  sends (trace w') = sends (trace w).
Proof.
  intros Hctx (Hd & Hex & Hqq & Htl & Hcur & Hac & Hcl & Hdata) Hcs Hrun.
  destruct w as [cx h t]. simpl in Hctx. subst cx.
  destruct cs as [|c1 cs]; [by injection Hrun as <-|].
  apply Forall_cons in Hcs as [Hc1 Hcs].
  simpl in Hrun. apply bind_inv in Hrun as ([] & w1 & Hstep & Hrun).
  destruct c1 as [| |e status|]; try done; unfold step in Hstep;
    rewrite bind_get_pg in Hstep.
  - by rewrite Hac in Hstep.
  - rewrite Hcl in Hstep. rewrite on_handle_closed_spec in Hstep by done.
    injection Hstep as <-.
    destruct cs as [|c2 cs].
    + injection Hrun as <-. simpl.
      by rewrite !callbacks_app, !sends_app, !app_nil_r.
    + apply Forall_cons in Hcs as [Hc2 _]. simpl in Hrun.
      apply bind_inv in Hrun as ([] & w2 & Hstep & _).
      destruct c2; done.
Qed.

Lemma prefix_trace_nil plat o k :
  prefix_trace plat o [] k =
  map (λ _, EvPQconsumeInput) (op_busy o) ++
  op_drain plat o (op_results o) ++ op_dispatch plat (fst (op_done o)) k.
Proof. reflexivity. Qed.

Lemma prefix_trace_cons plat o o' pre k :
  prefix_trace plat o (o' :: pre) k =
  map (λ _, EvPQconsumeInput) (op_busy o) ++
  op_drain plat o (op_results o) ++
  op_dispatch plat (fst (op_done o)) o' ++ prefix_trace plat o' pre k.
Proof. reflexivity. Qed.

Lemma callbacks_prefix_trace plat o pre k :
  callbacks (prefix_trace plat o pre k) =
  flat_map (λ o, op_callbacks o (op_results o)) (o :: pre).
Proof.
  revert o. induction pre as [|o' pre IH]; intros o.
  - rewrite prefix_trace_nil, !callbacks_app, callbacks_busy, callbacks_drain,
      callbacks_dispatch. simpl. by rewrite !app_nil_r.
  - rewrite prefix_trace_cons, !callbacks_app, callbacks_busy, callbacks_drain,
      callbacks_dispatch, IH. done.
Qed.

Lemma sends_prefix_trace plat o pre k :
  sends (prefix_trace plat o pre k) = map op_send (pre ++ [k]).
Proof.
  revert o. induction pre as [|o' pre IH]; intros o.
  - by rewrite prefix_trace_nil, !sends_app, sends_busy, sends_drain,
      sends_dispatch.
  - rewrite prefix_trace_cons, !sends_app, sends_busy, sends_drain,
      sends_dispatch, IH. done.
Qed.

Lemma callbacks_frees l : callbacks (map EvFreeQuery l) = [].
Proof. by induction l. Qed.

Lemma sends_frees l : sends (map EvFreeQuery l) = [].
Proof. by induction l. Qed.

Lemma op_callbacks_app o rs1 rs2 :
  op_callbacks o (rs1 ++ rs2) = op_callbacks o rs1 ++ op_callbacks o rs2.
Proof. unfold op_callbacks. destruct (op_cb o); [|done]. apply map_app. Qed.

Lemma callbacks_abort plat k good bad rest :
  callbacks (op_abort plat k good bad rest) = op_callbacks k (good ++ [bad]).
Proof.
  unfold op_abort. rewrite op_callbacks_app.
  destruct plat;
    change (EvPQgetResult :: ?a) with ([EvPQgetResult] ++ a);
    rewrite !callbacks_app, callbacks_delivered, callbacks_op_callbacks,
      callbacks_frees; simpl; by rewrite !app_nil_r.
Qed.

Lemma sends_abort plat k good bad rest :
  sends (op_abort plat k good bad rest) = [].
Proof.
  unfold op_abort.
  destruct plat;
    change (EvPQgetResult :: ?a) with ([EvPQgetResult] ++ a);
    by rewrite !sends_app, sends_delivered, sends_op_callbacks, sends_frees.
Qed.

#[global] Arguments op_dispatch : simpl never.
#[global] Arguments op_abort : simpl never.
#[global] Arguments callbacks : simpl never.
#[global] Arguments sends : simpl never.

(** ** The sample runs *)

Lemma sample_sends_ok busy rs : sends_ok (sample_env busy rs).
Proof. unfold sends_ok. simpl. lia. Defined.

Lemma sample_ops_succeed : Forall op_succeeds sample_ops.
Proof.
  repeat constructor; simpl; try lia; try reflexivity.
Defined.

Lemma sample_ops_NoDup : NoDup (map op_addr sample_ops).
Proof.
  apply NoDup_cons. split.
  - intros Hin. apply list_elem_of_singleton in Hin. discriminate Hin.
  - apply NoDup_singleton.
Defined.

Lemma sample_calls_run :
  run Posix sample_calls (world_of sample_pg) =
  Some ((), final_world Posix sample_calls).
Proof. vm_compute. reflexivity. Defined.

Lemma sample_batch_run :
  run Posix sample_batch (world_of sample_pg) =
  Some ((), final_world Posix sample_batch).
Proof. vm_compute. reflexivity. Defined.

Lemma sample_batch_ctx :
  ctx (final_world Posix sample_batch) =
  Some (context_of (final_world Posix sample_batch)).
Proof. vm_compute. reflexivity. Defined.

Lemma sample_started_run :
  run Posix sample_started (world_of sample_pg) =
  Some ((), final_world Posix sample_started).
Proof. vm_compute. reflexivity. Defined.

Lemma sample_failing_NoDup :
  NoDup (map op_addr ([sample_op0] ++ sample_op1_failing :: [sample_op2])).
Proof.
  apply NoDup_cons. split.
  - intros Hin. apply elem_of_cons in Hin as [Hin|Hin]; [discriminate Hin|].
    apply list_elem_of_singleton in Hin. discriminate Hin.
  - apply NoDup_cons. split.
    + intros Hin. apply list_elem_of_singleton in Hin. discriminate Hin.
    + apply NoDup_singleton.
Defined.

(** * The properties of the specification *)

(** C1. When [N] operations are queued with [pquv_queue], [pquv_execute] is
    called, and every answer of the driver and of libuv is a success, the
    run is defined; the user's result callbacks are called in the order in
    which the operations were queued, once for each result the driver
    returns for the operation, in the order of the results (an operation
    queued with a [NULL] callback has none to call); and the destruction of
    the context begins with the very last call of the run ([uv_close], or
    [free] of the context when nothing was queued), after the results of the
    last operation are drained. *)
Theorem C1_callbacks_fifo_then_destroy plat calloc_ok existing_conn ud pg e0
    ops :
  pquv_create calloc_ok existing_conn ud = Some pg →
  NoDup (map op_addr ops) → sends_ok e0 → Forall op_succeeds ops →
  ∃ w, run plat (batch e0 ops) (world_of pg) = Some ((), w) ∧
       callbacks (trace w) =
         flat_map (λ o, op_callbacks o (op_results o)) ops ∧
       ∃ t x, trace w = t ++ [x] ∧ (x = Ev_uv_close ∨ x = EvFreeCtx) ∧
              (Ev_uv_close ∉ t) ∧ (EvFreeCtx ∉ t).
Proof.
  intros Hpg Hnd Hsend Hok.
  destruct existing_conn as [cn|]; [|done].
  destruct (batch_run plat _ _ _ _ _ _ Hpg Hnd Hsend Hok) as (w & Hrun & Ht & _).
  exists w. split; [done|]. rewrite Ht. destruct ops as [|o rest].
  - split; [done|]. exists [], EvFreeCtx.
    repeat split; auto using not_elem_of_nil.
  - unfold batch_trace. split.
    + by rewrite callbacks_app, callbacks_dispatch, callbacks_run_trace.
    + destruct (run_trace_ends plat o rest) as (t & -> & Hq).
      exists (op_dispatch plat e0 o ++ t), Ev_uv_close.
      rewrite app_assoc. split; [done|]. split; [by left|].
      assert (Forall quiet (op_dispatch plat e0 o ++ t)) as Hall.
      { apply Forall_app. split; [apply quiet_op_dispatch|done]. }
      rewrite Forall_forall in Hall.
      split; intros Hin; apply Hall in Hin; by destruct Hin as (? & ? & ?).
Qed.

Lemma C1_witness :
  ∃ w, run Posix (batch (sample_env 0 []) sample_ops) (world_of sample_pg) =
         Some ((), w) ∧
       callbacks (trace w) =
         flat_map (λ o, op_callbacks o (op_results o)) sample_ops ∧
       ∃ t x, trace w = t ++ [x] ∧ (x = Ev_uv_close ∨ x = EvFreeCtx) ∧
              (Ev_uv_close ∉ t) ∧ (EvFreeCtx ∉ t).
Proof.
  apply (C1_callbacks_fifo_then_destroy Posix true (Some sample_conn) 7
           sample_pg (sample_env 0 []) sample_ops).
  - reflexivity.
  - apply sample_ops_NoDup.
  - apply sample_sends_ok.
  - apply sample_ops_succeed.
Defined.

(** C2. The handle is initialized again at every dispatch: in the run that
    queues two operations, executes them, and in which everything
    succeeds, [uv_poll_init] (on the other platform [uv_timer_init]) is
    called twice on the handle of the one context, once per dispatch. *)
Theorem C2_handle_initialized_at_every_dispatch :
  inits (trace (final_world Posix sample_batch)) =
    [Ev_uv_poll_init 5; Ev_uv_poll_init 5] ∧
  inits (trace (final_world Win32 sample_batch)) =
    [Ev_uv_timer_init; Ev_uv_timer_init] ∧
  run Posix sample_batch (world_of sample_pg) =
    Some ((), final_world Posix sample_batch) ∧
  run Win32 sample_batch (world_of sample_pg) =
    Some ((), final_world Win32 sample_batch).
Proof. split; [|split; [|split]]; vm_compute; reflexivity. Qed.

(** C3. When the first dispatch of a context is refused, the context is
    never freed.  In the run that queues two operations and calls
    [pquv_execute] with a driver that refuses the first query, the queueing
    is defined, calls nothing and leaves the handle as [pquv_create]
    zero-filled it; [pquv_execute] then has no defined outcome, on either
    platform: [execute_next_query] hands the query to the driver and enters
    [handle_error] in the store [sample_refused_store], where the context
    is executing, and there [handle_error] is undefined, because it starts
    with [uv_poll_stop] ([uv_timer_stop]) on the handle that was never
    initialized.  No [free] of the context is reached.  With nothing
    queued, the same call of [pquv_execute] frees the context within the
    call. *)
Theorem C3_refused_first_dispatch_never_frees :
  (∀ plat, run plat sample_two_queued (world_of sample_pg) =
             Some ((), final_world Posix sample_two_queued)) ∧
  trace (final_world Posix sample_two_queued) = [] ∧
  h_type (handle (context_of (final_world Posix sample_two_queued))) =
    UV_UNKNOWN_HANDLE ∧
  (∀ plat, pquv_execute plat sample_env_send_fails PgCtx
             (final_world Posix sample_two_queued) = None) ∧
  (∀ plat, run plat sample_refused (world_of sample_pg) = None) ∧
  sample_refused_store =
    {| ctx := Some (popped 10%nat
                      (set_next (Some 11%nat) (op_node sample_op1))
                      (set_is_executing true
                         (context_of (final_world Posix sample_two_queued))));
       heap := heap (final_world Posix sample_two_queued);
       trace := trace (final_world Posix sample_two_queued) ++
                  [EvPQsendQuery "SELECT 1"] |} ∧
  (∀ plat error, handle_error plat sample_env_send_fails PgCtx error
                   sample_refused_store = None) ∧
  (∀ plat, uv_stop plat PgCtx sample_refused_store = None) ∧
  (∀ plat, run plat [Execute sample_env_send_fails] (world_of sample_pg) =
             Some ((), {| ctx := None; heap := ∅; trace := [EvFreeCtx] |})).
Proof.
  split; [|split; [|split; [|split; [|split; [|split; [|split; [|split]]]]]]].
  - intros []; vm_compute; reflexivity.
  - vm_compute. reflexivity.
  - vm_compute. reflexivity.
  - intros []; vm_compute; reflexivity.
  - intros []; vm_compute; reflexivity.
  - vm_compute. reflexivity.
  - intros [] []; vm_compute; reflexivity.
  - intros []; vm_compute; reflexivity.
  - intros []; vm_compute; reflexivity.
Qed.

(** C4. All of [pre ++ k :: post] are queued, the operations [pre] succeed,
    and the driver answers operation [k] with the results [good], all
    successes, then [bad], a failure, then [more].  Then the run is defined
    and ends with the calls of the failing wake-up: after the callback for
    [bad], the result is cleared, the node of [k] is freed, the handle is
    disarmed, the nodes of [post] are freed, and [uv_close] starts the
    destruction of the context, whose flag [destroying] is set.  The
    callbacks called are those of [pre], and of [k] for [good] and [bad]
    only; the queries handed to the driver are those of [pre] and [k] only;
    and this stays so: a later wake-up does nothing, and whatever libuv
    calls afterwards, no callback is called and nothing is dispatched. *)
Theorem C4_failure_stops_the_batch plat calloc_ok existing_conn ud pg e0
    pre k post good bad more :
  pquv_create calloc_ok existing_conn ud = Some pg →
  NoDup (map op_addr (pre ++ k :: post)) →
  sends_ok e0 → Forall op_succeeds pre →
  Forall still_busy (op_busy k) → ready (op_done k) →
  op_results k = good ++ bad :: more →
  all_ok good = true → status_ok (PQresultStatus bad) = false →
  ∃ w c,
    run plat (batch_to e0 (pre ++ k :: post) pre k) (world_of pg) =
      Some ((), w) ∧
    ctx w = Some c ∧ destroying c = true ∧
    (∃ t, trace w = t ++ op_abort plat k good bad (map op_addr post)) ∧
    callbacks (trace w) =
      flat_map (λ o, op_callbacks o (op_results o)) pre ++
      op_callbacks k (good ++ [bad]) ∧
    sends (trace w) = map op_send (pre ++ [k]) ∧
    (∀ e status, on_ready plat e UvHandle status w = Some ((), w)) ∧
    (∀ cs w', Forall is_reactor cs → run plat cs w = Some ((), w') →
              callbacks (trace w') = callbacks (trace w) ∧
              sends (trace w') = sends (trace w)).
Proof.
  intros Hpg Hnd Hsend Hpre Hbusy Hready Hrs Hok Hbad.
  destruct existing_conn as [cn|]; [|done].
  destruct (Idle_created _ _ _ _ Hpg) as [HI Ht0].
  destruct (queue_steps plat cn ud [] (pre ++ k :: post) _ HI Hnd)
    as (w1 & Hrun1 & HI1 & Ht1).
  simpl in HI1.
  assert (∃ w2, run plat (Execute e0 :: flat_map wake_calls pre) w1 =
                  Some ((), w2) ∧
                Running plat cn ud k post w2 ∧
                callbacks (trace w2) =
                  flat_map (λ o, op_callbacks o (op_results o)) pre ∧
                sends (trace w2) = map op_send (pre ++ [k]))
    as (w2 & Hrun2 & HR2 & Hcb2 & Hsd2).
  { destruct pre as [|o pre].
    - destruct (execute_step plat cn ud e0 k post w1 HI1 Hsend)
        as (w2 & Hstep & HR & Ht2).
      exists w2. simpl. rewrite (bind_call _ _ _ _ _ Hstep).
      split; [done|]. split; [done|].
      rewrite Ht2, Ht1, Ht0, app_nil_l.
      by rewrite callbacks_dispatch, sends_dispatch.
    - destruct (execute_step plat cn ud e0 o (pre ++ k :: post) w1 HI1 Hsend)
        as (w2 & Hstep & HR & Ht2).
      destruct (prefix_run _ _ _ _ _ _ _ _ HR Hpre) as (w3 & Hrun3 & HR3 & Ht3).
      exists w3.
      change (Execute e0 :: flat_map wake_calls (o :: pre))
        with ([Execute e0] ++ flat_map wake_calls (o :: pre)).
      assert (run plat [Execute e0] w1 = Some ((), w2)) as Hrun2.
      { by rewrite run_single. }
      rewrite (run_app _ _ _ _ _ Hrun2).
      split; [done|]. split; [done|].
      rewrite Ht3, Ht2, Ht1, Ht0, app_nil_l.
      rewrite !callbacks_app, !sends_app, callbacks_dispatch, sends_dispatch,
        callbacks_prefix_trace, sends_prefix_trace. done. }
  destruct (op_run_fail _ _ _ _ _ _ _ _ _ HR2 Hbusy Hready Hrs Hok Hbad)
    as (w3 & c3 & Hrun3 & Hctx3 & Hshut & Ht3).
  exists w3, c3. split.
  { unfold batch_to. rewrite (run_app _ _ _ _ _ Hrun1).
    change (Execute e0 :: flat_map wake_calls pre ++ wake_calls k)
      with ((Execute e0 :: flat_map wake_calls pre) ++ wake_calls k).
    by rewrite (run_app _ _ _ _ _ Hrun2). }
  split; [done|]. split; [apply Hshut|]. split.
  { rewrite Ht3. eexists. by rewrite app_assoc. }
  split.
  { by rewrite Ht3, !callbacks_app, callbacks_busy, callbacks_abort, Hcb2. }
  split.
  { by rewrite Ht3, !sends_app, sends_busy, sends_abort, Hsd2, app_nil_r. }
  split.
  - intros e status. destruct w3 as [cx h t]. simpl in Hctx3. subst cx.
    apply on_ready_destroying; apply Hshut.
  - intros cs w' Hcs Hrun. by apply (shut_down_quiet plat w3 c3 cs w').
Qed.

Lemma C4_witness :
  ∃ w c,
    run Posix (batch_to (sample_env 0 [])
                 ([sample_op0] ++ sample_op1_failing :: [sample_op2])
                 [sample_op0] sample_op1_failing) (world_of sample_pg) =
      Some ((), w) ∧
    ctx w = Some c ∧ destroying c = true ∧
    (∃ t, trace w = t ++ op_abort Posix sample_op1_failing []
                           (sample_result 1 PGRES_FATAL_ERROR)
                           (map op_addr [sample_op2])) ∧
    callbacks (trace w) =
      flat_map (λ o, op_callbacks o (op_results o)) [sample_op0] ++
      op_callbacks sample_op1_failing
        ([] ++ [sample_result 1 PGRES_FATAL_ERROR]) ∧
    sends (trace w) = map op_send ([sample_op0] ++ [sample_op1_failing]) ∧
    (∀ e status, on_ready Posix e UvHandle status w = Some ((), w)) ∧
    (∀ cs w', Forall is_reactor cs → run Posix cs w = Some ((), w') →
              callbacks (trace w') = callbacks (trace w) ∧
              sends (trace w') = sends (trace w)).
Proof.
  apply (C4_failure_stops_the_batch Posix true (Some sample_conn) 7 sample_pg
           (sample_env 0 []) [sample_op0] sample_op1_failing [sample_op2]
           [] (sample_result 1 PGRES_FATAL_ERROR)
           [sample_result 4 PGRES_TUPLES_OK]).
  - reflexivity.
  - apply sample_failing_NoDup.
  - apply sample_sends_ok.
  - repeat constructor; simpl; try lia; reflexivity.
  - repeat constructor; simpl; lia.
  - repeat constructor; simpl; lia.
  - reflexivity.
  - reflexivity.
  - reflexivity.
Defined.

(** C5. When the driver refuses the query at dispatch, the operation that
    was popped off the queue is never freed.  In the run that queues two
    operations, dispatches the first, and in which the wake-up that answers
    the first dispatches the second and the driver refuses it,
    [handle_error] disarms the handle and closes it, the completion of the
    close frees the context, and the node of the second operation is not
    freed by any call: it stays allocated, with no pointer left to it. *)
Theorem C5_current_operation_leaks_on_send_failure :
  run Posix sample_late_refusal (world_of sample_pg) =
    Some ((), final_world Posix sample_late_refusal) ∧
  run Win32 sample_late_refusal (world_of sample_pg) =
    Some ((), final_world Win32 sample_late_refusal) ∧
  ctx (final_world Posix sample_late_refusal) = None ∧
  trace (final_world Posix sample_late_refusal) =
    [EvPQsendQuery "SELECT 1"; Ev_uv_poll_init 5; Ev_uv_poll_start;
     EvPQconsumeInput;
     EvPQgetResult;
     EvResultCb 10%nat 1%nat (sample_result 1 PGRES_TUPLES_OK) 100;
     EvPQclear (sample_result 1 PGRES_TUPLES_OK);
     EvPQgetResult;
     Ev_uv_poll_stop;
     EvFreeQuery 10%nat;
     EvPQsendQueryParams "SELECT $1, $2" 2 (Some [Some "a"%string; None]);
     Ev_uv_poll_stop;
     Ev_uv_close; EvCloseCb; EvFreeCtx] ∧
  heap (final_world Posix sample_late_refusal) !! 11%nat =
    Some (op_node sample_op2) ∧
  ctx (final_world Win32 sample_late_refusal) = None ∧
  frees (trace (final_world Win32 sample_late_refusal)) =
    [EvFreeQuery 10%nat] ∧
  heap (final_world Win32 sample_late_refusal) !! 11%nat =
    Some (op_node sample_op2).
Proof.
  split; [|split; [|split; [|split; [|split; [|split; [|split]]]]]];
    vm_compute; reflexivity.
Qed.

(** C6. Once a context has the flag [destroying] set: [on_poll] and
    [on_timer] return at once, leaving the context, the queue and the trace
    as they are, so that no user callback is called; a further call of
    [pg_async_destroy] returns at once in the same way; and whatever the
    user and libuv do afterwards, the flag is set for as long as the context
    is allocated. *)
Theorem C6_destroying_is_final plat w c :
  ctx w = Some c → destroying c = true →
  (∀ e status, on_poll e UvHandle status w = Some ((), w)) ∧
  (∀ e, on_timer e UvHandle w = Some ((), w)) ∧
  (∀ e, pg_async_destroy plat e PgCtx w = Some ((), w)) ∧
  (∀ calloc_ok existing_conn ud pg cs0 cs w' c',
     pquv_create calloc_ok existing_conn ud = Some pg →
     run plat cs0 (world_of pg) = Some ((), w) →
     run plat cs w = Some ((), w') →
     ctx w' = Some c' → destroying c' = true).
Proof.
  intros Hctx Hd. destruct w as [cx h t]. simpl in Hctx. subst cx.
  split; [|split; [|split]].
  - intros e status. by apply on_poll_destroying.
  - intros e. by apply on_timer_destroying.
  - intros e. by apply pg_async_destroy_again.
  - intros calloc_ok existing_conn ud pg cs0 cs w' c' Hpg Hrun0 Hrun Hctx'.
    destruct existing_conn as [cn|]; [|done].
    pose proof (created_Inv _ _ _ _ Hpg) as HI0.
    pose proof (run_Inv _ _ _ _ _ _ HI0 Hrun0) as HI1.
    apply (Inv_destroying _ _ c) in HI1; [|done..].
    pose proof (run_Inv _ _ _ _ _ _ HI1 Hrun) as HI2.
    unfold Inv in HI2. rewrite Hctx' in HI2.
    destruct HI2 as [_ (_ & _ & _ & Hd' & _)]. by apply Hd'.
Qed.

Lemma C6_witness :
  (∀ e status,
     on_poll e UvHandle status (final_world Posix sample_batch) =
     Some ((), final_world Posix sample_batch)) ∧
  (∀ e, on_timer e UvHandle (final_world Posix sample_batch) =
        Some ((), final_world Posix sample_batch)) ∧
  (∀ e, pg_async_destroy Posix e PgCtx (final_world Posix sample_batch) =
        Some ((), final_world Posix sample_batch)) ∧
  (∀ calloc_ok existing_conn ud pg cs0 cs w' c',
     pquv_create calloc_ok existing_conn ud = Some pg →
     run Posix cs0 (world_of pg) = Some ((), final_world Posix sample_batch) →
     run Posix cs (final_world Posix sample_batch) = Some ((), w') →
     ctx w' = Some c' → destroying c' = true).
Proof.
  apply (C6_destroying_is_final Posix (final_world Posix sample_batch)
           (context_of (final_world Posix sample_batch))).
  - apply sample_batch_ctx.
  - vm_compute. reflexivity.
Defined.

(** C7. [pquv_execute] returns [-1] and leaves everything as it is when its
    argument is [NULL], when the context is not connected, and when it is
    already executing, in which case nothing is dispatched.  On a connected
    context that is not executing and whose queue is empty it returns [0]
    and does what [pg_async_destroy] does, which calls no callback, hands
    nothing to the driver and leaves the nodes alone: on a context whose
    destruction has not begun, it frees the context within the call when
    the handle was never initialized, and otherwise sets [destroying] and
    leaves the handle closing, with [uv_close] called unless the handle was
    closing already; on a context being destroyed it does nothing.
    Otherwise, unless this is the first dispatch of the context and it is
    refused before the handle is initialized, it returns [0] and does what
    [execute_next_query] does with [is_executing] set: the head of the
    queue is handed to the driver, and when the driver and libuv accept the
    dispatch the head is the in-flight operation, popped off the queue, and
    the handle is armed. *)
Theorem C7_execute plat e c h t :
  pquv_execute plat e PgNull {| ctx := Some c; heap := h; trace := t |} =
    Some (-1, {| ctx := Some c; heap := h; trace := t |}) ∧
  (is_connected c = false →
   pquv_execute plat e PgCtx {| ctx := Some c; heap := h; trace := t |} =
     Some (-1, {| ctx := Some c; heap := h; trace := t |})) ∧
  (is_executing c = true →
   pquv_execute plat e PgCtx {| ctx := Some c; heap := h; trace := t |} =
     Some (-1, {| ctx := Some c; heap := h; trace := t |})) ∧
  (is_connected c = true → is_executing c = false → query_queue c = None →
   ∃ w', pquv_execute plat e PgCtx {| ctx := Some c; heap := h; trace := t |} =
           Some (0, w') ∧
         pg_async_destroy plat e PgCtx
           {| ctx := Some c; heap := h; trace := t |} = Some ((), w') ∧
         callbacks (trace w') = callbacks t ∧ sends (trace w') = sends t ∧
         heap w' = h ∧
         (destroying c = true →
          w' = {| ctx := Some c; heap := h; trace := t |}) ∧
         (destroying c = false → handle_initialized c = false →
          ctx w' = None ∧ trace w' = t ++ finish_events c ++ [EvFreeCtx]) ∧
         (destroying c = false → handle_initialized c = true →
          ∃ c', ctx w' = Some c' ∧ destroying c' = true ∧
                h_closing (handle c') = true ∧
                trace w' = t ++ finish_events c ++
                             if h_closing (handle c) then []
                             else [Ev_uv_close])) ∧
  (is_connected c = true → is_executing c = false →
   handle_initialized c = true ∨ refused_early plat e = false →
   ∀ p n l, query_queue c = Some p → h !! p = Some n → chain h (next n) l →
   ∃ w', pquv_execute plat e PgCtx {| ctx := Some c; heap := h; trace := t |} =
           Some (0, w') ∧
         execute_next_query plat e PgCtx
           {| ctx := Some (set_is_executing true c); heap := h; trace := t |} =
           Some ((), w') ∧
         (∃ t', trace w' = t ++ send_event n :: t') ∧
         (sends_ok e →
          ∃ c', ctx w' = Some c' ∧ is_executing c' = true ∧
                current_query c' = Some p ∧ query_queue c' = next n ∧
                h_active (handle c') = true)).
Proof.
  split; [done|]. split; [|split; [|split]].
  - intros Hcon. rewrite pquv_execute_unfold. by rewrite Hcon.
  - intros Hex. rewrite pquv_execute_unfold. rewrite Hex.
    by destruct (is_connected c).
  - intros Hcon Hex Hqq. rewrite pquv_execute_unfold, Hcon, Hex, Hqq.
    cbn [negb]. destruct (destroying c) eqn:Hd.
    + eexists.
      rewrite (bind_call _ _ _ _ _ (pg_async_destroy_again plat e c h t Hd)).
      rewrite pg_async_destroy_again by done. simpl. by repeat split.
    + assert (chain h (query_queue c) []) as Hc by (by rewrite Hqq).
      assert (is_executing c = true → handle_initialized c = true) as Hi.
      { by rewrite Hex. }
      eexists.
      rewrite (bind_call _ _ _ _ _
        (pg_async_destroy_spec plat e c h t [] Hi Hd Hc)).
      rewrite (pg_async_destroy_spec _ _ _ _ _ []) by done.
      split; [done|]. split; [done|].
      unfold destroyed, cancel_events. rewrite Hex. simpl.
      assert (callbacks (finish_events c) = [] ∧ sends (finish_events c) = [])
        as [Hcf Hsf].
      { unfold finish_events. by destruct (conn c), (owns_connection c). }
      pose proof (destroying_destroyed c) as Hdd.
      pose proof (closing_destroyed c) as Hcd.
      destruct (handle_initialized c) eqn:Hi';
        [destruct (h_closing (handle c)) eqn:Hcl|]; simpl;
        rewrite ?callbacks_app, ?sends_app, ?Hcf, ?Hsf, ?app_nil_r;
        (split; [done|]); (split; [done|]); (split; [done|]);
        (split; [done|]).
      * split; [by intros|]. intros _ _. eexists. split; [reflexivity|].
        split; [done|]. split; [by rewrite Hcd|]. by rewrite ?app_nil_r.
      * split; [by intros|]. intros _ _. eexists. split; [reflexivity|].
        split; [done|]. split; [done|]. by rewrite <- ?app_assoc, ?app_nil_r.
      * split; [|by intros]. intros _ _. split; [done|].
        by rewrite <- ?app_assoc.
  - intros Hcon Hex Hok p n l Hqq Hn Hc.
    rewrite pquv_execute_unfold, Hcon, Hex, Hqq. cbn [negb].
    assert (execute_next_query plat e PgCtx
              {| ctx := Some (set_is_executing true c); heap := h;
                 trace := t |} =
            Some ((), dispatched plat e
                        (popped p n (set_is_executing true c)) n h t l))
      as Hex'.
    { by apply execute_next_query_nonempty. }
    rewrite (bind_call _ _ _ _ _ Hex'), Hex'.
    eexists. split; [done|]. split; [done|]. split.
    + unfold dispatched, failed, destroyed.
      repeat (match goal with
              | |- context [if ?b then _ else _] => destruct b
              | |- context [match ?p with Posix => _ | Win32 => _ end] =>
                  destruct p
              end; simpl);
        rewrite <- ?app_assoc; simpl; eauto.
    + intros Hok'. rewrite dispatched_ok by done. simpl.
      eexists. split; [done|]. unfold popped.
      destruct plat, (next n); by repeat split.
Qed.

Lemma C7_witness :
  pquv_execute Posix (sample_env 0 []) PgCtx
    {| ctx := Some sample_busy_ctx; heap := sample_heap; trace := [] |} =
    Some (-1, {| ctx := Some sample_busy_ctx; heap := sample_heap;
                 trace := [] |}) ∧
  (∃ w', pquv_execute Posix (sample_env 0 []) PgCtx
           {| ctx := Some sample_pg; heap := ∅; trace := [] |} = Some (0, w') ∧
         pg_async_destroy Posix (sample_env 0 []) PgCtx
           {| ctx := Some sample_pg; heap := ∅; trace := [] |} =
           Some ((), w') ∧
         callbacks (trace w') = callbacks [] ∧ sends (trace w') = sends [] ∧
         heap w' = ∅ ∧
         (destroying sample_pg = true →
          w' = {| ctx := Some sample_pg; heap := ∅; trace := [] |}) ∧
         (destroying sample_pg = false →
          handle_initialized sample_pg = false →
          ctx w' = None ∧
          trace w' = [] ++ finish_events sample_pg ++ [EvFreeCtx]) ∧
         (destroying sample_pg = false →
          handle_initialized sample_pg = true →
          ∃ c', ctx w' = Some c' ∧ destroying c' = true ∧
                h_closing (handle c') = true ∧
                trace w' = [] ++ finish_events sample_pg ++
                             if h_closing (handle sample_pg) then []
                             else [Ev_uv_close])) ∧
  (∃ w', pquv_execute Posix (sample_env 0 []) PgCtx
           {| ctx := Some sample_queued_ctx; heap := sample_heap;
              trace := [] |} = Some (0, w') ∧
         execute_next_query Posix (sample_env 0 []) PgCtx
           {| ctx := Some (set_is_executing true sample_queued_ctx);
              heap := sample_heap; trace := [] |} = Some ((), w') ∧
         (∃ t', trace w' = [] ++ send_event (op_node sample_op1) :: t') ∧
         (sends_ok (sample_env 0 []) →
          ∃ c', ctx w' = Some c' ∧ is_executing c' = true ∧
                current_query c' = Some 10%nat ∧
                query_queue c' = next (op_node sample_op1) ∧
                h_active (handle c') = true)).
Proof.
  split; [|split].
  - apply (proj1 (proj2 (proj2
      (C7_execute Posix (sample_env 0 []) sample_busy_ctx sample_heap [])))).
    reflexivity.
  - apply (proj1 (proj2 (proj2 (proj2
      (C7_execute Posix (sample_env 0 []) sample_pg ∅ []))))); reflexivity.
  - apply (proj2 (proj2 (proj2 (proj2
      (C7_execute Posix (sample_env 0 []) sample_queued_ctx sample_heap []))))
      eq_refl eq_refl (or_intror eq_refl) 10%nat (op_node sample_op1) []);
      reflexivity.
Defined.

(** C8. A parameter value is lost when its [strdup] fails.  [pquv_queue]
    does not check the [strdup] of a parameter value: in the run that
    queues one operation with the two parameters ["a"] and [NULL] while
    [strdup] fails, [pquv_queue] returns [0], and the dispatch hands the
    driver two values of which the first is [NULL], not ["a"]. *)
Theorem C8_parameter_lost_when_strdup_fails :
  op_params sample_op_lossy = [Some "a"%string; None] ∧
  pquv_queue (op_alloc sample_op_lossy) PgCtx (Some (op_sql sample_op_lossy))
    (op_count sample_op_lossy) (Some (op_params sample_op_lossy))
    (op_cb sample_op_lossy) (op_data sample_op_lossy) (world_of sample_pg) =
    Some (0, final_world Posix [queue_call sample_op_lossy]) ∧
  trace (final_world Posix [queue_call sample_op_lossy]) = [] ∧
  run Posix sample_lossy (world_of sample_pg) =
    Some ((), final_world Posix sample_lossy) ∧
  run Win32 sample_lossy (world_of sample_pg) =
    Some ((), final_world Win32 sample_lossy) ∧
  sends (trace (final_world Posix sample_lossy)) =
    [EvPQsendQueryParams "SELECT $1, $2" 2 (Some [None; None])] ∧
  sends (trace (final_world Win32 sample_lossy)) =
    [EvPQsendQueryParams "SELECT $1, $2" 2 (Some [None; None])].
Proof.
  split; [|split; [|split; [|split; [|split; [|split]]]]];
    vm_compute; reflexivity.
Qed.

(** C9. [on_poll] disarms the handle after the loop that pulls and delivers
    the results, not before it: in the run that queues one operation,
    executes it, and wakes up with one result, [uv_poll_stop] is called
    after both calls of [PQgetResult] and after the user's callback.
    [on_timer], in the same run on the other platform, calls
    [uv_timer_stop] before the first [PQgetResult]. *)
Theorem C9_poll_stopped_after_the_drain_loop :
  trace (final_world Posix sample_answered) =
    [EvPQsendQuery "SELECT 1"; Ev_uv_poll_init 5; Ev_uv_poll_start;
     EvPQconsumeInput;
     EvPQgetResult;
     EvResultCb 10%nat 1%nat (sample_result 1 PGRES_TUPLES_OK) 100;
     EvPQclear (sample_result 1 PGRES_TUPLES_OK);
     EvPQgetResult;
     Ev_uv_poll_stop;
     EvFreeQuery 10%nat; Ev_uv_close] ∧
  trace (final_world Win32 sample_answered) =
    [EvPQsendQuery "SELECT 1"; Ev_uv_timer_init; Ev_uv_timer_start;
     EvPQconsumeInput;
     Ev_uv_timer_stop;
     EvPQgetResult;
     EvResultCb 10%nat 1%nat (sample_result 1 PGRES_TUPLES_OK) 100;
     EvPQclear (sample_result 1 PGRES_TUPLES_OK);
     EvPQgetResult;
     EvFreeQuery 10%nat; Ev_uv_close] ∧
  run Posix sample_answered (world_of sample_pg) =
    Some ((), final_world Posix sample_answered) ∧
  run Win32 sample_answered (world_of sample_pg) =
    Some ((), final_world Win32 sample_answered).
Proof. split; [|split; [|split]]; vm_compute; reflexivity. Qed.

(** C10. [pquv_create] clears [owns_connection], and nothing sets it: after
    any run of the public functions and of libuv's callbacks, [PQfinish] was
    not called, and a context that is still allocated does not own the
    connection and still points to the connection it was created with. *)
Theorem C10_connection_never_finished plat calloc_ok existing_conn ud pg cs w :
  pquv_create calloc_ok existing_conn ud = Some pg →
  run plat cs (world_of pg) = Some ((), w) →
  owns_connection pg = false ∧ (EvPQfinish ∉ trace w) ∧
  ∀ c, ctx w = Some c → owns_connection c = false ∧ conn c = existing_conn.
Proof.
  intros Hpg Hrun. destruct existing_conn as [cn|]; [|done].
  pose proof (created_Inv _ _ _ _ Hpg) as HI0.
  pose proof (run_Inv _ _ _ _ _ _ HI0 Hrun) as HI.
  split.
  { destruct HI0 as [_ (Hown & _)]. done. }
  unfold Inv in HI. destruct (ctx w) as [c|].
  - destruct HI as [_ (Hown & Hconn & _ & _ & _ & Hfin & _)].
    split; [done|]. by intros ? [= <-].
  - destruct HI as [Hfin _]. by split.
Qed.

Lemma C10_witness :
  owns_connection sample_pg = false ∧
  (EvPQfinish ∉ trace (final_world Posix sample_calls)) ∧
  ∀ c, ctx (final_world Posix sample_calls) = Some c →
       owns_connection c = false ∧ conn c = Some sample_conn.
Proof.
  apply (C10_connection_never_finished Posix true (Some sample_conn) 7
           sample_pg sample_calls (final_world Posix sample_calls)).
  - reflexivity.
  - apply sample_calls_run.
Defined.

(** * Further properties of the code *)

(** ** [pquv_queue] *)

(** X1. [pquv_queue] returns [0] or [-1].  It returns [-1] exactly when the
    context or the query text is [NULL], or [calloc] of the node, [strdup]
    of the query text or [malloc] of the parameter array fails.  In that
    case the context, the queue and the nodes are as before, and the only
    call is the [free] of the node that was being built, made when the
    failure came after its [calloc]. *)
Theorem X1_queue_failure_leaves_the_store a pg s n ps cb d w r w' :
  pquv_queue a pg s n ps cb d w = Some (r, w') →
  (r = 0 ∨ r = -1) ∧
  (r = -1 →
   ctx w' = ctx w ∧ heap w' = heap w ∧
   trace w' = trace w ++
     match pg, s, calloc_query a with
     | PgCtx, Some _, Some q => [EvFreeQuery q]
     | _, _, _ => []
     end) ∧
  (r = -1 ↔
   pg = PgNull ∨ s = None ∨ calloc_query a = None ∨ strdup_sql_ok a = false ∨
   (0 < n ∧ is_Some ps ∧ malloc_params_ok a = false)).
Proof.
  unfold pquv_queue. intros Hq.
  destruct pg.
  { apply ret_inv in Hq as [-> ->]. rewrite app_nil_r. by intuition. }
  destruct s as [s|]; cycle 1.
  { apply ret_inv in Hq as [-> ->]. rewrite app_nil_r. by intuition. }
  destruct (calloc_query a) as [q|] eqn:Hcal; cycle 1.
  { apply ret_inv in Hq as [-> ->]. rewrite app_nil_r. by intuition. }
  apply bind_inv in Hq as ([] & w1 & [Hfresh ->]%fresh_inv & Hq).
  destruct (strdup_sql_ok a) eqn:Hsql; simpl in Hq; cycle 1.
  { apply bind_inv in Hq as ([] & w1 & ->%emit_inv & [-> ->]%ret_inv).
    simpl. by intuition. }
  apply bind_inv in Hq as (copy & w1 & Hcopy & Hq).
  assert (w1 = w ∧
          (copy = None ↔ 0 < n ∧ is_Some ps ∧ malloc_params_ok a = false))
    as [-> Hnone].
  { destruct (0 <? n) eqn:Hn.
    - apply Z.ltb_lt in Hn. destruct ps as [l|].
      + destruct (malloc_params_ok a).
        * destruct (Z.to_nat n <=? length l)%nat; [|done].
          apply ret_inv in Hcopy as [-> ->]. split; [done|].
          split; [done|]. by intros (_ & _ & ?).
        * apply ret_inv in Hcopy as [-> ->]. split; [done|]. by eauto.
      + apply ret_inv in Hcopy as [-> ->]. split; [done|].
        split; [done|]. by intros (_ & [? ?] & _).
    - apply Z.ltb_ge in Hn. apply ret_inv in Hcopy as [-> ->].
      split; [done|]. split; [done|]. intros (? & _). lia. }
  destruct copy as [ps'|]; cycle 1.
  { apply bind_inv in Hq as ([] & w1 & ->%emit_inv & [-> ->]%ret_inv).
    simpl. split; [by right|]. split; [done|].
    split; [|done]. intros _. do 4 right. by apply Hnone. }
  assert (r = 0) as ->.
  { minv; done. }
  split; [by left|]. split; [done|]. split; [done|].
  intros [?|[?|[?|[?|Hmal]]]]; try done. by apply Hnone in Hmal.
Qed.

Lemma X1_witness :
  (-1 = 0 ∨ -1 = -1) ∧
  (-1 = -1 →
   ctx {| ctx := Some sample_pg; heap := ∅; trace := [EvFreeQuery 10%nat] |} =
     ctx (world_of sample_pg) ∧
   heap {| ctx := Some sample_pg; heap := ∅; trace := [EvFreeQuery 10%nat] |} =
     heap (world_of sample_pg) ∧
   trace {| ctx := Some sample_pg; heap := ∅;
            trace := [EvFreeQuery 10%nat] |} =
     trace (world_of sample_pg) ++
     match PgCtx, Some "SELECT 1"%string,
           calloc_query {| calloc_query := Some 10%nat; strdup_sql_ok := false;
                           malloc_params_ok := true;
                           strdup_param_ok := λ _, true |} with
     | PgCtx, Some _, Some q => [EvFreeQuery q]
     | _, _, _ => []
     end) ∧
  (-1 = -1 ↔
   PgCtx = PgNull ∨ Some "SELECT 1"%string = None ∨
   calloc_query {| calloc_query := Some 10%nat; strdup_sql_ok := false;
                   malloc_params_ok := true;
                   strdup_param_ok := λ _, true |} = None ∨
   strdup_sql_ok {| calloc_query := Some 10%nat; strdup_sql_ok := false;
                    malloc_params_ok := true;
                    strdup_param_ok := λ _, true |} = false ∨
   (0 < 0 ∧ is_Some (@None (list (option string))) ∧
    malloc_params_ok {| calloc_query := Some 10%nat; strdup_sql_ok := false;
                        malloc_params_ok := true;
                        strdup_param_ok := λ _, true |} = false)).
Proof.
  apply (X1_queue_failure_leaves_the_store
           {| calloc_query := Some 10%nat; strdup_sql_ok := false;
              malloc_params_ok := true; strdup_param_ok := λ _, true |}
           PgCtx (Some "SELECT 1"%string) 0 None None 0
           (world_of sample_pg) (-1)
           {| ctx := Some sample_pg; heap := ∅;
              trace := [EvFreeQuery 10%nat] |}).
  reflexivity.
Defined.

Lemma enqueued_heap_new q node c h :
  h !! q = None → enqueued_heap q node c h !! q = Some node.
Proof.
  intros Hq. unfold enqueued_heap.
  destruct (query_queue c), (query_queue_tail c) as [tl|];
    try (by rewrite lookup_insert_eq).
  destruct (h !! tl) as [ntl|] eqn:Htl; [|by rewrite lookup_insert_eq].
  rewrite lookup_insert_ne by congruence. by rewrite lookup_insert_eq.
Qed.

Lemma enqueued_heap_old q node c h p n :
  h !! q = None → h !! p = Some n →
  ∃ n', enqueued_heap q node c h !! p = Some n' ∧
        set_next None n' = set_next None n.
Proof.
  intros Hq Hp. assert (p ≠ q) as Hne by congruence. unfold enqueued_heap.
  destruct (query_queue c), (query_queue_tail c) as [tl|];
    try (exists n; by rewrite lookup_insert_ne).
  destruct (h !! tl) as [ntl|] eqn:Htl; [|exists n; by rewrite lookup_insert_ne].
  destruct (decide (tl = p)) as [->|Hne'].
  - rewrite lookup_insert_eq. rewrite Hp in Htl. injection Htl as <-. eauto.
  - exists n. by rewrite !lookup_insert_ne.
Qed.

Lemma enqueued_heap_none q node c h p :
  p ≠ q → h !! p = None → enqueued_heap q node c h !! p = None.
Proof.
  intros Hne Hp. unfold enqueued_heap.
  destruct (query_queue c), (query_queue_tail c) as [tl|];
    try (by rewrite lookup_insert_ne).
  destruct (h !! tl) as [ntl|] eqn:Htl; [|by rewrite lookup_insert_ne].
  rewrite !lookup_insert_ne; [done..|]. congruence.
Qed.

(** X2. On a context whose queue holds the nodes [l], a call of
    [pquv_queue] whose allocations succeed returns [0] and puts the new
    node behind the last one: the queue then holds [l] followed by the new
    node, which carries the query text, the parameter count, the callback
    and the user data it was given, and a copy of the parameters.  Whether
    the context is executing or being destroyed plays no role.  The nodes
    allocated before keep what they carry (only the [next] pointer of the
    old tail is written), nothing else is allocated, no field of the
    context but the two queue pointers changes, and nothing is called. *)
Theorem X2_queue_appends_at_the_tail a s n ps cb d c h t l q :
  queue_is h c l → calloc_query a = Some q → h !! q = None →
  strdup_sql_ok a = true →
  (0 < n → is_Some ps → malloc_params_ok a = true) →
  (0 < n → ∀ l0, ps = Some l0 → (Z.to_nat n ≤ length l0)%nat) →
  ∃ c' h',
    pquv_queue a PgCtx (Some s) n ps cb d
      {| ctx := Some c; heap := h; trace := t |} =
      Some (0, {| ctx := Some c'; heap := h'; trace := t |}) ∧
    queue_is h' c' (l ++ [q]) ∧
    (∃ node, h' !! q = Some node ∧ sql node = s ∧ param_count node = n ∧
             result_cb node = cb ∧ data node = d ∧ next node = None ∧
             params node =
               if 0 <? n
               then match ps with
                    | Some l0 => Some (copy_params a (Z.to_nat n) l0)
                    | None => None
                    end
               else None) ∧
    (∀ p node, h !! p = Some node →
       ∃ node', h' !! p = Some node' ∧
                set_next None node' = set_next None node) ∧
    (∀ p, p ≠ q → h !! p = None → h' !! p = None) ∧
    set_query_queue None (set_query_queue_tail None c') =
      set_query_queue None (set_query_queue_tail None c).
Proof.
  intros Hq Hcal Hfresh Hsql Hmal Hlen.
  exists (enqueued_ctx q c), (enqueued_heap q (new_node a s n ps cb d) c h).
  split; [|split; [|split; [|split; [|split]]]].
  - apply pquv_queue_spec; try done.
    intros p Hp. by apply (queue_is_tail h c l p).
  - by apply queue_is_enqueued.
  - exists (new_node a s n ps cb d). split; [by apply enqueued_heap_new|].
    by repeat split.
  - intros p node Hp. by apply enqueued_heap_old.
  - intros p Hne Hp. by apply enqueued_heap_none.
  - unfold enqueued_ctx. by destruct (query_queue c).
Qed.

Lemma X2_witness :
  ∃ c' h',
    pquv_queue (op_alloc sample_op2) PgCtx (Some (op_sql sample_op2))
      (op_count sample_op2) (Some (op_params sample_op2))
      (op_cb sample_op2) (op_data sample_op2)
      {| ctx := Some sample_queued_ctx; heap := sample_heap; trace := [] |} =
      Some (0, {| ctx := Some c'; heap := h'; trace := [] |}) ∧
    queue_is h' c' ([10%nat] ++ [11%nat]) ∧
    (∃ node, h' !! 11%nat = Some node ∧ sql node = op_sql sample_op2 ∧
             param_count node = op_count sample_op2 ∧
             result_cb node = op_cb sample_op2 ∧
             data node = op_data sample_op2 ∧ next node = None ∧
             params node =
               if 0 <? op_count sample_op2
               then match Some (op_params sample_op2) with
                    | Some l0 =>
                        Some (copy_params (op_alloc sample_op2)
                                (Z.to_nat (op_count sample_op2)) l0)
                    | None => None
                    end
               else None) ∧
    (∀ p node, sample_heap !! p = Some node →
       ∃ node', h' !! p = Some node' ∧
                set_next None node' = set_next None node) ∧
    (∀ p, p ≠ 11%nat → sample_heap !! p = None → h' !! p = None) ∧
    set_query_queue None (set_query_queue_tail None c') =
      set_query_queue None (set_query_queue_tail None sample_queued_ctx).
Proof.
  apply (X2_queue_appends_at_the_tail (op_alloc sample_op2)
           (op_sql sample_op2) (op_count sample_op2)
           (Some (op_params sample_op2)) (op_cb sample_op2)
           (op_data sample_op2) sample_queued_ctx sample_heap [] [10%nat]
           11%nat).
  - split; [|split].
    + split; [reflexivity|]. exists (op_node sample_op1).
      split; reflexivity.
    + reflexivity.
    + intros p Hp. discriminate Hp.
  - reflexivity.
  - reflexivity.
  - reflexivity.
  - intros _ _. reflexivity.
  - intros _ l0 Hl0. injection Hl0 as <-. vm_compute. lia.
Defined.

(** ** [pg_async_cancel] *)

Lemma cancelled_again c : cancelled (cancelled c) = cancelled c.
Proof. unfold cancelled. destruct_ctx c. by destruct ex. Qed.

(** X3. On a context whose queue holds the nodes [l], and whose handle is
    initialized if the context is executing, [pg_async_cancel] first, if the
    context is executing, disarms the handle, asks the server to cancel when
    [PQgetCancel] yields a cancel object, and clears [is_executing]; it then
    frees the nodes of [l], first to last, and nothing else, and resets both
    queue pointers.  The operation in flight stays where it is, allocated,
    and [destroying] is not touched.  A second call right after changes
    nothing and calls nothing. *)
Theorem X3_cancel_empties_the_queue plat e c h t l :
  queue_is h c l →
  (is_executing c = true → handle_initialized c = true) →
  ∃ c' h',
    pg_async_cancel plat e PgCtx {| ctx := Some c; heap := h; trace := t |} =
      Some ((), {| ctx := Some c'; heap := h';
                   trace := t ++
                     (if is_executing c
                      then stop_event plat ::
                             (if PQgetCancel e then [EvPQcancel] else [])
                      else []) ++ map EvFreeQuery l |}) ∧
    query_queue c' = None ∧ query_queue_tail c' = None ∧
    is_executing c' = false ∧
    current_query c' = current_query c ∧ destroying c' = destroying c ∧
    h_active (handle c') =
      (if is_executing c then false else h_active (handle c)) ∧
    (∀ q, h' !! q = if decide (q ∈ l) then None else h !! q) ∧
    (∀ p, current_query c = Some p → is_Some (h' !! p)) ∧
    ∀ t', pg_async_cancel plat e PgCtx
            {| ctx := Some c'; heap := h'; trace := t' |} =
          Some ((), {| ctx := Some c'; heap := h'; trace := t' |}).
Proof.
  intros Hq Hi. pose proof Hq as (Hc & _ & Hcur).
  exists (cancelled c), (drop_all l h). split.
  { by apply pg_async_cancel_spec. }
  assert (is_executing (cancelled c) = false) as Hex.
  { unfold cancelled. destruct_ctx c. by destruct ex. }
  split; [done|]. split; [done|]. split; [done|].
  split; [unfold cancelled; by destruct (is_executing c)|].
  split; [unfold cancelled; by destruct (is_executing c)|].
  split; [unfold cancelled; by destruct (is_executing c)|].
  split; [intros q; apply drop_all_lookup|].
  split.
  { intros p Hp. destruct (Hcur p Hp) as [Hnin Hlive].
    rewrite drop_all_lookup. by destruct (decide (p ∈ l)). }
  intros t'.
  rewrite (pg_async_cancel_spec plat e (cancelled c) (drop_all l h) t' []);
    [|by rewrite Hex|done].
  unfold cancel_events. rewrite Hex, cancelled_again. simpl.
  by rewrite !app_nil_r.
Qed.

Lemma X3_witness :
  ∃ c' h',
    pg_async_cancel Posix (sample_env 0 []) PgCtx
      {| ctx := Some (context_of (final_world Posix sample_two_started));
         heap := heap (final_world Posix sample_two_started);
         trace := trace (final_world Posix sample_two_started) |} =
      Some ((), {| ctx := Some c'; heap := h';
                   trace := trace (final_world Posix sample_two_started) ++
                     (if is_executing
                           (context_of (final_world Posix sample_two_started))
                      then stop_event Posix ::
                             (if PQgetCancel (sample_env 0 [])
                              then [EvPQcancel] else [])
                      else []) ++ map EvFreeQuery [11%nat] |}) ∧
    query_queue c' = None ∧ query_queue_tail c' = None ∧
    is_executing c' = false ∧
    current_query c' =
      current_query (context_of (final_world Posix sample_two_started)) ∧
    destroying c' =
      destroying (context_of (final_world Posix sample_two_started)) ∧
    h_active (handle c') =
      (if is_executing (context_of (final_world Posix sample_two_started))
       then false
       else h_active
              (handle (context_of (final_world Posix sample_two_started)))) ∧
    (∀ q, h' !! q = if decide (q ∈ [11%nat]) then None
                    else heap (final_world Posix sample_two_started) !! q) ∧
    (∀ p, current_query (context_of (final_world Posix sample_two_started)) =
            Some p →
          is_Some (h' !! p)) ∧
    ∀ t', pg_async_cancel Posix (sample_env 0 []) PgCtx
            {| ctx := Some c'; heap := h'; trace := t' |} =
          Some ((), {| ctx := Some c'; heap := h'; trace := t' |}).
Proof.
  apply (X3_cancel_empties_the_queue Posix (sample_env 0 [])
           (context_of (final_world Posix sample_two_started))
           (heap (final_world Posix sample_two_started))
           (trace (final_world Posix sample_two_started)) [11%nat]).
  - split; [|split].
    + split; [vm_compute; reflexivity|]. exists (op_node sample_op2).
      split; [vm_compute; reflexivity|reflexivity].
    + vm_compute. reflexivity.
    + intros p Hp. vm_compute in Hp. injection Hp as <-. split.
      * intros Hin. apply list_elem_of_singleton in Hin. discriminate Hin.
      * exists (set_next (Some 11%nat) (op_node sample_op1)).
        vm_compute. reflexivity.
  - intros _. vm_compute. reflexivity.
Defined.

(** ** Runs *)

Lemma step_defined cn d plat c w :
  Inv cn d w → enabled c w →
  (∀ e cx, c = Execute e → ctx w = Some cx → ¬ first_refused plat e cx) →
  ∃ w', step plat c w = Some ((), w') ∧ Inv cn d w'.
Proof.
  intros HI Hen Hno.
  destruct w as [[cx|] h t]; [|done]. unfold enabled in Hen. simpl in Hen.
  destruct c as [a s n ps cb qd|e|e status|]; unfold step.
  - destruct Hen as [Hfresh Hlen].
    destruct (pquv_queue_safe cn d a s n ps cb qd cx h t HI Hfresh Hlen)
      as (r & w1 & Hq & HI1).
    exists w1. by rewrite (bind_call _ _ _ _ _ Hq).
  - destruct (pquv_execute_safe cn d plat e cx h t HI)
      as (r & w1 & Hq & HI1); [by apply (Hno e)|].
    exists w1. by rewrite (bind_call _ _ _ _ _ Hq).
  - rewrite bind_get_pg. rewrite Hen.
    assert (handle_initialized cx = true) as Hi.
    { destruct HI as [_ (_ & _ & _ & _ & _ & _ & _ & _ & Hlive)].
      by apply Hlive. }
    destruct (on_ready_safe cn d plat e status cx h t HI Hi)
      as ([] & w1 & Hq & HI1).
    by exists w1.
  - rewrite bind_get_pg. rewrite Hen.
    destruct (on_handle_closed_safe cn d cx h t HI)
      as ([] & w1 & Hq & HI1).
    by exists w1.
Qed.

(** X4. Where the library leaves defined behaviour, and where it does
    not.  In every store that a run of the public functions and of libuv's
    callbacks reaches from [pquv_create], a call that can happen there,
    [pquv_execute] being called on a context whose destruction has not
    begun, is defined, with one exception: no [NULL] or dangling pointer is
    dereferenced, no node and no context is freed twice, and the loop of
    [pg_async_cancel] ends.  The exception is the call of [pquv_execute]
    that makes the first dispatch of the context when the dispatch is
    refused before the handle is initialized (the driver refuses the query,
    the socket is invalid, or the initialization of the handle fails):
    [handle_error] then stops the handle that [pquv_create] zero-filled,
    and the call is undefined. *)
Theorem X4_defined_unless_first_dispatch_refused plat calloc_ok existing_conn
    ud pg cs w c :
  pquv_create calloc_ok existing_conn ud = Some pg →
  run plat cs (world_of pg) = Some ((), w) →
  enabled c w →
  (∀ e cx, c = Execute e → ctx w = Some cx → destroying cx = false) →
  ((∃ w', step plat c w = Some ((), w')) ↔
   ∀ e cx, c = Execute e → ctx w = Some cx → ¬ first_refused plat e cx).
Proof.
  intros Hpg Hrun Hen _. destruct existing_conn as [cn|]; [|done].
  pose proof (created_Inv _ _ _ _ Hpg) as HI0.
  pose proof (run_Inv _ _ _ _ _ _ HI0 Hrun) as HI.
  split.
  - intros [w1 Hstep] e cx -> Hctx Href.
    destruct w as [cx' h t]. simpl in Hctx. subst cx'.
    destruct HI as [[l [Hc _]] _]. unfold step, bind in Hstep.
    by rewrite (pquv_execute_refused plat e cx h t l Href Hc) in Hstep.
  - intros Hno.
    destruct (step_defined cn false plat c w HI Hen Hno) as (w' & Hstep & _).
    by exists w'.
Qed.

Lemma X4_witness :
  (∃ w', step Posix (Execute sample_env_send_fails)
           (final_world Posix sample_two_queued) = Some ((), w')) ↔
  ∀ e cx, Execute sample_env_send_fails = Execute e →
          ctx (final_world Posix sample_two_queued) = Some cx →
          ¬ first_refused Posix e cx.
Proof.
  apply (X4_defined_unless_first_dispatch_refused Posix true
           (Some sample_conn) 7 sample_pg sample_two_queued
           (final_world Posix sample_two_queued)
           (Execute sample_env_send_fails)).
  - reflexivity.
  - vm_compute. reflexivity.
  - vm_compute. exact I.
  - intros e cx _ Hcx. vm_compute in Hcx. by injection Hcx as <-.
Defined.

(** X5. In every store that a run reaches from [pquv_create] with the
    context still allocated, the queue is a proper list: following [next]
    from the head pointer visits the queued nodes, all of them allocated
    and none of them twice, and ends in [NULL]; the tail pointer is the last
    of them, and is [NULL] exactly when the head pointer is; and the node in
    flight, when there is one, is allocated and not in the queue. *)
Theorem X5_queue_is_a_list plat calloc_ok existing_conn ud pg cs w c :
  pquv_create calloc_ok existing_conn ud = Some pg →
  run plat cs (world_of pg) = Some ((), w) →
  ctx w = Some c →
  ∃ l, chain (heap w) (query_queue c) l ∧ NoDup l ∧
       (∀ q, q ∈ l → is_Some (heap w !! q)) ∧
       query_queue_tail c = last l ∧
       (query_queue c = None ↔ query_queue_tail c = None) ∧
       (∀ p, current_query c = Some p → (p ∉ l) ∧ is_Some (heap w !! p)).
Proof.
  intros Hpg Hrun Hctx. destruct existing_conn as [cn|]; [|done].
  pose proof (created_Inv _ _ _ _ Hpg) as HI0.
  pose proof (run_Inv _ _ _ _ _ _ HI0 Hrun) as HI.
  unfold Inv in HI. rewrite Hctx in HI. destruct HI as [[l Hq] _].
  pose proof Hq as (Hc & Ht & Hcur).
  exists l. split; [done|]. split; [by apply (chain_NoDup _ _ _ Hc)|].
  split; [intros q Hin; by apply (chain_allocated _ _ _ _ Hc)|].
  split; [done|]. split; [|done].
  rewrite Ht. destruct l as [|x l].
  - simpl in Hc. by rewrite Hc.
  - destruct Hc as [-> _]. split; [done|].
    intros Hl. by apply last_None in Hl.
Qed.

Lemma X5_witness :
  ∃ l, chain (heap (final_world Posix sample_started))
         (query_queue (context_of (final_world Posix sample_started))) l ∧
       NoDup l ∧
       (∀ q, q ∈ l → is_Some (heap (final_world Posix sample_started) !! q)) ∧
       query_queue_tail (context_of (final_world Posix sample_started)) =
         last l ∧
       (query_queue (context_of (final_world Posix sample_started)) = None ↔
        query_queue_tail (context_of (final_world Posix sample_started)) =
          None) ∧
       (∀ p, current_query (context_of (final_world Posix sample_started)) =
               Some p →
             (p ∉ l) ∧
             is_Some (heap (final_world Posix sample_started) !! p)).
Proof.
  apply (X5_queue_is_a_list Posix true (Some sample_conn) 7 sample_pg
           sample_started (final_world Posix sample_started)
           (context_of (final_world Posix sample_started))).
  - reflexivity.
  - apply sample_started_run.
  - vm_compute. reflexivity.
Defined.

(** ** The readiness and timer callbacks: wake-ups without results *)

(** X10. A wake-up on which the driver is still busy does nothing but call
    [PQconsumeInput]: however often libuv calls [on_poll] (with a status
    that is not negative) or [on_timer] while [PQisBusy] answers yes, the
    context, its handle, which stays armed, the queue and the nodes are as
    before, and no result is fetched. *)
Theorem X10_busy_wake_ups_change_nothing plat c h t xs :
  h_data (handle c) = PgCtx → destroying c = false →
  h_active (handle c) = true → Forall still_busy xs →
  run plat (map fire xs) {| ctx := Some c; heap := h; trace := t |} =
  Some ((), {| ctx := Some c; heap := h;
               trace := t ++ map (λ _, EvPQconsumeInput) xs |}).
Proof.
  intros Hdata Hd Hac Hxs. revert t.
  induction xs as [|x xs IH]; intros t.
  - simpl. by rewrite app_nil_r.
  - apply Forall_cons in Hxs as [(Hst & Hco & Hb) Hxs].
    change (map fire (x :: xs)) with ([fire x] ++ map fire xs).
    assert (run plat [fire x] {| ctx := Some c; heap := h; trace := t |} =
            Some ((), {| ctx := Some c; heap := h;
                         trace := t ++ [EvPQconsumeInput] |})) as Hstep.
    { rewrite run_single. unfold fire, step. rewrite bind_get_pg, Hac.
      by apply on_ready_busy. }
    rewrite (run_app _ _ _ _ _ Hstep), IH by done.
    simpl. by rewrite <- app_assoc.
Qed.

Lemma X10_witness :
  run Posix (map fire (op_busy sample_op1 ++ op_busy sample_op1))
    {| ctx := Some sample_busy_ctx; heap := sample_heap; trace := [] |} =
  Some ((), {| ctx := Some sample_busy_ctx; heap := sample_heap;
               trace := [] ++ map (λ _, EvPQconsumeInput)
                                (op_busy sample_op1 ++ op_busy sample_op1) |}).
Proof.
  apply (X10_busy_wake_ups_change_nothing Posix sample_busy_ctx sample_heap []
           (op_busy sample_op1 ++ op_busy sample_op1)).
  - reflexivity.
  - reflexivity.
  - reflexivity.
  - repeat constructor; simpl; lia.
Defined.

(** The store the error funnel leaves when it is entered while an operation
    is in flight. *)
Lemma failed_running plat cn ud e p qq tl error h t l (active : bool) c :
  c = set_handle {| h_type := match plat with
                              | Posix => UV_POLL
                              | Win32 => UV_TIMER
                              end;
                    h_data := PgCtx; h_active := active;
                    h_closing := false |}
        (running_ctx plat cn ud p qq tl) →
  failed plat e c error h t l =
  {| ctx := Some
       {| conn := Some cn; owns_connection := false; is_connected := true;
          is_executing := false; destroying := true;
          handle := {| h_type := match plat with
                                 | Posix => UV_POLL
                                 | Win32 => UV_TIMER
                                 end;
                       h_data := PgCtx; h_active := false;
                       h_closing := true |};
          query_queue := None; query_queue_tail := None;
          current_query := Some p;
          error_message := match error with
                           | Some s => strdup (strdup_ok e) s
                           | None => None
                           end;
          pg_data := ud |};
     heap := drop_all l h;
     trace := t ++ [stop_event plat] ++ map EvFreeQuery l ++ [Ev_uv_close] |}.
Proof.
  intros ->.
  unfold failed, destroyed, errored, cancelled, finished, finish_events,
    cancel_events, closing, stopped, handle_initialized, running_ctx.
  destruct plat; simpl; by rewrite ?app_nil_r, <- ?app_assoc.
Qed.

(** X11. A wake-up that fails while an operation is in flight, because
    libuv reports a poll error to [on_poll] or because [PQconsumeInput]
    fails, fetches no result and calls no callback.  [on_poll] does not
    even call [PQconsumeInput] on a poll error.  The handle is disarmed,
    the queued nodes are freed, first to last, and [uv_close] starts the
    destruction; the context keeps a copy of the error text, of libuv for a
    poll error and of the driver otherwise. *)
Theorem X11_failed_wake_up plat cn ud o rest w e status :
  Running plat cn ud o rest w →
  match plat with Posix => status <? 0 | Win32 => false end = true ∨
  consume_input e = 0 →
  ∃ w' c',
    step plat (Fire e status) w = Some ((), w') ∧
    trace w' = trace w ++
      (if match plat with Posix => status <? 0 | Win32 => false end
       then []
       else EvPQconsumeInput ::
              match plat with Posix => [] | Win32 => [Ev_uv_timer_stop] end) ++
      [stop_event plat] ++ map EvFreeQuery (map op_addr rest) ++
      [Ev_uv_close] ∧
    ctx w' = Some c' ∧ destroying c' = true ∧ is_executing c' = false ∧
    query_queue c' = None ∧ query_queue_tail c' = None ∧
    h_active (handle c') = false ∧ h_closing (handle c') = true ∧
    error_message c' =
      strdup (strdup_ok e)
        (if match plat with Posix => status <? 0 | Win32 => false end
         then uv_strerror e status
         else PQerrorMessage e).
Proof.
  intros (qq & Hctx & Hc & Hnin & Hh) Hfail.
  destruct w as [cx h t]. simpl in *. subst cx.
  unfold step. rewrite bind_get_pg. simpl.
  destruct plat.
  - destruct (status <? 0) eqn:Hst.
    + apply Z.ltb_lt in Hst.
      rewrite (on_poll_error e status _ h t (map op_addr rest)) by done.
      rewrite (failed_running Posix cn ud e (op_addr o) qq
        (last (map op_addr rest)) _ _ _ _ true _ eq_refl).
      eexists _, _. repeat split.
    + destruct Hfail as [?|Hco]; [done|]. apply Z.ltb_ge in Hst.
      pose proof (on_ready_consume_failed Posix e status
        (running_ctx Posix cn ud (op_addr o) qq (last (map op_addr rest)))
        h t (map op_addr rest) eq_refl eq_refl eq_refl Hst Hco Hc) as Hrun.
      rewrite Hrun.
      rewrite (failed_running Posix cn ud e (op_addr o) qq
        (last (map op_addr rest)) _ _ _ _ true _ eq_refl).
      eexists _, _. repeat split. simpl. by rewrite <- app_assoc.
  - destruct Hfail as [?|Hco]; [done|].
    pose proof (on_ready_consume_failed Win32 e 0
      (running_ctx Win32 cn ud (op_addr o) qq (last (map op_addr rest)))
      h t (map op_addr rest) eq_refl eq_refl eq_refl (Z.le_refl 0) Hco Hc)
      as Hrun.
    change (on_ready Win32 e UvHandle status)
      with (on_ready Win32 e UvHandle 0).
    rewrite Hrun.
    rewrite (failed_running Win32 cn ud e (op_addr o) qq
      (last (map op_addr rest)) _ _ _ _ false _ eq_refl).
    eexists _, _. repeat split. simpl. by rewrite <- app_assoc.
Qed.

Lemma sample_two_running :
  Running Posix sample_conn 7 sample_op1 [sample_op2]
    (final_world Posix sample_two_started).
Proof.
  exists (Some 11%nat). split; [|split; [|split]].
  - vm_compute. reflexivity.
  - split; [reflexivity|]. exists (op_node sample_op2).
    split; [vm_compute; reflexivity|reflexivity].
  - intros Hin. apply list_elem_of_singleton in Hin. discriminate Hin.
  - constructor; [|constructor; [|constructor]].
    + exists (set_next (Some 11%nat) (op_node sample_op1)).
      split; [vm_compute; reflexivity|reflexivity].
    + exists (op_node sample_op2).
      split; [vm_compute; reflexivity|reflexivity].
Defined.

Lemma X11_witness :
  ∃ w' c',
    step Posix (Fire sample_env_consume_fails (-1))
      (final_world Posix sample_two_started) = Some ((), w') ∧
    trace w' = trace (final_world Posix sample_two_started) ++
      (if -1 <? 0 then [] else EvPQconsumeInput :: []) ++
      [stop_event Posix] ++ map EvFreeQuery (map op_addr [sample_op2]) ++
      [Ev_uv_close] ∧
    ctx w' = Some c' ∧ destroying c' = true ∧ is_executing c' = false ∧
    query_queue c' = None ∧ query_queue_tail c' = None ∧
    h_active (handle c') = false ∧ h_closing (handle c') = true ∧
    error_message c' =
      strdup (strdup_ok sample_env_consume_fails)
        (if -1 <? 0
         then uv_strerror sample_env_consume_fails (-1)
         else PQerrorMessage sample_env_consume_fails).
Proof.
  apply (X11_failed_wake_up Posix sample_conn 7 sample_op1 [sample_op2]
           (final_world Posix sample_two_started) sample_env_consume_fails
           (-1)).
  - apply sample_two_running.
  - left. reflexivity.
Defined.

(** ** The error funnel *)

Lemma frees_app t1 t2 : frees (t1 ++ t2) = frees t1 ++ frees t2.
Proof. apply List.filter_app. Qed.

Lemma frees_addrs l : frees (map EvFreeQuery l) = map EvFreeQuery l.
Proof. induction l as [|q l IH]; [done|]. unfold frees in *. simpl. by f_equal. Qed.

Lemma callbacks_single x : is_callback x = false → callbacks [x] = [].
Proof. unfold callbacks. simpl. by intros ->. Qed.

Lemma sends_single x : is_send x = false → sends [x] = [].
Proof. unfold sends. simpl. by intros ->. Qed.

(** The error funnel calls no callback and hands nothing to the driver. *)
Lemma failed_silent plat e c error h t l :
  callbacks (trace (failed plat e c error h t l)) = callbacks t ∧
  sends (trace (failed plat e c error h t l)) = sends t.
Proof.
  assert (callbacks [stop_event plat] = [] ∧ sends [stop_event plat] = [])
    as [Hs1 Hs2] by (by destruct plat).
  assert (∀ c0, callbacks (cancel_events plat e c0) = [] ∧
                sends (cancel_events plat e c0) = []) as Hcan.
  { intros c0. unfold cancel_events.
    destruct (is_executing c0), (PQgetCancel e), plat; done. }
  assert (∀ c0, callbacks (finish_events c0) = [] ∧
                sends (finish_events c0) = []) as Hfin.
  { intros c0. unfold finish_events.
    destruct (conn c0), (owns_connection c0); done. }
  unfold failed, destroyed.
  destruct (destroying c), (is_executing c),
    (handle_initialized (errored e c error)),
    (h_closing (handle (errored e c error))); simpl;
    try change (stop_event plat :: map EvFreeQuery l)
      with ([stop_event plat] ++ map EvFreeQuery l);
    rewrite ?callbacks_app, ?sends_app, ?callbacks_frees, ?sends_frees,
      ?Hs1, ?Hs2, ?(proj1 (Hcan _)), ?(proj2 (Hcan _)),
      ?(proj1 (Hfin _)), ?(proj2 (Hfin _)), ?app_nil_r; done.
Qed.

(** What the error funnel leaves of a context that was not being
    destroyed: nothing when the handle was never initialized, and otherwise
    a context that waits for the completion of [uv_close]. *)
Lemma failed_ctx plat e c error h t l :
  destroying c = false → h_closing (handle c) = false →
  match ctx (failed plat e c error h t l) with
  | None => handle_initialized c = false
  | Some c' =>
      handle_initialized c = true ∧ destroying c' = true ∧
      h_closing (handle c') = true ∧ h_active (handle c') = false ∧
      is_executing c' = false ∧ query_queue c' = None ∧
      current_query c' = current_query c
  end.
Proof.
  intros Hd Hcl.
  unfold failed, destroyed, errored, cancelled, finished, closing, stopped,
    handle_initialized.
  destruct c as [cn own con ex des [ty da ac cl] qq ta cu er ud].
  simpl in *. subst.
  destruct ex, ty, cn, own; simpl; done.
Qed.

(** What a refused dispatch leaves, on a handle that is initialized when
    the error funnel stops it: [c1] is the context after the pop of node
    [n] at address [p], and [l] the nodes still queued. *)
Lemma dispatched_refused plat e c1 n h t p l :
  destroying c1 = false → h_closing (handle c1) = false →
  is_executing c1 = true →
  (refused_early plat e = true → handle_initialized c1 = true) →
  (p ∉ l) →
  send_result e = 0 ∨ (plat = Posix ∧ PQsocket e < 0) ∨
  init_result e ≠ 0 ∨ start_result e ≠ 0 →
  callbacks (trace (dispatched plat e c1 n h t l)) = callbacks t ∧
  sends (trace (dispatched plat e c1 n h t l)) = sends t ++ [send_event n] ∧
  frees (trace (dispatched plat e c1 n h t l)) =
    frees t ++ map EvFreeQuery l ∧
  heap (dispatched plat e c1 n h t l) !! p = h !! p ∧
  ∃ c', ctx (dispatched plat e c1 n h t l) = Some c' ∧
        destroying c' = true ∧ h_closing (handle c') = true ∧
        h_active (handle c') = false ∧ is_executing c' = false ∧
        query_queue c' = None ∧ current_query c' = current_query c1.
Proof.
  intros Hd1 Hcl1 Hex1 Hearly Hpl Hfail.
  assert (callbacks [send_event n] = [] ∧ sends [send_event n] = [send_event n]
          ∧ frees [send_event n] = [])
    as (Hcs & Hss & Hfs).
  { unfold callbacks, sends, frees, send_event. simpl.
    by destruct (0 <? param_count n). }
  assert (∀ c0 err t0,
    destroying c0 = false → h_closing (handle c0) = false →
    handle_initialized c0 = true → is_executing c0 = true →
    current_query c0 = current_query c1 →
    callbacks t0 = callbacks t → sends t0 = sends t ++ [send_event n] →
    frees t0 = frees t →
    callbacks (trace (failed plat e c0 err h t0 l)) = callbacks t ∧
    sends (trace (failed plat e c0 err h t0 l)) =
      sends t ++ [send_event n] ∧
    frees (trace (failed plat e c0 err h t0 l)) =
      frees t ++ map EvFreeQuery l ∧
    heap (failed plat e c0 err h t0 l) !! p = h !! p ∧
    ∃ c', ctx (failed plat e c0 err h t0 l) = Some c' ∧
          destroying c' = true ∧ h_closing (handle c') = true ∧
          h_active (handle c') = false ∧ is_executing c' = false ∧
          query_queue c' = None ∧ current_query c' = current_query c1)
    as Hfailed.
  { intros c0 err t0 Hd0 Hcl0 Hi0 Hex0 Hcur0 Hcb0 Hsd0 Hfr0.
    destruct (failed_silent plat e c0 err h t0 l) as [-> ->].
    pose proof (failed_ctx plat e c0 err h t0 l Hd0 Hcl0) as Hctx.
    split; [done|]. split; [done|]. split; [|split].
    - unfold failed, destroyed. rewrite Hd0, Hex0.
      assert (handle_initialized (errored e c0 err) = true ∧
              h_closing (handle (errored e c0 err)) = false ∧
              is_executing (errored e c0 err) = false ∧
              finish_events (errored e c0 err) = finish_events c0)
        as (-> & -> & Hex' & Hfe).
      { unfold errored, cancelled, stopped, handle_initialized, finish_events
          in *. rewrite Hex0. by destruct_ctx c0. }
      unfold cancel_events. rewrite Hex'. simpl.
      assert (frees (finish_events c0) = []) as Hff.
      { unfold finish_events. by destruct (conn c0), (owns_connection c0). }
      assert (frees [stop_event plat] = []) as Hfs' by (by destruct plat).
      change (stop_event plat :: map EvFreeQuery l)
        with ([stop_event plat] ++ map EvFreeQuery l).
      rewrite !frees_app, Hfe, Hff, Hfs', Hfr0, frees_addrs. simpl.
      by rewrite !app_nil_r.
    - unfold failed, destroyed.
      destruct (destroying c0), (handle_initialized (errored e c0 err)),
        (h_closing (handle (errored e c0 err))); simpl;
        rewrite drop_all_lookup; by destruct (decide (p ∈ l)).
    - destruct (ctx (failed plat e c0 err h t0 l)) as [c'|]; [|congruence].
      exists c'. destruct Hctx as (_ & ? & ? & ? & ? & ? & ?).
      repeat split; try done. congruence. }
  assert (callbacks (t ++ [send_event n]) = callbacks t ∧
          sends (t ++ [send_event n]) = sends t ++ [send_event n] ∧
          frees (t ++ [send_event n]) = frees t)
    as (Hcb1 & Hsd1 & Hfr1).
  { by rewrite callbacks_app, sends_app, frees_app, Hcs, Hss, Hfs,
      !app_nil_r. }
  assert (∀ x, is_callback x = false → is_send x = false →
    is_free x = false →
    callbacks ((t ++ [send_event n]) ++ [x]) = callbacks t ∧
    sends ((t ++ [send_event n]) ++ [x]) = sends t ++ [send_event n] ∧
    frees ((t ++ [send_event n]) ++ [x]) = frees t)
    as Hext.
  { intros x Hx1 Hx2 Hx3.
    rewrite callbacks_app, sends_app, frees_app, Hcb1, Hsd1, Hfr1,
      callbacks_single, sends_single, !app_nil_r by done.
    unfold frees. simpl. by rewrite Hx3, app_nil_r. }
  unfold dispatched. unfold refused_early in Hearly.
  destruct (send_result e =? 0) eqn:Hsend.
  { by apply Hfailed; auto. }
  apply Z.eqb_neq in Hsend. destruct plat.
  - destruct (PQsocket e <? 0) eqn:Hsock.
    { by apply Hfailed; auto. }
    apply Z.ltb_ge in Hsock.
    destruct (Hext (Ev_uv_poll_init (PQsocket e)) eq_refl eq_refl eq_refl)
      as (Hcb2 & Hsd2 & Hfr2).
    destruct (init_result e =? 0) eqn:Hinit; simpl.
    + apply Z.eqb_eq in Hinit.
      destruct (start_result e =? 0) eqn:Hstart; simpl.
      { apply Z.eqb_eq in Hstart.
        destruct Hfail as [?|[[_ ?]|[?|?]]]; [done|lia|done|done]. }
      apply Hfailed; try done.
      * by rewrite callbacks_app, Hcb2, callbacks_single, app_nil_r.
      * by rewrite sends_app, Hsd2, sends_single, app_nil_r.
      * by rewrite frees_app, Hfr2, app_nil_r.
    + by apply Hfailed; auto.
  - destruct (Hext Ev_uv_timer_init eq_refl eq_refl eq_refl)
      as (Hcb2 & Hsd2 & Hfr2).
    destruct (init_result e =? 0) eqn:Hinit; simpl.
    + apply Z.eqb_eq in Hinit.
      destruct (start_result e =? 0) eqn:Hstart; simpl.
      { apply Z.eqb_eq in Hstart.
        destruct Hfail as [?|[[? _]|[?|?]]]; done. }
      apply Hfailed; try done.
      * by rewrite callbacks_app, Hcb2, callbacks_single, app_nil_r.
      * by rewrite sends_app, Hsd2, sends_single, app_nil_r.
      * by rewrite frees_app, Hfr2, app_nil_r.
    + by apply Hfailed; auto.
Qed.

(** X9. A refused dispatch is silent.  When [pquv_execute] dispatches the
    head of the queue and the dispatch fails (the driver refuses the query,
    the socket is invalid, or the handle cannot be initialized or started)
    on a handle that is initialized, by an earlier dispatch or by this one
    when only starting it fails, [pquv_execute] still returns [0], and
    nobody is told: no callback is called, not even that of the refused
    operation, and no further query is handed to the driver.  The context
    is destroyed on the spot and waits for the completion of [uv_close];
    the queued nodes are freed, and the node of the refused operation is
    not. *)
Theorem X9_refused_dispatch_is_silent plat e c h t p l :
  is_connected c = true → is_executing c = false → destroying c = false →
  h_closing (handle c) = false →
  queue_is h c (p :: l) →
  handle_initialized c = true ∨ refused_early plat e = false →
  send_result e = 0 ∨ (plat = Posix ∧ PQsocket e < 0) ∨
  init_result e ≠ 0 ∨ start_result e ≠ 0 →
  ∃ w',
    pquv_execute plat e PgCtx {| ctx := Some c; heap := h; trace := t |} =
      Some (0, w') ∧
    callbacks (trace w') = callbacks t ∧
    (∃ n, h !! p = Some n ∧ sends (trace w') = sends t ++ [send_event n]) ∧
    frees (trace w') = frees t ++ map EvFreeQuery l ∧
    heap w' !! p = h !! p ∧
    ∃ c', ctx w' = Some c' ∧
          destroying c' = true ∧ h_closing (handle c') = true ∧
          h_active (handle c') = false ∧ is_executing c' = false ∧
          query_queue c' = None ∧ current_query c' = Some p.
Proof.
  intros Hcon Hex Hd Hcl Hq Hok Hfail.
  pose proof (chain_NoDup _ _ _ (proj1 Hq)) as [Hpl _]%NoDup_cons.
  destruct Hq as (Hc & _ & _).
  destruct Hc as [Hqq (n & Hn & Hc)].
  set (c1 := popped p n (set_is_executing true c)).
  assert (destroying c1 = false ∧ h_closing (handle c1) = false ∧
          handle_initialized c1 = handle_initialized c ∧
          is_executing c1 = true ∧ current_query c1 = Some p)
    as (Hd1 & Hcl1 & Hi1 & Hex1 & Hcur1).
  { unfold c1, popped. by destruct (next n). }
  exists (dispatched plat e c1 n h t l).
  split.
  { rewrite pquv_execute_unfold, Hcon, Hex, Hqq. cbn [negb].
    by rewrite (bind_call _ _ _ _ _
      (execute_next_query_nonempty plat e (set_is_executing true c) p n h t l
         (λ _, Hok) Hqq Hn Hc)). }
  assert (refused_early plat e = true → handle_initialized c1 = true)
    as Hearly.
  { intros Hr. rewrite Hi1. destruct Hok as [?|?]; congruence. }
  destruct (dispatched_refused plat e c1 n h t p l Hd1 Hcl1 Hex1 Hearly Hpl
              Hfail) as (Hcb & Hsd & Hfr & Hheap & c' & Hctx & Hshut).
  split; [done|]. split; [eauto|]. split; [done|]. split; [done|].
  exists c'. rewrite <- Hcur1. by destruct Hshut as (? & ? & ? & ? & ? & ?).
Qed.

Lemma sample_queued_is :
  queue_is sample_heap sample_queued_ctx [10%nat].
Proof.
  split; [|split].
  - split; [reflexivity|]. exists (op_node sample_op1). split; reflexivity.
  - reflexivity.
  - intros p Hp. discriminate Hp.
Defined.

Lemma X9_witness :
  ∃ w',
    pquv_execute Posix sample_env_start_fails PgCtx
      {| ctx := Some sample_queued_ctx; heap := sample_heap; trace := [] |} =
      Some (0, w') ∧
    callbacks (trace w') = callbacks [] ∧
    (∃ n, sample_heap !! 10%nat = Some n ∧
          sends (trace w') = sends [] ++ [send_event n]) ∧
    frees (trace w') = frees [] ++ map EvFreeQuery [] ∧
    heap w' !! 10%nat = sample_heap !! 10%nat ∧
    ∃ c', ctx w' = Some c' ∧
          destroying c' = true ∧ h_closing (handle c') = true ∧
          h_active (handle c') = false ∧ is_executing c' = false ∧
          query_queue c' = None ∧ current_query c' = Some 10%nat.
Proof.
  apply (X9_refused_dispatch_is_silent Posix sample_env_start_fails
           sample_queued_ctx sample_heap [] 10%nat []).
  - reflexivity.
  - reflexivity.
  - reflexivity.
  - reflexivity.
  - apply sample_queued_is.
  - right. reflexivity.
  - right. right. right. vm_compute. discriminate.
Defined.

(** ** Dispatch *)

Lemma dispatched_starts_with_send plat e c n h t l :
  ∃ t', trace (dispatched plat e c n h t l) = t ++ send_event n :: t'.
Proof.
  unfold dispatched, failed, destroyed.
  repeat (match goal with
          | |- context [if ?b then _ else _] => destruct b
          | |- context [match ?p with Posix => _ | Win32 => _ end] =>
              destruct p
          end; simpl);
    rewrite <- ?app_assoc; simpl; eauto.
Qed.

(** X12. Which call hands a query to the driver depends on the parameter
    count alone.  With a count of zero or less the query is sent with
    [PQsendQuery], also when a parameter array was passed.  With a positive
    count [n] it is sent with [PQsendQueryParams] and [nParams = n]: with a
    copy of the first [n] entries of the array, or with a [NULL] array of
    values when [NULL] was passed for the array.  This is the first call
    of the run that queues the operation and executes it, when the
    dispatch is not refused before the handle is initialized. *)
Theorem X12_send_call_follows_param_count plat calloc_ok existing_conn ud pg
    a s n ps cb d e q :
  pquv_create calloc_ok existing_conn ud = Some pg →
  calloc_query a = Some q → strdup_sql_ok a = true →
  (0 < n → is_Some ps → malloc_params_ok a = true) →
  (0 < n → ∀ l, ps = Some l → (Z.to_nat n ≤ length l)%nat) →
  refused_early plat e = false →
  ∃ w t',
    run plat [Queue a (Some s) n ps cb d; Execute e] (world_of pg) =
      Some ((), w) ∧
    trace w =
      (if 0 <? n
       then EvPQsendQueryParams s n
              (match ps with
               | Some l => Some (copy_params a (Z.to_nat n) l)
               | None => None
               end)
       else EvPQsendQuery s) :: t'.
Proof.
  intros Hpg Hcal Hsql Hmal Hlen Hacc.
  destruct existing_conn as [cn|]; [|done].
  destruct (Idle_created _ _ _ _ Hpg) as [(qq & Hctx & Hc & _) _].
  simpl in Hctx, Hc. subst qq. injection Hctx as ->.
  set (c0 := idle_ctx cn ud None None).
  set (node := new_node a s n ps cb d).
  assert (pquv_queue a PgCtx (Some s) n ps cb d (world_of c0) =
          Some (0, {| ctx := Some (enqueued_ctx q c0);
                      heap := enqueued_heap q node c0 ∅; trace := [] |}))
    as Hqueue.
  { apply pquv_queue_spec; try done. }
  assert (enqueued_heap q node c0 ∅ !! q = Some node) as Hnode.
  { by apply enqueued_heap_new. }
  destruct (dispatched_starts_with_send plat e
    (popped q node (set_is_executing true (enqueued_ctx q c0))) node
    (enqueued_heap q node c0 ∅) [] []) as (t' & Ht').
  eexists _, t'. split.
  - change [Queue a (Some s) n ps cb d; Execute e]
      with ([Queue a (Some s) n ps cb d] ++ [Execute e]).
    assert (run plat [Queue a (Some s) n ps cb d] (world_of c0) =
            Some ((), {| ctx := Some (enqueued_ctx q c0);
                         heap := enqueued_heap q node c0 ∅; trace := [] |}))
      as Hstep.
    { rewrite run_single. unfold step.
      by rewrite (bind_call _ _ _ _ _ Hqueue). }
    rewrite (run_app _ _ _ _ _ Hstep), run_single. unfold step.
    erewrite bind_call; [reflexivity|].
    rewrite pquv_execute_unfold. simpl.
    rewrite (bind_call _ _ _ _ _
      (execute_next_query_nonempty plat e
         (set_is_executing true (enqueued_ctx q c0)) q node _ [] []
         (λ _, or_intror Hacc) eq_refl Hnode eq_refl)).
    reflexivity.
  - rewrite Ht'. simpl. unfold send_event, node, new_node. simpl.
    by destruct (0 <? n), ps.
Qed.

Lemma X12_witness :
  ∃ w t',
    run Posix [Queue (op_alloc sample_op2) (Some "SELECT $1"%string) 1 None
                 None 0; Execute (sample_env 0 [])] (world_of sample_pg) =
      Some ((), w) ∧
    trace w =
      (if 0 <? 1
       then EvPQsendQueryParams "SELECT $1" 1
              (match @None (list (option string)) with
               | Some l => Some (copy_params (op_alloc sample_op2)
                                   (Z.to_nat 1) l)
               | None => None
               end)
       else EvPQsendQuery "SELECT $1") :: t'.
Proof.
  apply (X12_send_call_follows_param_count Posix true (Some sample_conn) 7
           sample_pg (op_alloc sample_op2) "SELECT $1"%string 1 None None 0
           (sample_env 0 []) 11%nat).
  - reflexivity.
  - reflexivity.
  - reflexivity.
  - intros _ _. reflexivity.
  - intros _ l Hl. discriminate Hl.
  - reflexivity.
Defined.

(** ** Relations that every function keeps *)

Create HintDb pquv_keeps.

Ltac keeps_side :=
  first
    [ reflexivity
    | by intros
    | (repeat match goal with p : platform |- _ => destruct p end);
      by intros ].

(** The relation [R] relates a store to itself, composes, and is kept by
    the steps the functions are made of: a write to a field of the context
    other than [is_connected], [data] and [is_executing], a call that is
    neither [free] of a node nor [PQcancel], and the two calls of [free]. *)
Section keeps.
Variable R : world → world → Prop.
Hypothesis R_refl : ∀ w, R w w.
Hypothesis R_trans : ∀ w1 w2 w3, R w1 w2 → R w2 w3 → R w1 w3.
Hypothesis R_modify : ∀ pg f,
  (∀ c, is_connected (f c) = is_connected c ∧ pg_data (f c) = pg_data c ∧
        is_executing (f c) = is_executing c) →
  keeps R (modify_pg pg f).
Hypothesis R_emit : ∀ x,
  is_free x = false → x ≠ EvPQcancel → keeps R (emit x).
Hypothesis R_free_query : ∀ q, keeps R (free_query q).
Hypothesis R_free_pg : ∀ pg, keeps R (free_pg pg).

Lemma keeps_ret {A} (a : A) : keeps R (ret a).
Proof. intros w b w' [-> ->]%ret_inv. apply R_refl. Qed.

Lemma keeps_undefined {A} : keeps R (@undefined A).
Proof. intros w a w' [=]. Qed.

Lemma keeps_bind {A B} (m : M A) (k : A → M B) :
  keeps R m → (∀ a, keeps R (k a)) → keeps R (bind m k).
Proof.
  intros Hm Hk w b w' (a & w1 & H1 & H2)%bind_inv.
  eapply R_trans; [by eapply Hm|by eapply Hk].
Qed.

Lemma keeps_get_pg pg : keeps R (get_pg pg).
Proof. intros w c w' (_ & _ & ->)%get_pg_inv. apply R_refl. Qed.

Lemma keeps_load q : keeps R (load q).
Proof. intros w n w' [_ ->]%load_inv. apply R_refl. Qed.

Lemma keeps_heap_size : keeps R heap_size.
Proof. intros w n w' [_ ->]%heap_size_inv. apply R_refl. Qed.

Lemma keeps_fresh q : keeps R (fresh q).
Proof. intros w n w' [_ ->]%fresh_inv. apply R_refl. Qed.

Ltac keeps_go :=
  repeat first
    [ progress intros
    | apply keeps_ret
    | apply keeps_undefined
    | apply keeps_get_pg
    | apply keeps_load
    | apply keeps_heap_size
    | apply keeps_fresh
    | apply R_free_query
    | apply R_free_pg
    | (apply R_emit; keeps_side)
    | (apply R_modify; keeps_side)
    | solve [auto with pquv_keeps]
    | apply keeps_bind
    | progress cbv zeta
    | match goal with
      | |- keeps _ (if ?b then _ else _) => destruct b
      | |- keeps _ (match ?x with _ => _ end) => destruct x
      end ].

Lemma keeps_uv_stop plat pg : keeps R (uv_stop plat pg).
Proof. unfold uv_stop. keeps_go. Qed.

Lemma keeps_uv_init plat pg fd r : keeps R (uv_init plat pg fd r).
Proof. unfold uv_init. keeps_go. Qed.

Lemma keeps_uv_start plat pg r : keeps R (uv_start plat pg r).
Proof. unfold uv_start. keeps_go. Qed.

Lemma keeps_uv_close pg : keeps R (uv_close pg).
Proof. unfold uv_close. keeps_go. Qed.

Lemma keeps_set_handle_data pg d : keeps R (set_handle_data pg d).
Proof. unfold set_handle_data. keeps_go. Qed.

Lemma keeps_cleanup_query q : keeps R (cleanup_query q).
Proof. unfold cleanup_query. keeps_go. Qed.

Hint Resolve keeps_uv_stop keeps_uv_init keeps_uv_start keeps_uv_close
  keeps_set_handle_data keeps_cleanup_query : pquv_keeps.

Lemma keeps_clear_queue fuel q : keeps R (clear_queue fuel q).
Proof.
  revert q. induction fuel as [|fuel IH]; intros [q|]; simpl; keeps_go.
Qed.

Hint Resolve keeps_clear_queue : pquv_keeps.

(** What the functions above the error funnel keep, once the funnel, the
    dispatch and [pquv_execute] keep the relation. *)
Section callers.
Hypothesis R_handle_error : ∀ plat e pg error,
  keeps R (handle_error plat e pg error).
Hypothesis R_execute_next_query : ∀ plat e pg,
  keeps R (execute_next_query plat e pg).
Hypothesis R_pquv_execute : ∀ plat e pg,
  keeps R (pquv_execute plat e pg).
Hypothesis R_store : ∀ q f, keeps R (store q f).
Hypothesis R_alloc_query : ∀ q n, keeps R (alloc_query q n).
Hypothesis R_discard_query : ∀ q, keeps R (discard_query q).

Hint Resolve R_handle_error R_execute_next_query R_pquv_execute
  R_store R_alloc_query R_discard_query : pquv_keeps.

Lemma keeps_drain_results plat e pg rs :
  keeps R (drain_results plat e pg rs).
Proof. induction rs as [|r rs IH]; simpl; keeps_go. Qed.

Hint Resolve keeps_drain_results : pquv_keeps.

Lemma keeps_on_ready plat e h status : keeps R (on_ready plat e h status).
Proof. unfold on_ready, on_poll, on_timer. keeps_go. Qed.

Lemma keeps_on_handle_closed h : keeps R (on_handle_closed h).
Proof. unfold on_handle_closed. keeps_go. Qed.

Lemma keeps_pquv_queue a pg s n ps cb d :
  keeps R (pquv_queue a pg s n ps cb d).
Proof. unfold pquv_queue, strdup. keeps_go. Qed.

Hint Resolve keeps_on_ready keeps_on_handle_closed keeps_pquv_queue
  : pquv_keeps.

Lemma keeps_step plat c : keeps R (step plat c).
Proof. destruct c; unfold step; keeps_go. Qed.

Lemma keeps_run plat cs : keeps R (run plat cs).
Proof.
  induction cs as [|c cs IH]; simpl; [apply keeps_ret|].
  apply keeps_bind; [by apply keeps_step|done].
Qed.

Lemma keeps_step_calls plat c : ¬ is_queue c → keeps R (step plat c).
Proof. destruct c; simpl; [done|..]; intros _; unfold step; keeps_go. Qed.

Lemma keeps_run_calls plat cs :
  Forall (λ c, ¬ is_queue c) cs → keeps R (run plat cs).
Proof.
  induction 1 as [|c cs Hc Hcs IH]; simpl; [apply keeps_ret|].
  apply keeps_bind; [by apply keeps_step_calls|done].
Qed.
End callers.

(** The error funnel, the dispatch and [pquv_execute] keep a relation
    that does not mind [PQcancel] and the flag [is_executing]. *)
Section funnel.
Hypothesis R_cancel : keeps R (emit EvPQcancel).
Hypothesis R_set_executing : ∀ pg b,
  keeps R (modify_pg pg (set_is_executing b)).

Hint Resolve R_cancel R_set_executing : pquv_keeps.

Lemma keeps_pg_async_cancel plat e pg :
  keeps R (pg_async_cancel plat e pg).
Proof. unfold pg_async_cancel. keeps_go. Qed.

Hint Resolve keeps_pg_async_cancel : pquv_keeps.

Lemma keeps_pg_async_destroy plat e pg :
  keeps R (pg_async_destroy plat e pg).
Proof. unfold pg_async_destroy. keeps_go. Qed.

Hint Resolve keeps_pg_async_destroy : pquv_keeps.

Lemma keeps_handle_error plat e pg error :
  keeps R (handle_error plat e pg error).
Proof. unfold handle_error. keeps_go. Qed.

Hint Resolve keeps_handle_error : pquv_keeps.

Lemma keeps_execute_next_query plat e pg :
  keeps R (execute_next_query plat e pg).
Proof. unfold execute_next_query. keeps_go. Qed.

Hint Resolve keeps_execute_next_query : pquv_keeps.

Lemma keeps_pquv_execute plat e pg : keeps R (pquv_execute plat e pg).
Proof. unfold pquv_execute. keeps_go. Qed.
End funnel.
End keeps.

(** ** Accounting of the query nodes *)

Lemma elem_of_frees_iff q t : EvFreeQuery q ∈ frees t ↔ EvFreeQuery q ∈ t.
Proof.
  unfold frees. rewrite !list_elem_of_In, filter_In. simpl. tauto.
Qed.

Lemma accounted_refl w : accounted w w.
Proof.
  exists []. rewrite app_nil_r. split; [done|]. split; [constructor|].
  split; [by intros q ?%elem_of_nil|].
  intros q. destruct (decide (EvFreeQuery q ∈ [])) as [Hin|]; [|done].
  by apply elem_of_nil in Hin.
Qed.

Lemma accounted_trans w1 w2 w3 :
  accounted w1 w2 → accounted w2 w3 → accounted w1 w3.
Proof.
  intros (t1 & Ht1 & Hnd1 & Hal1 & Hh1) (t2 & Ht2 & Hnd2 & Hal2 & Hh2).
  exists (t1 ++ t2). split; [by rewrite Ht2, Ht1, app_assoc|].
  assert (∀ q, EvFreeQuery q ∈ t2 → EvFreeQuery q ∉ t1) as Hdis.
  { intros q Hq2 Hq1. apply Hal2 in Hq2 as [n Hn]. rewrite Hh1 in Hn.
    by destruct (decide (EvFreeQuery q ∈ t1)). }
  split; [|split].
  - rewrite frees_app. apply NoDup_app. split; [done|]. split; [|done].
    intros x Hx1 Hx2.
    assert (∃ q, x = EvFreeQuery q) as [q ->].
    { unfold frees in Hx1. apply list_elem_of_In, filter_In in Hx1 as [_ Hx].
      destruct x; try discriminate. eauto. }
    apply (proj1 (elem_of_frees_iff _ _)) in Hx1, Hx2.
    exact (Hdis q Hx2 Hx1).
  - intros q [Hq|Hq]%elem_of_app; [by apply Hal1|].
    apply Hal2 in Hq as [n Hn]. rewrite Hh1 in Hn.
    destruct (decide (EvFreeQuery q ∈ t1)); [done|eauto].
  - intros q. rewrite Hh2, Hh1.
    destruct (decide (EvFreeQuery q ∈ t2)) as [H2|H2],
      (decide (EvFreeQuery q ∈ t1)) as [H1|H1],
      (decide (EvFreeQuery q ∈ t1 ++ t2)) as [H12|H12]; try done;
      exfalso; try (apply H12, elem_of_app; by auto).
    apply elem_of_app in H12 as [?|?]; done.
Qed.

Lemma accounted_quiet w w' x :
  heap w' = heap w → trace w' = trace w ++ [x] → is_free x = false →
  accounted w w'.
Proof.
  intros Hh Ht Hx. exists [x]. split; [done|].
  split; [unfold frees; simpl; rewrite Hx; constructor|].
  assert (∀ q, EvFreeQuery q ∉ [x]) as Hnot.
  { intros q Hq%list_elem_of_singleton. subst x. discriminate Hx. }
  split; [intros q Hq; by apply Hnot in Hq|].
  intros q. rewrite Hh. destruct (decide (EvFreeQuery q ∈ [x])); [|done].
  by apply Hnot in e.
Qed.

Lemma accounted_modify pg f : keeps accounted (modify_pg pg f).
Proof.
  intros w u w' (c & _ & _ & ->)%modify_pg_inv.
  exists []. simpl. rewrite app_nil_r. split; [done|].
  split; [constructor|]. split; [by intros q ?%elem_of_nil|].
  intros q. destruct (decide (EvFreeQuery q ∈ [])) as [Hin|]; [|done].
  by apply elem_of_nil in Hin.
Qed.

Lemma accounted_emit x : is_free x = false → keeps accounted (emit x).
Proof.
  intros Hx w u w' ->%emit_inv. by apply (accounted_quiet _ _ x).
Qed.

Lemma accounted_free_pg pg : keeps accounted (free_pg pg).
Proof.
  intros w u w' (c & _ & _ & ->)%free_pg_inv.
  by apply (accounted_quiet _ _ EvFreeCtx).
Qed.

Lemma accounted_free_query q : keeps accounted (free_query q).
Proof.
  intros w u w' [Hlive ->]%free_query_inv.
  exists [EvFreeQuery q]. simpl. split; [done|].
  split; [apply NoDup_singleton|].
  split; [by intros q' [= ->]%list_elem_of_singleton|].
  intros q'. destruct (decide (EvFreeQuery q' ∈ [EvFreeQuery q])) as [Hin|Hin].
  - apply list_elem_of_singleton in Hin. injection Hin as ->.
    apply lookup_delete_eq.
  - apply lookup_delete_ne. intros ->. apply Hin.
    by apply list_elem_of_singleton.
Qed.

Lemma accounted_run plat cs :
  Forall (λ c, ¬ is_queue c) cs → keeps accounted (run plat cs).
Proof.
  assert (∀ pg f,
    (∀ c, is_connected (f c) = is_connected c ∧ pg_data (f c) = pg_data c ∧
          is_executing (f c) = is_executing c) →
    keeps accounted (modify_pg pg f)) as Hmod.
  { intros pg f _. apply accounted_modify. }
  assert (∀ x, is_free x = false → x ≠ EvPQcancel → keeps accounted (emit x))
    as Hemit.
  { intros x Hx _. by apply accounted_emit. }
  assert (keeps accounted (emit EvPQcancel)) as Hcan.
  { by apply accounted_emit. }
  pose proof accounted_refl as Hrefl.
  pose proof accounted_trans as Htrans.
  pose proof accounted_free_query as Hfq.
  pose proof accounted_free_pg as Hfp.
  pose proof (λ pg b, accounted_modify pg (set_is_executing b)) as Hex.
  apply keeps_run_calls; try done.
  - intros. by apply keeps_handle_error.
  - intros. by apply keeps_execute_next_query.
  - intros. by apply keeps_pquv_execute.
Qed.

Lemma admissible_run cn d plat cs w :
  Inv cn d w → admissible plat cs w →
  ∃ w', run plat cs w = Some ((), w').
Proof.
  revert w. induction cs as [|c cs IH]; intros w HI Hadm; simpl.
  - by exists w.
  - destruct Hadm as (Hen & Hex & Hnext).
    destruct (step_defined cn d plat c w HI Hen) as (w1 & Hstep & HI1).
    { intros e cx Hc Hctx. by apply (Hex e cx). }
    destruct (IH w1 HI1 (Hnext w1 Hstep)) as (w' & Hrun).
    exists w'. by rewrite (bind_call _ _ _ _ _ Hstep).
Qed.

(** X6. The query nodes are accounted for.  From a store that a run reaches
    from [pquv_create], take any sequence of calls of [pquv_execute] and of
    libuv's callbacks, each of which can happen when it is made,
    [pquv_execute] being called only on a context whose destruction has
    not begun and not for a first dispatch that is refused early.  The
    sequence is defined; [free] is called on nodes allocated at its start
    only, and on none of them twice; and these calls allocate no node and
    write to none: the nodes allocated afterwards are those allocated
    before, with what they carried, without those that [free] was called
    on. *)
Theorem X6_nodes_are_accounted_for plat calloc_ok existing_conn ud pg cs0 w
    cs :
  pquv_create calloc_ok existing_conn ud = Some pg →
  run plat cs0 (world_of pg) = Some ((), w) →
  Forall (λ c, ¬ is_queue c) cs →
  admissible plat cs w →
  ∃ w' t, run plat cs w = Some ((), w') ∧
          trace w' = trace w ++ t ∧
          NoDup (frees t) ∧
          (∀ q, EvFreeQuery q ∈ t → is_Some (heap w !! q)) ∧
          ∀ q, heap w' !! q =
               if decide (EvFreeQuery q ∈ t) then None else heap w !! q.
Proof.
  intros Hpg Hrun0 Hcs Hadm. destruct existing_conn as [cn|]; [|done].
  pose proof (created_Inv _ _ _ _ Hpg) as HI0.
  pose proof (run_Inv _ _ _ _ _ _ HI0 Hrun0) as HI.
  destruct (admissible_run cn false plat cs w HI Hadm) as (w' & Hrun).
  destruct (accounted_run plat cs Hcs w () w' Hrun) as (t & Ht).
  by exists w', t.
Qed.

Lemma X6_witness :
  ∃ w' t, run Posix (wake_calls sample_op1)
            (final_world Posix sample_two_started) = Some ((), w') ∧
          trace w' = trace (final_world Posix sample_two_started) ++ t ∧
          NoDup (frees t) ∧
          (∀ q, EvFreeQuery q ∈ t →
                is_Some (heap (final_world Posix sample_two_started) !! q)) ∧
          ∀ q, heap w' !! q =
               if decide (EvFreeQuery q ∈ t) then None
               else heap (final_world Posix sample_two_started) !! q.
Proof.
  apply (X6_nodes_are_accounted_for Posix true (Some sample_conn) 7
           sample_pg sample_two_started
           (final_world Posix sample_two_started) (wake_calls sample_op1)).
  - reflexivity.
  - vm_compute. reflexivity.
  - repeat constructor; intros [].
  - split; [vm_compute; reflexivity|]. split; [by intros|].
    intros w1 Hw1. vm_compute in Hw1. injection Hw1 as <-.
    split; [vm_compute; reflexivity|]. split; [by intros|].
    intros w2 _. exact I.
Defined.

(** ** No node is left behind *)

Lemma frees_busy {A} (xs : list A) :
  frees (map (λ _, EvPQconsumeInput) xs) = [].
Proof. by induction xs. Qed.

Lemma frees_op_callbacks o rs : frees (op_callbacks o rs) = [].
Proof. unfold op_callbacks. destruct (op_cb o); [|done]. by induction rs. Qed.

Lemma frees_delivered o rs : frees (op_delivered o rs) = [].
Proof.
  unfold op_delivered. induction rs as [|r rs IH]; [done|].
  change (frees (([EvPQgetResult] ++ op_callbacks o [r] ++ [EvPQclear r])
            ++ op_delivered o rs) = []).
  rewrite !frees_app, frees_op_callbacks. unfold op_delivered.
  by rewrite IH.
Qed.

Lemma frees_drain plat o rs :
  frees (op_drain plat o rs) = [EvFreeQuery (op_addr o)].
Proof.
  unfold op_drain. destruct plat; by rewrite !frees_app, frees_delivered.
Qed.

Lemma frees_dispatch plat e o : frees (op_dispatch plat e o) = [].
Proof.
  assert (is_free (op_send o) = false) as Hs.
  { unfold op_send, send_event. by destruct (0 <? param_count (op_node o)). }
  unfold op_dispatch, frees. simpl. rewrite Hs. by destruct plat.
Qed.

Lemma frees_run_trace plat o rest :
  frees (run_trace plat o rest) =
  map (λ o, EvFreeQuery (op_addr o)) (o :: rest).
Proof.
  revert o. induction rest as [|o' rest IH]; intros o.
  - by rewrite run_trace_nil, !frees_app, frees_busy, frees_drain.
  - rewrite run_trace_cons, !frees_app, frees_busy, frees_drain,
      frees_dispatch, IH. done.
Qed.

Lemma frees_prefix_trace plat o pre k :
  frees (prefix_trace plat o pre k) =
  map (λ o, EvFreeQuery (op_addr o)) (o :: pre).
Proof.
  revert o. induction pre as [|o' pre IH]; intros o.
  - by rewrite prefix_trace_nil, !frees_app, frees_busy, frees_drain,
      frees_dispatch.
  - rewrite prefix_trace_cons, !frees_app, frees_busy, frees_drain,
      frees_dispatch, IH. done.
Qed.

Lemma frees_abort plat k good bad rest :
  frees (op_abort plat k good bad rest) =
  EvFreeQuery (op_addr k) :: map EvFreeQuery rest.
Proof.
  unfold op_abort.
  destruct plat;
    change (EvPQgetResult :: ?a) with ([EvPQgetResult] ++ a);
    rewrite !frees_app, frees_delivered, frees_op_callbacks, frees_addrs;
    simpl; by rewrite app_nil_r.
Qed.

Lemma wake_calls_not_queue ops :
  Forall (λ c, ¬ is_queue c) (flat_map wake_calls ops).
Proof.
  apply Forall_forall. intros c Hc.
  apply list_elem_of_In, in_flat_map in Hc as (o & _ & Hc).
  unfold wake_calls in Hc. apply in_app_or in Hc as [Hc|[<-|[]]].
  - apply in_map_iff in Hc as (x & <- & _). by intros [].
  - by intros [].
Qed.

(** Once every node that was allocated has been freed, none is left. *)
Lemma all_freed plat cs w1 w ops cn ud :
  Idle cn ud ops w1 → Forall (λ c, ¬ is_queue c) cs →
  run plat cs w1 = Some ((), w) →
  (∀ o, o ∈ ops → EvFreeQuery (op_addr o) ∈ frees (trace w)) →
  trace w1 = [] →
  heap w = ∅.
Proof.
  intros (qq & _ & _ & _ & Hdom) Hcs Hrun Hfreed Ht1.
  destruct (accounted_run plat cs Hcs w1 () w Hrun) as (t & Ht & _ & _ & Hh).
  rewrite Ht1 in Ht. simpl in Ht. subst t.
  apply map_empty. intros q. rewrite Hh.
  destruct (decide (EvFreeQuery q ∈ trace w)) as [|Hnot]; [done|].
  destruct (heap w1 !! q) as [n|] eqn:Hq; [|done].
  exfalso. apply Hnot.
  assert (q ∈ map op_addr ops) as Hin by (apply Hdom; eauto).
  apply list_elem_of_In, in_map_iff in Hin as (o & <- & Ho).
  apply elem_of_frees_iff, Hfreed. by apply list_elem_of_In.
Qed.

(** X7. A batch in which everything succeeds leaves no node behind: the
    node of every operation is freed exactly once, in the order in which
    the operations were queued, each right after its results were drained,
    and when the batch is over no node is allocated. *)
Theorem X7_success_frees_every_node plat calloc_ok existing_conn ud pg e0 ops :
  pquv_create calloc_ok existing_conn ud = Some pg →
  NoDup (map op_addr ops) → sends_ok e0 → Forall op_succeeds ops →
  ∃ w, run plat (batch e0 ops) (world_of pg) = Some ((), w) ∧
       frees (trace w) = map (λ o, EvFreeQuery (op_addr o)) ops ∧
       heap w = ∅.
Proof.
  intros Hpg Hnd Hsend Hok. destruct existing_conn as [cn|]; [|done].
  destruct (batch_run plat _ _ _ _ _ _ Hpg Hnd Hsend Hok) as (w & Hrun & Ht & _).
  destruct (Idle_created _ _ _ _ Hpg) as [HI Ht0].
  destruct (queue_steps plat cn ud [] ops _ HI Hnd) as (w1 & Hrun1 & HI1 & Ht1).
  simpl in HI1. exists w. split; [done|].
  assert (frees (trace w) = map (λ o, EvFreeQuery (op_addr o)) ops) as Hfrees.
  { rewrite Ht. destruct ops as [|o rest]; [done|]. unfold batch_trace.
    by rewrite frees_app, frees_dispatch, frees_run_trace. }
  split; [done|].
  unfold batch in Hrun. rewrite (run_app _ _ _ _ _ Hrun1) in Hrun.
  apply (all_freed plat (Execute e0 :: flat_map wake_calls ops) w1 w ops cn ud).
  - done.
  - constructor; [by intros []|apply wake_calls_not_queue].
  - done.
  - intros o Ho. rewrite Hfrees.
    apply list_elem_of_In, (in_map (λ o, EvFreeQuery (op_addr o))),
      list_elem_of_In, Ho.
  - by rewrite Ht1, Ht0.
Qed.

Lemma X7_witness :
  ∃ w, run Posix (batch (sample_env 0 []) sample_ops) (world_of sample_pg) =
         Some ((), w) ∧
       frees (trace w) = map (λ o, EvFreeQuery (op_addr o)) sample_ops ∧
       heap w = ∅.
Proof.
  apply (X7_success_frees_every_node Posix true (Some sample_conn) 7
           sample_pg (sample_env 0 []) sample_ops).
  - reflexivity.
  - apply sample_ops_NoDup.
  - apply sample_sends_ok.
  - apply sample_ops_succeed.
Defined.

Lemma failing_batch_frees plat cn ud e0 pre k post w1 good bad more :
  Idle cn ud (pre ++ k :: post) w1 → trace w1 = [] →
  sends_ok e0 → Forall op_succeeds pre →
  Forall still_busy (op_busy k) → ready (op_done k) →
  op_results k = good ++ bad :: more →
  all_ok good = true → status_ok (PQresultStatus bad) = false →
  ∃ w, run plat (Execute e0 :: flat_map wake_calls pre ++ wake_calls k) w1 =
         Some ((), w) ∧
       frees (trace w) =
         map (λ o, EvFreeQuery (op_addr o)) (pre ++ k :: post).
Proof.
  intros HI1 Ht1 Hsend Hpre Hbusy Hready Hrs Hok Hbad.
  assert (∃ w2, run plat (Execute e0 :: flat_map wake_calls pre) w1 =
                  Some ((), w2) ∧
                Running plat cn ud k post w2 ∧
                frees (trace w2) = map (λ o, EvFreeQuery (op_addr o)) pre)
    as (w2 & Hrun2 & HR2 & Hfr2).
  { destruct pre as [|o pre].
    - destruct (execute_step plat cn ud e0 k post w1 HI1 Hsend)
        as (w2 & Hstep & HR & Ht2).
      exists w2. simpl. rewrite (bind_call _ _ _ _ _ Hstep).
      split; [done|]. split; [done|].
      by rewrite Ht2, Ht1, app_nil_l, frees_dispatch.
    - destruct (execute_step plat cn ud e0 o (pre ++ k :: post) w1 HI1 Hsend)
        as (w2 & Hstep & HR & Ht2).
      destruct (prefix_run _ _ _ _ _ _ _ _ HR Hpre) as (w3 & Hrun3 & HR3 & Ht3).
      exists w3.
      change (Execute e0 :: flat_map wake_calls (o :: pre))
        with ([Execute e0] ++ flat_map wake_calls (o :: pre)).
      assert (run plat [Execute e0] w1 = Some ((), w2)) as Hrun2.
      { by rewrite run_single. }
      rewrite (run_app _ _ _ _ _ Hrun2).
      split; [done|]. split; [done|].
      rewrite Ht3, Ht2, Ht1, app_nil_l.
      by rewrite !frees_app, frees_dispatch, frees_prefix_trace. }
  destruct (op_run_fail _ _ _ _ _ _ _ _ _ HR2 Hbusy Hready Hrs Hok Hbad)
    as (w3 & c3 & Hrun3 & _ & _ & Ht3).
  exists w3. split.
  - change (Execute e0 :: flat_map wake_calls pre ++ wake_calls k)
      with ((Execute e0 :: flat_map wake_calls pre) ++ wake_calls k).
    by rewrite (run_app _ _ _ _ _ Hrun2).
  - rewrite Ht3, !frees_app, frees_busy, frees_abort, Hfr2, map_app.
    simpl. by rewrite map_map.
Qed.

(** X8. A batch that ends with a failing result leaves no node behind
    either: the nodes of the operations answered before, the node of the
    operation whose result failed and the nodes of the operations that were
    never dispatched are all freed, each exactly once, in the order in
    which they were queued, and afterwards no node is allocated. *)
Theorem X8_failing_result_frees_every_node plat calloc_ok existing_conn ud pg
    e0 pre k post good bad more :
  pquv_create calloc_ok existing_conn ud = Some pg →
  NoDup (map op_addr (pre ++ k :: post)) →
  sends_ok e0 → Forall op_succeeds pre →
  Forall still_busy (op_busy k) → ready (op_done k) →
  op_results k = good ++ bad :: more →
  all_ok good = true → status_ok (PQresultStatus bad) = false →
  ∃ w, run plat (batch_to e0 (pre ++ k :: post) pre k) (world_of pg) =
         Some ((), w) ∧
       frees (trace w) =
         map (λ o, EvFreeQuery (op_addr o)) (pre ++ k :: post) ∧
       heap w = ∅.
Proof.
  intros Hpg Hnd Hsend Hpre Hbusy Hready Hrs Hok Hbad.
  destruct existing_conn as [cn|]; [|done].
  destruct (Idle_created _ _ _ _ Hpg) as [HI Ht0].
  destruct (queue_steps plat cn ud [] (pre ++ k :: post) _ HI Hnd)
    as (w1 & Hrun1 & HI1 & Ht1).
  simpl in HI1. rewrite Ht0 in Ht1.
  destruct (failing_batch_frees plat cn ud e0 pre k post w1 good bad more
              HI1 Ht1 Hsend Hpre Hbusy Hready Hrs Hok Hbad)
    as (w & Hrun & Hfrees).
  exists w. split.
  { unfold batch_to. by rewrite (run_app _ _ _ _ _ Hrun1). }
  split; [done|].
  apply (all_freed plat
           (Execute e0 :: flat_map wake_calls pre ++ wake_calls k) w1 w
           (pre ++ k :: post) cn ud).
  - done.
  - constructor; [by intros []|].
    apply Forall_app. split; [apply wake_calls_not_queue|].
    pose proof (wake_calls_not_queue [k]) as Hk. simpl in Hk.
    by rewrite app_nil_r in Hk.
  - done.
  - intros o Ho. rewrite Hfrees.
    apply list_elem_of_In, (in_map (λ o, EvFreeQuery (op_addr o))),
      list_elem_of_In, Ho.
  - done.
Qed.

Lemma X8_witness :
  ∃ w, run Posix (batch_to (sample_env 0 [])
                    ([sample_op0] ++ sample_op1_failing :: [sample_op2])
                    [sample_op0] sample_op1_failing) (world_of sample_pg) =
         Some ((), w) ∧
       frees (trace w) =
         map (λ o, EvFreeQuery (op_addr o))
           ([sample_op0] ++ sample_op1_failing :: [sample_op2]) ∧
       heap w = ∅.
Proof.
  apply (X8_failing_result_frees_every_node Posix true (Some sample_conn) 7
           sample_pg (sample_env 0 []) [sample_op0] sample_op1_failing
           [sample_op2] [] (sample_result 1 PGRES_FATAL_ERROR)
           [sample_result 4 PGRES_TUPLES_OK]).
  - reflexivity.
  - apply sample_failing_NoDup.
  - apply sample_sends_ok.
  - repeat constructor; simpl; try lia; reflexivity.
  - repeat constructor; simpl; lia.
  - repeat constructor; simpl; lia.
  - reflexivity.
  - reflexivity.
  - reflexivity.
Defined.

(** ** A dispatch refused during a wake-up *)

(** X19. An operation whose dispatch is refused is dropped without a word.
    Operation [o] is in flight, [o'] and then [rest] are queued behind it,
    and the wake-up that brings the results of [o], all successes, is the
    one on which the dispatch of [o'] fails: the driver refuses the query,
    the socket is invalid, or the handle cannot be initialized or started.
    Then the wake-up is defined; the callbacks called are those of [o] for
    its results, and none for [o'] or [rest]; the query of [o'] is the only
    one handed to the driver; the nodes of [o] and of [rest] are freed, in
    this order, and the node of [o'] is not: it stays allocated, as the
    in-flight node of a context that is being destroyed and waits for the
    completion of [uv_close]. *)
Theorem X19_refused_later_dispatch plat cn ud o o' rest w x :
  Running plat cn ud o (o' :: rest) w → ready x →
  all_ok (results (fst x)) = true →
  send_result (fst x) = 0 ∨ (plat = Posix ∧ PQsocket (fst x) < 0) ∨
  init_result (fst x) ≠ 0 ∨ start_result (fst x) ≠ 0 →
  ∃ w' c',
    step plat (fire x) w = Some ((), w') ∧
    callbacks (trace w') =
      callbacks (trace w) ++ op_callbacks o (results (fst x)) ∧
    sends (trace w') = sends (trace w) ++ [op_send o'] ∧
    frees (trace w') =
      frees (trace w) ++ map EvFreeQuery (op_addr o :: map op_addr rest) ∧
    is_Some (heap w' !! op_addr o') ∧
    ctx w' = Some c' ∧ destroying c' = true ∧
    h_closing (handle c') = true ∧ h_active (handle c') = false ∧
    is_executing c' = false ∧ query_queue c' = None ∧
    current_query c' = Some (op_addr o').
Proof.
  intros (qq & Hctx & Hc & Hnin & Hh) (Hst & Hco & Hb) Hok Hfail.
  destruct w as [cx h t]. cbn [ctx heap trace] in *. subst cx.
  destruct (holds_head _ _ _ Hh) as (n & Hn & Hnode).
  apply Forall_cons in Hh as [_ Hh].
  apply (chain_delete _ _ _ (op_addr o) Hnin) in Hc.
  apply (holds_delete _ (op_addr o) _ Hnin) in Hh.
  pose proof (chain_NoDup _ _ _ Hc) as [Hpl _]%NoDup_cons.
  destruct Hc as [-> (n' & Hn' & Hc)].
  destruct (holds_head _ _ _ Hh) as (n'' & Hn'' & Hnode').
  rewrite Hn' in Hn''. injection Hn'' as <-.
  set (cD := set_current_query None (stopped
               (running_ctx plat cn ud (op_addr o) (Some (op_addr o'))
                  (last (map op_addr (o' :: rest)))))).
  set (c1 := popped (op_addr o') n' cD).
  set (tD := t ++ op_drain plat o (results (fst x))).
  assert (destroying c1 = false ∧ h_closing (handle c1) = false ∧
          handle_initialized c1 = true ∧
          is_executing c1 = true ∧ current_query c1 = Some (op_addr o'))
    as (Hd1 & Hcl1 & Hi1 & Hex1 & Hcur1).
  { unfold c1, cD, popped. by destruct plat, (next n'). }
  destruct (dispatched_refused plat (fst x) c1 n' (delete (op_addr o) h) tD
              (op_addr o') (map op_addr rest) Hd1 Hcl1 Hex1 (λ _, Hi1) Hpl
              Hfail) as (Hcb & Hsd & Hfr & Hheap & c' & Hctx' & Hshut).
  exists (dispatched plat (fst x) c1 n' (delete (op_addr o) h) tD
            (map op_addr rest)), c'.
  split.
  { unfold fire, step. rewrite bind_get_pg. simpl.
    rewrite on_ready_drained; try done; try (by destruct plat).
    - rewrite (drained_running _ _ _ _ _ _ _ _ n) by done.
      apply execute_next_query_nonempty; try done.
      intros _. left. by destruct plat.
    - intros p [= <-]. eauto. }
  split.
  { rewrite Hcb. unfold tD. by rewrite callbacks_app, callbacks_drain. }
  split.
  { rewrite Hsd. unfold tD.
    rewrite sends_app, sends_drain, app_nil_r.
    by rewrite (send_event_node_of o' n'). }
  split.
  { rewrite Hfr. unfold tD. rewrite frees_app, frees_drain.
    by rewrite <- app_assoc. }
  split; [rewrite Hheap; eauto|].
  split; [done|]. rewrite <- Hcur1.
  by destruct Hshut as (? & ? & ? & ? & ? & ?).
Qed.

Lemma X19_witness :
  ∃ w' c',
    step Posix (fire (sample_env_late_refusal, 0))
      (final_world Posix sample_two_started) = Some ((), w') ∧
    callbacks (trace w') =
      callbacks (trace (final_world Posix sample_two_started)) ++
      op_callbacks sample_op1 (results (fst (sample_env_late_refusal, 0))) ∧
    sends (trace w') =
      sends (trace (final_world Posix sample_two_started)) ++
      [op_send sample_op2] ∧
    frees (trace w') =
      frees (trace (final_world Posix sample_two_started)) ++
      map EvFreeQuery (op_addr sample_op1 :: map op_addr []) ∧
    is_Some (heap w' !! op_addr sample_op2) ∧
    ctx w' = Some c' ∧ destroying c' = true ∧
    h_closing (handle c') = true ∧ h_active (handle c') = false ∧
    is_executing c' = false ∧ query_queue c' = None ∧
    current_query c' = Some (op_addr sample_op2).
Proof.
  apply (X19_refused_later_dispatch Posix sample_conn 7 sample_op1 sample_op2
           [] (final_world Posix sample_two_started)
           (sample_env_late_refusal, 0)).
  - apply sample_two_running.
  - repeat split; simpl; lia.
  - reflexivity.
  - left. reflexivity.
Defined.

(** ** What no function writes *)

Lemma same_owner_ctx w w' : ctx w' = ctx w → same_owner w w'.
Proof. intros Hctx c' Hc'. rewrite Hctx in Hc'. eauto. Qed.

Lemma same_owner_trans w1 w2 w3 :
  same_owner w1 w2 → same_owner w2 w3 → same_owner w1 w3.
Proof.
  intros H12 H23 c3 Hc3. destruct (H23 c3 Hc3) as (c2 & Hc2 & -> & ->).
  apply (H12 c2 Hc2).
Qed.

Lemma same_owner_modify pg f :
  (∀ c, is_connected (f c) = is_connected c ∧ pg_data (f c) = pg_data c ∧
        is_executing (f c) = is_executing c) →
  keeps same_owner (modify_pg pg f).
Proof.
  intros Hf w u w' (c & _ & Hc & ->)%modify_pg_inv c' [= <-].
  exists c. destruct (Hf c) as (? & ? & _). done.
Qed.

Lemma same_owner_run plat cs : keeps same_owner (run plat cs).
Proof.
  assert (∀ w, same_owner w w) as Hrefl by (intros w; by apply same_owner_ctx).
  pose proof same_owner_trans as Htrans.
  pose proof same_owner_modify as Hmod.
  assert (∀ x, is_free x = false → x ≠ EvPQcancel → keeps same_owner (emit x))
    as Hemit.
  { intros x _ _ w u w' ->%emit_inv. by apply same_owner_ctx. }
  assert (∀ q, keeps same_owner (free_query q)) as Hfq.
  { intros q w u w' [_ ->]%free_query_inv. by apply same_owner_ctx. }
  assert (∀ pg, keeps same_owner (free_pg pg)) as Hfp.
  { intros pg w u w' (c & _ & _ & ->)%free_pg_inv c' [=]. }
  assert (keeps same_owner (emit EvPQcancel)) as Hcan.
  { intros w u w' ->%emit_inv. by apply same_owner_ctx. }
  assert (∀ pg b, keeps same_owner (modify_pg pg (set_is_executing b)))
    as Hex.
  { intros pg b w u w' (c & _ & Hc & ->)%modify_pg_inv c' [= <-]. eauto. }
  assert (∀ q f, keeps same_owner (store q f)) as Hst.
  { intros q f w u w' (n & _ & ->)%store_inv. by apply same_owner_ctx. }
  assert (∀ q n, keeps same_owner (alloc_query q n)) as Hal.
  { intros q n w u w' [_ ->]%alloc_query_inv. by apply same_owner_ctx. }
  assert (∀ q, keeps same_owner (discard_query q)) as Hdis.
  { intros q w u w' ->%emit_inv. by apply same_owner_ctx. }
  apply keeps_run; try done.
  - intros. by apply keeps_handle_error.
  - intros. by apply keeps_execute_next_query.
  - intros. by apply keeps_pquv_execute.
Qed.

(** X14. No function writes [is_connected] or the user data of the
    context: in every store a run reaches from [pquv_create], a context
    that is still allocated is connected and carries the user data it was
    created with.  So [pquv_execute] never turns such a context down for
    not being connected: when it returns [-1], the context is executing. *)
Theorem X14_context_stays_connected plat calloc_ok existing_conn ud pg cs w c :
  pquv_create calloc_ok existing_conn ud = Some pg →
  run plat cs (world_of pg) = Some ((), w) →
  ctx w = Some c →
  is_connected c = true ∧ pg_data c = ud ∧
  ∀ e r w', pquv_execute plat e PgCtx w = Some (r, w') →
            (r = -1 ↔ is_executing c = true).
Proof.
  intros Hpg Hrun Hctx.
  destruct (same_owner_run plat cs _ _ _ Hrun c Hctx) as (c0 & Hc0 & Hcon & Hud).
  injection Hc0 as <-.
  assert (is_connected pg = true ∧ pg_data pg = ud) as [Hcon0 Hud0].
  { unfold pquv_create in Hpg. destruct existing_conn as [cn|]; [|done].
    destruct (PQstatus cn); [|done]. destruct calloc_ok; [|done].
    by injection Hpg as <-. }
  split; [congruence|]. split; [congruence|].
  intros e r w' Hex. destruct w as [cx h t]. simpl in Hctx. subst cx.
  rewrite pquv_execute_unfold in Hex. rewrite Hcon, Hcon0 in Hex.
  cbn [negb] in Hex. destruct (is_executing c).
  - by injection Hex as <- <-.
  - assert (r = 0) as ->; [|done].
    destruct (query_queue c);
      apply bind_inv in Hex as ([] & w1 & _ & [-> _]%ret_inv); done.
Qed.

Lemma X14_witness :
  is_connected (context_of (final_world Posix sample_started)) = true ∧
  pg_data (context_of (final_world Posix sample_started)) = 7 ∧
  ∀ e r w', pquv_execute Posix e PgCtx (final_world Posix sample_started) =
              Some (r, w') →
            (r = -1 ↔
             is_executing (context_of (final_world Posix sample_started)) =
               true).
Proof.
  apply (X14_context_stays_connected Posix true (Some sample_conn) 7
           sample_pg sample_started (final_world Posix sample_started)
           (context_of (final_world Posix sample_started))).
  - reflexivity.
  - apply sample_started_run.
  - vm_compute. reflexivity.
Defined.

(** ** The cancel request *)

Lemma cancel_free_refl w : cancel_free w w.
Proof. exists []. rewrite app_nil_r. split; [done|apply not_elem_of_nil]. Qed.

Lemma cancel_free_trans w1 w2 w3 :
  cancel_free w1 w2 → cancel_free w2 w3 → cancel_free w1 w3.
Proof.
  intros (t1 & Ht1 & Hn1) (t2 & Ht2 & Hn2). exists (t1 ++ t2).
  split; [by rewrite Ht2, Ht1, app_assoc|].
  by intros [?|?]%elem_of_app.
Qed.

Lemma cancel_free_same w w' : trace w' = trace w → cancel_free w w'.
Proof.
  intros Ht. exists []. rewrite app_nil_r. split; [done|apply not_elem_of_nil].
Qed.

Lemma cancel_free_one w w' x :
  trace w' = trace w ++ [x] → x ≠ EvPQcancel → cancel_free w w'.
Proof.
  intros Ht Hx. exists [x]. split; [done|].
  intros Hin%list_elem_of_singleton. by apply Hx.
Qed.

Lemma stays_idle_refl w : stays_idle w w.
Proof. split; [apply cancel_free_refl|done]. Qed.

Lemma stays_idle_trans w1 w2 w3 :
  stays_idle w1 w2 → stays_idle w2 w3 → stays_idle w1 w3.
Proof.
  intros [H12 I12] [H23 I23]. split; [by eapply cancel_free_trans|auto].
Qed.

Lemma stays_idle_modify pg f :
  (∀ c, is_connected (f c) = is_connected c ∧ pg_data (f c) = pg_data c ∧
        is_executing (f c) = is_executing c) →
  keeps stays_idle (modify_pg pg f).
Proof.
  intros Hf w u w' (c & _ & Hc & ->)%modify_pg_inv.
  split; [by apply cancel_free_same|].
  intros Hidle c' [= <-]. destruct (Hf c) as (_ & _ & ->). by apply Hidle.
Qed.

Lemma stays_idle_emit x :
  is_free x = false → x ≠ EvPQcancel → keeps stays_idle (emit x).
Proof.
  intros _ Hx w u w' ->%emit_inv.
  split; [by apply (cancel_free_one _ _ x)|done].
Qed.

Lemma stays_idle_free_query q : keeps stays_idle (free_query q).
Proof.
  intros w u w' [_ ->]%free_query_inv.
  split; [by apply (cancel_free_one _ _ (EvFreeQuery q))|done].
Qed.

Lemma stays_idle_free_pg pg : keeps stays_idle (free_pg pg).
Proof.
  intros w u w' (c & _ & _ & ->)%free_pg_inv.
  split; [by apply (cancel_free_one _ _ EvFreeCtx)|]. by intros _ c' [=].
Qed.

Lemma stays_idle_clear_executing pg :
  keeps stays_idle (modify_pg pg (set_is_executing false)).
Proof.
  intros w u w' (c & _ & Hc & ->)%modify_pg_inv.
  split; [by apply cancel_free_same|]. by intros _ c' [= <-].
Qed.

(** The relation is kept by the steps of the section above, so by the
    functions below the error funnel. *)
Ltac stays_idle_go :=
  repeat first
    [ progress intros
    | apply (keeps_ret stays_idle stays_idle_refl)
    | apply keeps_undefined
    | apply (keeps_get_pg stays_idle stays_idle_refl)
    | apply (keeps_load stays_idle stays_idle_refl)
    | apply (keeps_heap_size stays_idle stays_idle_refl)
    | apply stays_idle_free_query
    | apply stays_idle_free_pg
    | apply stays_idle_clear_executing
    | (apply stays_idle_emit; keeps_side)
    | (apply stays_idle_modify; keeps_side)
    | (apply (keeps_uv_stop stays_idle stays_idle_refl stays_idle_trans
                stays_idle_modify stays_idle_emit))
    | (apply (keeps_uv_init stays_idle stays_idle_refl stays_idle_trans
                stays_idle_modify stays_idle_emit))
    | (apply (keeps_uv_start stays_idle stays_idle_refl stays_idle_trans
                stays_idle_modify stays_idle_emit))
    | (apply (keeps_uv_close stays_idle stays_idle_trans stays_idle_modify
                stays_idle_emit))
    | (apply (keeps_set_handle_data stays_idle stays_idle_modify))
    | (apply (keeps_cleanup_query stays_idle stays_idle_refl
                stays_idle_free_query))
    | (apply (keeps_clear_queue stays_idle stays_idle_refl stays_idle_trans
                stays_idle_free_query))
    | solve [auto with pquv_keeps]
    | apply (keeps_bind stays_idle stays_idle_trans)
    | progress cbv beta iota zeta
    | match goal with
      | |- keeps _ (if ?b then _ else _) => destruct b
      | |- keeps _ (match ?x with _ => _ end) => destruct x
      end ].

(** On a context that is not executing, [pg_async_cancel] asks for no
    cancellation. *)
Lemma pg_async_cancel_idle plat e pg w u w' :
  pg_async_cancel plat e pg w = Some (u, w') → idle_now w → stays_idle w w'.
Proof.
  unfold pg_async_cancel. destruct pg.
  { intros [_ ->]%ret_inv _. apply stays_idle_refl. }
  intros (c & w1 & (_ & Hc & ->)%get_pg_inv & Hrest)%bind_inv Hidle.
  rewrite (Hidle c Hc) in Hrest. revert Hrest.
  match goal with
  | |- ?m w = _ → _ => assert (keeps stays_idle m) as Hk by stays_idle_go
  end.
  apply Hk.
Qed.

Lemma pg_async_destroy_idle plat e pg w u w' :
  pg_async_destroy plat e pg w = Some (u, w') → idle_now w → stays_idle w w'.
Proof.
  unfold pg_async_destroy. destruct pg.
  { intros [_ ->]%ret_inv _. apply stays_idle_refl. }
  intros (c & w0 & (_ & Hc & ->)%get_pg_inv & Hrest)%bind_inv Hidle.
  destruct (destroying c).
  { apply ret_inv in Hrest as [_ ->]. apply stays_idle_refl. }
  apply bind_inv in Hrest as ([] & w1 & Hmod & Hrest).
  apply bind_inv in Hrest as ([] & w2 & Hcan & Hrest).
  assert (stays_idle w w1) as [H1 I1].
  { revert Hmod. by apply stays_idle_modify. }
  pose proof (pg_async_cancel_idle _ _ _ _ _ _ Hcan (I1 Hidle)) as H2.
  assert (stays_idle w2 w') as H3.
  { revert Hrest.
    match goal with
    | |- ?m w2 = _ → _ => assert (keeps stays_idle m) as Hk by stays_idle_go
    end.
    apply Hk. }
  eapply stays_idle_trans; [|exact H3].
  eapply stays_idle_trans; [|exact H2]. by split.
Qed.

(** The error funnel clears [is_executing] before it cancels, so it asks
    for no cancellation either. *)
Lemma handle_error_idle plat e pg error :
  keeps stays_idle (handle_error plat e pg error).
Proof.
  intros w u w'. unfold handle_error.
  intros (c & w0 & (-> & Hc & ->)%get_pg_inv & Hrest)%bind_inv.
  apply bind_inv in Hrest as ([] & w1 & Hblock & Hrest).
  apply bind_inv in Hrest as ([] & w2 & Hmsg & Hrest).
  apply bind_inv in Hrest as ([] & w3 & Hcan & Hdes).
  assert (stays_idle w w1 ∧ idle_now w1) as [H1 I1].
  { destruct (is_executing c) eqn:Hex.
    - apply bind_inv in Hblock as ([] & w0 & Hstop & Hset).
      assert (stays_idle w w0) as H0.
      { revert Hstop.
        apply (keeps_uv_stop stays_idle stays_idle_refl stays_idle_trans
                 stays_idle_modify stays_idle_emit). }
      pose proof (stays_idle_clear_executing _ _ _ _ Hset) as H0'.
      split; [by eapply stays_idle_trans|].
      apply modify_pg_inv in Hset as (c0 & _ & _ & ->). by intros c' [= <-].
    - apply ret_inv in Hblock as [_ ->]. split; [apply stays_idle_refl|].
      intros c' Hc'. rewrite Hc in Hc'. by injection Hc' as <-. }
  assert (stays_idle w1 w2) as [H2 I2].
  { revert Hmsg. by apply stays_idle_modify. }
  pose proof (pg_async_cancel_idle _ _ _ _ _ _ Hcan (I2 I1)) as H3.
  pose proof (pg_async_destroy_idle _ _ _ _ _ _ Hdes (proj2 H3 (I2 I1))) as H4.
  eapply stays_idle_trans; [exact H1|].
  eapply stays_idle_trans; [by split|].
  by eapply stays_idle_trans.
Qed.

#[local] Hint Resolve handle_error_idle : pquv_keeps.

Lemma execute_next_query_idle plat e pg :
  keeps stays_idle (execute_next_query plat e pg).
Proof.
  intros w u w'. unfold execute_next_query.
  intros (c & w0 & (-> & Hc & ->)%get_pg_inv & Hrest)%bind_inv.
  destruct (query_queue c) as [head|].
  - revert Hrest.
    match goal with
    | |- ?m w = _ → _ => assert (keeps stays_idle m) as Hk by stays_idle_go
    end.
    apply Hk.
  - apply bind_inv in Hrest as ([] & w1 & Hset & Hdes).
    pose proof (stays_idle_clear_executing _ _ _ _ Hset) as H1.
    assert (idle_now w1) as I1.
    { apply modify_pg_inv in Hset as (c0 & _ & _ & ->). by intros c' [= <-]. }
    pose proof (pg_async_destroy_idle _ _ _ _ _ _ Hdes I1) as H2.
    by eapply stays_idle_trans.
Qed.

Lemma pquv_execute_cancel_free plat e pg :
  keeps cancel_free (pquv_execute plat e pg).
Proof.
  intros w r w'. unfold pquv_execute. destruct pg.
  { intros [_ ->]%ret_inv. apply cancel_free_refl. }
  intros (c & w0 & (_ & Hc & ->)%get_pg_inv & Hrest)%bind_inv.
  destruct (negb (is_connected c)).
  { apply ret_inv in Hrest as [_ ->]. apply cancel_free_refl. }
  destruct (is_executing c) eqn:Hex.
  { apply ret_inv in Hrest as [_ ->]. apply cancel_free_refl. }
  destruct (query_queue c).
  - apply bind_inv in Hrest as ([] & w1 & Hset & Hrest).
    apply bind_inv in Hrest as ([] & w2 & Hexec & [_ ->]%ret_inv).
    apply modify_pg_inv in Hset as (c0 & _ & _ & ->).
    destruct (execute_next_query_idle _ _ _ _ _ _ Hexec) as [H _].
    eapply cancel_free_trans; [|exact H]. by apply cancel_free_same.
  - apply bind_inv in Hrest as ([] & w1 & Hdes & [_ ->]%ret_inv).
    apply (pg_async_destroy_idle _ _ _ _ _ _ Hdes).
    intros c' Hc'. rewrite Hc in Hc'. by injection Hc' as <-.
Qed.

Lemma cancel_free_run plat cs : keeps cancel_free (run plat cs).
Proof.
  pose proof cancel_free_refl as Hrefl.
  pose proof cancel_free_trans as Htrans.
  assert (∀ pg f,
    (∀ c, is_connected (f c) = is_connected c ∧ pg_data (f c) = pg_data c ∧
          is_executing (f c) = is_executing c) →
    keeps cancel_free (modify_pg pg f)) as Hmod.
  { intros pg f _ w u w' (c & _ & _ & ->)%modify_pg_inv.
    by apply cancel_free_same. }
  assert (∀ x, is_free x = false → x ≠ EvPQcancel → keeps cancel_free (emit x))
    as Hemit.
  { intros x _ Hx w u w' ->%emit_inv. by apply (cancel_free_one _ _ x). }
  assert (∀ q, keeps cancel_free (free_query q)) as Hfq.
  { intros q w u w' H. by apply (stays_idle_free_query q w u w'). }
  assert (∀ pg, keeps cancel_free (free_pg pg)) as Hfp.
  { intros pg w u w' H. by apply (stays_idle_free_pg pg w u w'). }
  assert (∀ q f, keeps cancel_free (store q f)) as Hst.
  { intros q f w u w' (n & _ & ->)%store_inv. by apply cancel_free_same. }
  assert (∀ q n, keeps cancel_free (alloc_query q n)) as Hal.
  { intros q n w u w' [_ ->]%alloc_query_inv. by apply cancel_free_same. }
  assert (∀ q, keeps cancel_free (discard_query q)) as Hdis.
  { intros q w u w' ->%emit_inv. by apply (cancel_free_one _ _ (EvFreeQuery q)). }
  apply keeps_run; try done.
  - intros plat' e pg error w u w' H.
    by apply (handle_error_idle plat' e pg error w u w').
  - intros plat' e pg w u w' H.
    by apply (execute_next_query_idle plat' e pg w u w').
  - apply pquv_execute_cancel_free.
Qed.

(** X13. The library never asks the server to cancel a query.
    [pg_async_cancel] calls [PQcancel] on an executing context only, and
    every path into it clears [is_executing] first or runs on a context
    that is not executing: whatever the store and whatever the calls of the
    user and of libuv, a run adds no call of [PQcancel]. *)
Theorem X13_no_cancel_request plat cs w w' :
  run plat cs w = Some ((), w') →
  (∃ t, trace w' = trace w ++ t ∧ (EvPQcancel ∉ t)) ∧
  ((EvPQcancel ∉ trace w) → EvPQcancel ∉ trace w').
Proof.
  intros Hrun.
  destruct (cancel_free_run plat cs w () w' Hrun) as (t & Ht & Hnot).
  split; [by exists t|].
  intros Hold. rewrite Ht. by intros [?|?]%elem_of_app.
Qed.

Lemma X13_witness :
  (∃ t, trace (final_world Posix
                 (sample_two_started ++
                  [Fire sample_env_consume_fails 0; Closed])) =
          trace (final_world Posix sample_two_started) ++ t ∧
        (EvPQcancel ∉ t)) ∧
  ((EvPQcancel ∉ trace (final_world Posix sample_two_started)) →
   EvPQcancel ∉ trace (final_world Posix
                         (sample_two_started ++
                          [Fire sample_env_consume_fails 0; Closed]))).
Proof.
  apply (X13_no_cancel_request Posix
           [Fire sample_env_consume_fails 0; Closed]
           (final_world Posix sample_two_started)
           (final_world Posix
              (sample_two_started ++
               [Fire sample_env_consume_fails 0; Closed]))).
  vm_compute. reflexivity.
Defined.

(** ** Queueing while an operation is in flight *)

Lemma queue_while_running plat cn ud o rest o' w :
  Running plat cn ud o rest w → heap w !! op_addr o' = None →
  ∃ w', step plat (queue_call o') w = Some ((), w') ∧
        Running plat cn ud o (rest ++ [o']) w' ∧ trace w' = trace w.
Proof.
  intros (qq & Hctx & Hc & Hnin & Hh) Hnone.
  destruct w as [cx h t]. simpl in *. subst cx.
  set (c := running_ctx plat cn ud (op_addr o) qq (last (map op_addr rest))).
  destruct (holds_head _ _ _ Hh) as (n & Hn & Hnode).
  assert (queue_is h c (map op_addr rest)) as Hq.
  { split; [done|]. split; [done|]. intros p [= <-]. eauto. }
  pose proof (queue_is_enqueued h c _ (op_addr o') (op_node o') Hq Hnone eq_refl)
    as (Hc' & Ht' & Hcur').
  eexists. split.
  - unfold queue_call, step. erewrite bind_call; [reflexivity|].
    apply (pquv_queue_spec _ _ _ _ _ _ _ _ _ (op_addr o')); try done.
    + intros _ l [= <-]. unfold op_count. by rewrite Nat2Z.id.
    + intros p Hp. by apply (queue_is_tail h c (map op_addr rest) p).
  - split; [|done]. fold (op_node o').
    exists (query_queue (enqueued_ctx (op_addr o') c)).
    simpl. rewrite map_app. simpl. rewrite last_snoc.
    split; [|split; [done|split]].
    + unfold enqueued_ctx, c. simpl. by destruct qq.
    + destruct (Hcur' (op_addr o)) as [Hfresh _]; [|done].
      unfold enqueued_ctx, c. simpl. by destruct qq.
    + unfold holds.
      change (o :: rest ++ [o']) with ((o :: rest) ++ [o']).
      rewrite Forall_app. split.
      * apply (holds_agree h); [|done]. intros o0 Ho0 n0 Hn0.
        by apply enqueued_heap_old.
      * constructor; [|constructor]. exists (op_node o').
        split; [by apply enqueued_heap_new|done].
Qed.

(** X15. An operation queued while another one is in flight takes its
    turn: it is put behind the operations that wait, nothing is called at
    that moment, and when all operations succeed it is dispatched after the
    operations queued before it, its callback is called for its results
    after theirs, and the destruction of the context starts only when it
    has been answered. *)
Theorem X15_queued_in_flight_runs_last plat cn ud o rest o' w :
  Running plat cn ud o rest w → heap w !! op_addr o' = None →
  Forall op_succeeds (o :: rest ++ [o']) →
  ∃ w' c',
    run plat (queue_call o' :: flat_map wake_calls (o :: rest ++ [o'])) w =
      Some ((), w') ∧
    trace w' = trace w ++ run_trace plat o (rest ++ [o']) ∧
    callbacks (trace w') =
      callbacks (trace w) ++
      flat_map (λ o, op_callbacks o (op_results o)) (o :: rest) ++
      op_callbacks o' (op_results o') ∧
    sends (trace w') = sends (trace w) ++ map op_send rest ++ [op_send o'] ∧
    ctx w' = Some c' ∧ destroying c' = true.
Proof.
  intros HR Hnone Hok.
  destruct (queue_while_running plat cn ud o rest o' w HR Hnone)
    as (w1 & Hstep & HR1 & Ht1).
  destruct (ops_run plat cn ud o (rest ++ [o']) w1 HR1 Hok)
    as (w2 & c2 & Hrun & Hctx & Hd & _ & _ & Ht2).
  exists w2, c2.
  assert (run plat [queue_call o'] w = Some ((), w1)) as Hrun1.
  { by rewrite run_single. }
  change (queue_call o' :: flat_map wake_calls (o :: rest ++ [o']))
    with ([queue_call o'] ++ flat_map wake_calls (o :: rest ++ [o'])).
  rewrite (run_app _ _ _ _ _ Hrun1).
  split; [done|]. rewrite Ht2, Ht1. split; [done|].
  split; [|split; [|done]].
  - rewrite callbacks_app, callbacks_run_trace.
    change (o :: rest ++ [o']) with ((o :: rest) ++ [o']).
    rewrite flat_map_app. simpl. by rewrite app_nil_r.
  - by rewrite sends_app, sends_run_trace, map_app.
Qed.

Lemma X15_witness :
  ∃ w' c',
    run Posix (queue_call sample_op2 ::
               flat_map wake_calls (sample_op1 :: [] ++ [sample_op2]))
      (final_world Posix sample_started) = Some ((), w') ∧
    trace w' = trace (final_world Posix sample_started) ++
               run_trace Posix sample_op1 ([] ++ [sample_op2]) ∧
    callbacks (trace w') =
      callbacks (trace (final_world Posix sample_started)) ++
      flat_map (λ o, op_callbacks o (op_results o)) (sample_op1 :: []) ++
      op_callbacks sample_op2 (op_results sample_op2) ∧
    sends (trace w') =
      sends (trace (final_world Posix sample_started)) ++
      map op_send [] ++ [op_send sample_op2] ∧
    ctx w' = Some c' ∧ destroying c' = true.
Proof.
  apply (X15_queued_in_flight_runs_last Posix sample_conn 7 sample_op1 []
           sample_op2 (final_world Posix sample_started)).
  - exists None. split; [|split; [|split]].
    + vm_compute. reflexivity.
    + reflexivity.
    + apply not_elem_of_nil.
    + constructor; [|constructor]. exists (op_node sample_op1).
      split; [vm_compute; reflexivity|reflexivity].
  - vm_compute. reflexivity.
  - apply sample_ops_succeed.
Defined.

(** ** The handle is armed while an operation is in flight *)

Lemma destroyed_armed plat e c h t l :
  (h_active (handle c) = true → is_executing c = true) →
  armed (destroyed plat e c h t l).
Proof.
  intros Hac c'. unfold destroyed, finished, cancelled, closing, stopped,
    handle_initialized, armed_ok.
  destruct c as [cn own con ex des [ty da ac cl] qq ta cu er ud].
  simpl in *.
  destruct ex, ac, ty, cl, cn, own; simpl; intros [= <-]; simpl;
    try (split; [done|by intros [=]]);
    by specialize (Hac eq_refl).
Qed.

Lemma failed_armed plat e c error h t l :
  (h_active (handle c) = true → is_executing c = true) →
  armed (failed plat e c error h t l).
Proof.
  intros Hac. unfold failed. destruct (destroying c) eqn:Hd.
  - intros c' [= <-]. unfold errored, cancelled, stopped, armed_ok.
    destruct c as [cn own con ex des [ty da ac cl] qq ta cu er ud].
    simpl in *. destruct ex, ac; simpl;
      try (split; [done|by intros [=]]); by specialize (Hac eq_refl).
  - apply destroyed_armed. unfold errored, cancelled, stopped.
    destruct c as [cn own con ex des [ty da ac cl] qq ta cu er ud].
    simpl in *. destruct ex, ac; simpl; try done; by specialize (Hac eq_refl).
Qed.

Lemma dispatched_armed plat e c n h t l :
  is_executing c = true → is_Some (current_query c) →
  armed (dispatched plat e c n h t l).
Proof.
  intros Hex Hcur. unfold dispatched.
  assert (∀ c0, is_executing c0 = true →
                h_active (handle c0) = true → is_executing c0 = true)
    as Hpre by done.
  destruct (send_result e =? 0); [by apply failed_armed, Hpre|].
  destruct plat.
  - destruct (PQsocket e <? 0); [by apply failed_armed, Hpre|].
    destruct (init_result e =? 0); simpl; [|by apply failed_armed, Hpre].
    destruct (start_result e =? 0); simpl; [|by apply failed_armed, Hpre].
    intros c' [= <-]. by split.
  - destruct (init_result e =? 0); simpl; [|by apply failed_armed, Hpre].
    destruct (start_result e =? 0); simpl; [|by apply failed_armed, Hpre].
    intros c' [= <-]. by split.
Qed.

Lemma pquv_queue_armed a pg s n ps cb d w r w' :
  pquv_queue a pg s n ps cb d w = Some (r, w') → armed w → armed w'.
Proof.
  unfold pquv_queue. intros Hq Harm.
  destruct pg; [by apply ret_inv in Hq as [_ ->]|].
  destruct s as [s|]; [|by apply ret_inv in Hq as [_ ->]].
  destruct (calloc_query a) as [q|]; [|by apply ret_inv in Hq as [_ ->]].
  apply bind_inv in Hq as ([] & w1 & [_ ->]%fresh_inv & Hq).
  destruct (strdup (strdup_sql_ok a) s); [|by apply ret_inv in Hq as [_ ->]].
  apply bind_inv in Hq as (copy & w1 & Hcopy & Hq).
  assert (w1 = w) as ->.
  { destruct (0 <? n); [|by apply ret_inv in Hcopy as [_ ->]].
    destruct ps as [l|]; [|by apply ret_inv in Hcopy as [_ ->]].
    destruct (malloc_params_ok a); [|by apply ret_inv in Hcopy as [_ ->]].
    destruct (Z.to_nat n <=? length l)%nat; [|done].
    by apply ret_inv in Hcopy as [_ ->]. }
  destruct copy as [ps'|]; [|by apply ret_inv in Hq as [_ ->]].
  apply bind_inv in Hq as ([] & w1 & [_ ->]%alloc_query_inv & Hq).
  apply bind_inv in Hq as (c & w1 & (_ & Hc & ->)%get_pg_inv & Hq).
  simpl in Hc. specialize (Harm c Hc).
  destruct (query_queue c).
  - destruct (query_queue_tail c); [|done].
    apply bind_inv in Hq as ([] & w1 & (nt & _ & ->)%store_inv & Hq).
    apply bind_inv in Hq as ([] & w1 & (c0 & _ & Hc0 & ->)%modify_pg_inv & Hq).
    apply ret_inv in Hq as [_ ->]. simpl in Hc0. rewrite Hc in Hc0.
    injection Hc0 as <-. by intros c' [= <-].
  - apply bind_inv in Hq as ([] & w1 & (c0 & _ & Hc0 & ->)%modify_pg_inv & Hq).
    apply bind_inv in Hq as ([] & w1 & (c1 & _ & Hc1 & ->)%modify_pg_inv & Hq).
    apply ret_inv in Hq as [_ ->]. simpl in Hc0, Hc1. rewrite Hc in Hc0.
    injection Hc0 as <-. injection Hc1 as <-. by intros c' [= <-].
Qed.

Lemma execute_next_query_armed cn d plat e c h t w' :
  Inv cn d {| ctx := Some c; heap := h; trace := t |} →
  is_executing c = true → h_active (handle c) = false →
  execute_next_query plat e PgCtx {| ctx := Some c; heap := h; trace := t |} =
    Some ((), w') →
  armed w'.
Proof.
  intros [[l Hq] Hs] Hex Hac. simpl in *.
  destruct (query_queue c) as [p|] eqn:Hqq.
  - pose proof Hq as (Hc & _). rewrite Hqq in Hc.
    destruct l as [|p' l]; [done|]. destruct Hc as [[= <-] (n & Hn & Hc)].
    destruct (handle_initialized c) eqn:Hi; [|destruct (refused_early plat e) eqn:Hr].
    + rewrite (execute_next_query_nonempty _ _ _ p n _ _ l) by auto.
      intros [= <-]. apply dispatched_armed.
      * unfold popped. by destruct (next n).
      * unfold popped. destruct (next n); simpl; eauto.
    + by rewrite (execute_next_query_refused _ _ _ p n).
    + rewrite (execute_next_query_nonempty _ _ _ p n _ _ l) by auto.
      intros [= <-]. apply dispatched_armed.
      * unfold popped. by destruct (next n).
      * unfold popped. destruct (next n); simpl; eauto.
  - rewrite execute_next_query_empty by done.
    destruct (destroying c) eqn:Hd.
    + rewrite pg_async_destroy_again by done. intros [= <-] c' [= <-].
      split; [done|]. by intros [=].
    + rewrite (pg_async_destroy_spec _ _ _ _ _ l);
        [|done|done|by destruct Hq].
      intros [= <-]. apply destroyed_armed. simpl. by rewrite Hac.
Qed.

Lemma on_ready_armed cn d plat e status c h t w' :
  Inv cn d {| ctx := Some c; heap := h; trace := t |} →
  armed_ok c → h_active (handle c) = true →
  on_ready plat e UvHandle status {| ctx := Some c; heap := h; trace := t |} =
    Some ((), w') →
  armed w'.
Proof.
  intros HI [Heq Hcur0] Hac. pose proof HI as [[l Hq] Hs]. simpl in *.
  assert (is_executing c = true) as Hex by congruence.
  assert (handle_initialized c = true) as Hi.
  { destruct Hs as (_ & _ & _ & _ & _ & _ & _ & _ & Hlive'). by apply Hlive'. }
  pose proof Hs as (_ & _ & Hdata & _).
  pose proof Hq as (Hc & _ & Hcur).
  assert (∀ p, current_query c = Some p → is_Some (h !! p)) as Hlive.
  { intros p Hp. by apply Hcur. }
  destruct (destroying c) eqn:Hd.
  { rewrite on_ready_destroying by done. intros [= <-] c' [= <-]. by split. }
  assert (status < 0 ∧ plat = Posix ∨ (0 ≤ status ∨ plat = Win32))
    as [[Hst ->]|Hst].
  { destruct plat; [|by auto]. destruct (decide (status < 0)); [by auto|].
    right. left. lia. }
  { unfold on_ready. rewrite (on_poll_error _ _ _ _ _ l) by done.
    intros [= <-]. apply failed_armed. by intros _. }
  assert (∃ status', 0 ≤ status' ∧
    on_ready plat e UvHandle status = on_ready plat e UvHandle status')
    as (status' & Hst' & ->).
  { destruct Hst as [?| ->]; [by exists status|]. by exists 0. }
  destruct (decide (consume_input e = 0)) as [Hco|Hco].
  { rewrite (on_ready_consume_failed _ _ _ _ _ _ l) by done.
    intros [= <-]. destruct plat; apply failed_armed; by intros _. }
  destruct (decide (PQisBusy e = 0)) as [Hb|Hb]; cycle 1.
  { rewrite on_ready_busy by done. intros [= <-] c' [= <-]. by split. }
  destruct (results_split (results e))
    as [Hok|(good & bad & rest & Hrs & Hok & Hbad)].
  - rewrite on_ready_drained by done. unfold drained.
    apply (execute_next_query_armed cn d); try done.
    by apply drained_Inv.
  - rewrite (on_ready_failed _ _ _ _ _ _ l good bad rest) by done.
    intros [= <-]. unfold drain_failed.
    destruct plat; apply failed_armed; by intros _.
Qed.

Lemma step_armed cn d plat c w w' :
  Inv cn d w → armed w → step plat c w = Some ((), w') → armed w'.
Proof.
  intros HI Harm Hstep. destruct w as [[cx|] h t]; cycle 1.
  { destruct c; simpl in Hstep; try discriminate.
    unfold pquv_queue, discard_query in Hstep. minv; done. }
  pose proof (Harm cx eq_refl) as Hok.
  destruct c as [a s n ps cb qd|e|e status|]; unfold step in Hstep.
  - apply bind_inv in Hstep as (r & w1 & Hq & [_ ->]%ret_inv).
    by apply (pquv_queue_armed _ _ _ _ _ _ _ _ _ _ Hq).
  - apply bind_inv in Hstep as (r & w1 & Hex & [_ ->]%ret_inv).
    rewrite pquv_execute_unfold in Hex.
    destruct (negb (is_connected cx)); [by injection Hex as _ <-|].
    destruct (is_executing cx) eqn:Hexec; [by injection Hex as _ <-|].
    destruct Hok as [Hac _]. rewrite Hexec in Hac.
    destruct (query_queue cx) eqn:Hqq.
    + apply bind_inv in Hex as ([] & w2 & Hex & [_ ->]%ret_inv).
      by apply (execute_next_query_armed cn d plat e _ _ _ _) in Hex.
    + apply bind_inv in Hex as ([] & w2 & Hdes & [_ ->]%ret_inv).
      destruct HI as [[l Hq] Hs]. simpl in Hq, Hs.
      destruct (destroying cx) eqn:Hd.
      * rewrite pg_async_destroy_again in Hdes by done.
        injection Hdes as <-. intros c' [= <-]. split; [congruence|].
        rewrite Hexec. by intros [=].
      * rewrite (pg_async_destroy_spec _ _ _ _ _ l) in Hdes;
          [|by rewrite Hexec|done|by destruct Hq].
        injection Hdes as <-. apply destroyed_armed. by rewrite Hac.
  - rewrite bind_get_pg in Hstep.
    destruct (h_active (handle cx)) eqn:Hac; [|done].
    by apply (on_ready_armed cn d plat e status cx h t).
  - rewrite bind_get_pg in Hstep. destruct (h_closing (handle cx)); [|done].
    destruct HI as [_ (_ & _ & Hdata & _)]. simpl in Hdata.
    rewrite on_handle_closed_spec in Hstep by done.
    injection Hstep as <-. by intros c' [=].
Qed.

Lemma run_armed cn d plat cs w w' :
  Inv cn d w → armed w → run plat cs w = Some ((), w') → armed w'.
Proof.
  revert w. induction cs as [|c cs IH]; intros w HI Harm; simpl.
  - by intros [= <-].
  - intros Hrun. apply bind_inv in Hrun as ([] & w1 & Hstep & Hrun).
    apply (IH w1); [by eapply step_Inv|by eapply step_armed|done].
Qed.

(** X16. The handle is armed exactly while the context is executing, and
    an executing context has an operation in flight: in every store a run
    reaches from [pquv_create] with the context still allocated, the handle
    is started if and only if [is_executing] is set, and then
    [current_query] is not [NULL].  So whenever libuv can call [on_poll] or
    [on_timer], there is an operation to deliver the results to. *)
Theorem X16_armed_while_in_flight plat calloc_ok existing_conn ud pg cs w c :
  pquv_create calloc_ok existing_conn ud = Some pg →
  run plat cs (world_of pg) = Some ((), w) →
  ctx w = Some c →
  h_active (handle c) = is_executing c ∧
  (is_executing c = true → is_Some (current_query c)) ∧
  (∀ e status, enabled (Fire e status) w → is_Some (current_query c)).
Proof.
  intros Hpg Hrun Hctx. destruct existing_conn as [cn|]; [|done].
  pose proof (created_Inv _ _ _ _ Hpg) as HI0.
  assert (armed (world_of pg)) as Harm0.
  { unfold pquv_create in Hpg. destruct (PQstatus cn); [|done].
    destruct calloc_ok; [|done]. injection Hpg as <-.
    intros c0 [= <-]. split; [done|]. by intros [=]. }
  destruct (run_armed cn false plat cs _ _ HI0 Harm0 Hrun c Hctx) as [Heq Hcur].
  split; [done|]. split; [done|].
  intros e status. unfold enabled. rewrite Hctx. intros Hac.
  apply Hcur. congruence.
Qed.

Lemma X16_witness :
  h_active (handle (context_of (final_world Posix sample_started))) =
    is_executing (context_of (final_world Posix sample_started)) ∧
  (is_executing (context_of (final_world Posix sample_started)) = true →
   is_Some (current_query (context_of (final_world Posix sample_started)))) ∧
  (∀ e status, enabled (Fire e status) (final_world Posix sample_started) →
     is_Some (current_query (context_of (final_world Posix sample_started)))).
Proof.
  apply (X16_armed_while_in_flight Posix true (Some sample_conn) 7
           sample_pg sample_started (final_world Posix sample_started)
           (context_of (final_world Posix sample_started))).
  - reflexivity.
  - apply sample_started_run.
  - vm_compute. reflexivity.
Defined.

(** ** The one [free] of the context *)

(** X17. [free(pg)] is called at most once.  After any run from
    [pquv_create]: while the context is allocated, nothing has freed it, and
    its handle is closing only if [uv_close] was called and [destroying] is
    set.  Once it is freed, [free(pg)] occurs exactly once in the trace; if
    [uv_close] had been called before, the free is the one that
    [on_handle_closed] performs, right after libuv entered it; and nothing
    is called afterwards but [free] on a node that a failing [pquv_queue]
    was building. *)
Theorem X17_context_freed_once plat calloc_ok existing_conn ud pg cs w :
  pquv_create calloc_ok existing_conn ud = Some pg →
  run plat cs (world_of pg) = Some ((), w) →
  match ctx w with
  | Some c =>
      (EvFreeCtx ∉ trace w) ∧
      (h_closing (handle c) = true →
       destroying c = true ∧ Ev_uv_close ∈ trace w)
  | None =>
      ∃ t t', trace w = t ++ EvFreeCtx :: t' ∧
              (EvFreeCtx ∉ t) ∧ (EvFreeCtx ∉ t') ∧
              Forall (λ x, is_free x = true) t' ∧
              (Ev_uv_close ∈ t → ∃ t0, t = t0 ++ [EvCloseCb])
  end.
Proof.
  intros Hpg Hrun. destruct existing_conn as [cn|]; [|done].
  pose proof (created_Inv _ _ _ _ Hpg) as HI0.
  pose proof (run_Inv _ _ _ _ _ _ HI0 Hrun) as HI.
  unfold Inv in HI. destruct (ctx w) as [c|].
  - by destruct HI as [_ (_ & _ & _ & _ & Hfree & _ & Hcl & _)].
  - destruct HI as (_ & t & t' & Ht & Hfree & Hall & Hcl).
    exists t, t'. split; [done|]. split; [done|]. split; [|done].
    intros Hin. rewrite Forall_forall in Hall. by apply Hall in Hin.
Qed.

Lemma X17_witness :
  match ctx (final_world Posix sample_calls) with
  | Some c =>
      (EvFreeCtx ∉ trace (final_world Posix sample_calls)) ∧
      (h_closing (handle c) = true →
       destroying c = true ∧
       Ev_uv_close ∈ trace (final_world Posix sample_calls))
  | None =>
      ∃ t t', trace (final_world Posix sample_calls) = t ++ EvFreeCtx :: t' ∧
              (EvFreeCtx ∉ t) ∧ (EvFreeCtx ∉ t') ∧
              Forall (λ x, is_free x = true) t' ∧
              (Ev_uv_close ∈ t → ∃ t0, t = t0 ++ [EvCloseCb])
  end.
Proof.
  apply (X17_context_freed_once Posix true (Some sample_conn) 7 sample_pg
           sample_calls (final_world Posix sample_calls)).
  - reflexivity.
  - apply sample_calls_run.
Defined.

(** ** Parameters handed to the driver *)

(** X18. In a batch in which every operation reaches its dispatch, the
    queries handed to the driver are those of the operations, in the order
    in which they were queued.  An operation queued with [K] parameters is
    sent with [PQsendQueryParams] and [nParams = K], or with [PQsendQuery]
    when [K = 0]; the parameter list handed over has length [K] and holds,
    at each position, the submitted value when that is not [NULL] and its
    [strdup] succeeded, and [NULL] otherwise; so it is the submitted list
    itself when each [strdup] of a parameter succeeded. *)
Theorem X18_parameters_round_trip plat calloc_ok existing_conn ud pg e0 ops :
  pquv_create calloc_ok existing_conn ud = Some pg →
  NoDup (map op_addr ops) → sends_ok e0 → Forall op_succeeds ops →
  ∃ w, run plat (batch e0 ops) (world_of pg) = Some ((), w) ∧
       sends (trace w) =
         map (λ o, if 0 <? op_count o
                   then EvPQsendQueryParams (op_sql o) (op_count o)
                          (Some (op_handed o))
                   else EvPQsendQuery (op_sql o)) ops ∧
       Forall (λ o,
         length (op_handed o) = length (op_params o) ∧
         (∀ i, (i < length (op_params o))%nat →
               nth i (op_handed o) None =
               match nth i (op_params o) None with
               | Some v => if op_strdup o i then Some v else None
               | None => None
               end) ∧
         ((∀ i, op_strdup o i = true) → op_handed o = op_params o)) ops.
Proof.
  intros Hpg Hnd Hsend Hok.
  destruct existing_conn as [cn|]; [|done].
  destruct (batch_run plat _ _ _ _ _ _ Hpg Hnd Hsend Hok) as (w & Hrun & Ht & _).
  exists w. split; [done|]. split.
  - rewrite Ht. rewrite <- (map_ext _ _ op_send_unfold).
    destruct ops as [|o rest]; [done|]. unfold batch_trace.
    by rewrite sends_app, sends_dispatch, sends_run_trace.
  - apply Forall_forall. intros o _. unfold op_handed.
    split; [|split].
    + apply copy_params_length.
    + intros i Hi. by rewrite copy_params_nth by done.
    + intros Hall. by apply copy_params_id.
Qed.

Lemma X18_witness :
  ∃ w, run Posix (batch (sample_env 0 []) sample_ops) (world_of sample_pg) =
         Some ((), w) ∧
       sends (trace w) =
         map (λ o, if 0 <? op_count o
                   then EvPQsendQueryParams (op_sql o) (op_count o)
                          (Some (op_handed o))
                   else EvPQsendQuery (op_sql o)) sample_ops ∧
       Forall (λ o,
         length (op_handed o) = length (op_params o) ∧
         (∀ i, (i < length (op_params o))%nat →
               nth i (op_handed o) None =
               match nth i (op_params o) None with
               | Some v => if op_strdup o i then Some v else None
               | None => None
               end) ∧
         ((∀ i, op_strdup o i = true) → op_handed o = op_params o))
         sample_ops.
Proof.
  apply (X18_parameters_round_trip Posix true (Some sample_conn) 7
           sample_pg (sample_env 0 []) sample_ops).
  - reflexivity.
  - apply sample_ops_NoDup.
  - apply sample_sends_ok.
  - apply sample_ops_succeed.
Defined.
